(** * Fused cross-entropy loss kernels (unsloth/kernels/cross_entropy_loss.py)

    A shallow embedding of the three Triton kernels
    [_cross_entropy_forward], [_large_cross_entropy_forward] and
    [_cross_entropy_backward], of the autograd function
    [Fast_CrossEntropyLoss] that launches them, and of the top-level
    [fast_cross_entropy_loss].

    Numbers.  A float32 value is modelled by [fval]: a real number or one
    of the IEEE special values +inf, -inf, NaN.  Arithmetic on finite
    values is exact: nothing is rounded, and a sum, difference or product
    of finite values is finite, where float32 rounds and overflows beyond
    [float32_max].  The one overflow that is modelled is that of [exp], to
    +inf above the float32 threshold, the overflow the max-subtraction of
    the kernels is there to avoid.  The special values follow the IEEE
    rules, which is what the kernels rely on when they pad a block with
    -inf.  A theorem about finite scores therefore gives the values of
    exact arithmetic, which the float32 results round; bounds keep them
    inside the float32 range where that matters.

    Memory.  A tensor is a flat buffer (a list) addressed by an integer
    offset; a read or write outside the buffer has no defined result and
    makes the whole launch fail ([None]).

    Grids.  A kernel launch runs one program per grid point; the programs
    are run here one after the other in program-id order. *)

From Stdlib Require Import Reals Lra Classical_Prop.
From stdpp Require Import list numbers.

Local Open Scope Z_scope.

(** ** Extended real values *)

Inductive fval : Type :=
  | Fin (r : R)
  | PInf
  | NInf
  | NaN.

(** The infinity [if pos then +inf else -inf] scaled by the sign of [a];
    zero times infinity is NaN. *)
Definition scale_inf (pos : bool) (a : R) : fval :=
  match total_order_T 0 a with
  | inleft (left _) => if pos then PInf else NInf
  | inleft (right _) => NaN
  | inright _ => if pos then NInf else PInf
  end.

Definition fneg (x : fval) : fval :=
  match x with
  | Fin r => Fin (- r)
  | PInf => NInf
  | NInf => PInf
  | NaN => NaN
  end.

Definition fadd (x y : fval) : fval :=
  match x, y with
  | NaN, _ | _, NaN => NaN
  | Fin a, Fin b => Fin (a + b)
  | PInf, NInf | NInf, PInf => NaN
  | PInf, _ | _, PInf => PInf
  | NInf, _ | _, NInf => NInf
  end.

Definition fsub (x y : fval) : fval := fadd x (fneg y).

Definition fmul (x y : fval) : fval :=
  match x, y with
  | NaN, _ | _, NaN => NaN
  | Fin a, Fin b => Fin (a * b)
  | Fin a, PInf | PInf, Fin a => scale_inf true a
  | Fin a, NInf | NInf, Fin a => scale_inf false a
  | PInf, PInf | NInf, NInf => PInf
  | PInf, NInf | NInf, PInf => NInf
  end.

(** Division; a zero divisor is the positive zero (the only divisor of the
    program is a count). *)
Definition fdiv (x y : fval) : fval :=
  match x, y with
  | NaN, _ | _, NaN => NaN
  | Fin a, Fin b =>
      if Req_dec_T b 0 then scale_inf true a else Fin (a / b)
  | Fin _, _ => Fin 0
  | PInf, Fin b => if Rlt_dec b 0 then NInf else PInf
  | NInf, Fin b => if Rlt_dec b 0 then PInf else NInf
  | _, _ => NaN
  end.

(** The exponential of float32 overflows to +inf above ln(FLT_MAX), about
    88.72; this is the overflow the kernels are written around. *)
Definition exp_overflow : R := 8872 / 100.

Definition fexp (x : fval) : fval :=
  match x with
  | Fin r => if Rle_dec r exp_overflow then Fin (exp r) else PInf
  | PInf => PInf
  | NInf => Fin 0
  | NaN => NaN
  end.

Definition flog (x : fval) : fval :=
  match x with
  | Fin r =>
      match total_order_T 0 r with
      | inleft (left _) => Fin (ln r)
      | inleft (right _) => NInf
      | inright _ => NaN
      end
  | PInf => PInf
  | NInf => NaN
  | NaN => NaN
  end.

(** Maximum of two values; a NaN operand is dropped (the [max.f32]
    instruction [tl.max] reduces with). *)
Definition fmax (x y : fval) : fval :=
  match x, y with
  | NaN, z | z, NaN => z
  | PInf, _ | _, PInf => PInf
  | NInf, z | z, NInf => z
  | Fin a, Fin b => Fin (Rmax a b)
  end.

(** The largest finite float32, [(2 - 2^-23) * 2^127].  Sums and
    differences are exact here; those of float32 overflow beyond it. *)
Definition float32_max : R := IZR 340282346638528859811704183484516925440.

(** ** Block operations of [triton.language] *)

(** [tl.max(v, 0)] and [tl.sum(v, 0)]: reductions of a block. *)
Definition tl_max (v : list fval) : fval := foldr fmax NInf v.
Definition tl_sum (v : list fval) : fval := foldr fadd (Fin 0) v.

(** [tl.arange(lo, hi)]. *)
Definition tl_arange (lo hi : Z) : list Z := seqZ lo (hi - lo).

(** Signed 32-bit wrap-around of [.to(tl.int32)]; [.to(tl.int64)] of a
    64-bit label is the identity. *)
Definition to_int32 (z : Z) : Z := (z + 2 ^ 31) `mod` 2 ^ 32 - 2 ^ 31.

(** ** Buffers *)

Definition read {A} (mem : list A) (addr : Z) : option A :=
  if decide (0 ≤ addr) then mem !! Z.to_nat addr else None.

Definition write {A} (mem : list A) (addr : Z) (v : A) : option (list A) :=
  if decide (0 ≤ addr < Z.of_nat (length mem))
  then Some (<[Z.to_nat addr := v]> mem) else None.

(** [tl.load(ptr + offsets, mask = mask, other = other)]. *)
Definition tl_load (mem : list fval) (ptr : Z) (offsets : list Z)
    (mask : list bool) (other : fval) : option (list fval) :=
  mapM (λ om : Z * bool, if om.2 then read mem (ptr + om.1) else Some other)
       (zip offsets mask).

(** [tl.store(ptr + offsets, vals, mask = mask)], lane after lane. *)
Fixpoint tl_store (mem : list fval) (ptr : Z) (offsets : list Z)
    (vals : list fval) (mask : list bool) : option (list fval) :=
  match offsets, vals, mask with
  | o :: os, v :: vs, m :: ms =>
      mem' ← (if m then write mem (ptr + o) v else Some mem);
      tl_store mem' ptr os vs ms
  | _, _, _ => Some mem
  end.

(** [tl.where(cond, a, b)]. *)
Fixpoint tl_where (cond : list bool) (a b : list fval) : list fval :=
  match cond, a, b with
  | c :: cs, x :: xs, y :: ys => (if c then x else y) :: tl_where cs xs ys
  | _, _, _ => []
  end.

(** ** The kernels *)

(** [_cross_entropy_forward], program [row_idx] of the grid [(n_rows,)].
    The kernel stores into the [loss] and [logsumexp] buffers, which are
    returned updated. *)
Definition _cross_entropy_forward
    (logits : list fval) (logits_row_stride : Z)
    (loss logsumexp : list fval) (labels : list Z)
    (VOCAB_SIZE BLOCK_SIZE : Z) (row_idx : Z)
    : option (list fval * list fval) :=
  let logits_ptr := row_idx * logits_row_stride in
  let col_offsets := tl_arange 0 BLOCK_SIZE in
  let mask := (λ c, bool_decide (c < VOCAB_SIZE)) <$> col_offsets in
  label ← read labels row_idx;
  let label_idx := to_int32 label in
  row ← tl_load logits logits_ptr col_offsets mask NInf;
  let c := tl_max row in
  let lse := fadd c (flog (tl_sum (fexp <$> ((λ x, fsub x c) <$> row)))) in
  loss_v ← (if decide (label_idx ≠ -100)
            then x ← read logits (logits_ptr + label_idx); Some (fsub lse x)
            else Some (Fin 0));
  logsumexp' ← write logsumexp row_idx lse;
  loss' ← write loss row_idx loss_v;
  Some (loss', logsumexp').

(** [_large_cross_entropy_forward], program [(row_idx, col_idx)] of the
    grid [(n_rows, n_chunks)].  The [loss] and [lse] buffers hold
    [n_chunks] by [n_rows] partial results, chunk after chunk. *)
Definition _large_cross_entropy_forward
    (logits : list fval) (logits_row_stride : Z)
    (loss lse_buf : list fval) (labels : list Z)
    (n_rows n_cols BLOCK_SIZE : Z) (row_idx col_idx : Z)
    : option (list fval * list fval) :=
  let logits_ptr := row_idx * logits_row_stride in
  let out := row_idx + col_idx * n_rows in
  let col_offsets := (λ i, col_idx * BLOCK_SIZE + i) <$> tl_arange 0 BLOCK_SIZE in
  let mask := (λ c, bool_decide (c < n_cols)) <$> col_offsets in
  label_idx ← read labels row_idx;
  row ← tl_load logits logits_ptr col_offsets mask NInf;
  let max_logits := tl_max row in
  let lse :=
    fadd (flog (tl_sum (fexp <$> ((λ x, fsub x max_logits) <$> row)))) max_logits in
  lse_buf' ← write lse_buf out lse;
  loss_v ← (if decide (label_idx ≠ -100)
            then if decide (label_idx >= (col_idx + 0) * BLOCK_SIZE
                            ∧ label_idx < Z.min ((col_idx + 1) * BLOCK_SIZE) n_cols)
                 then logits_label ← read logits (logits_ptr + label_idx);
                      let lse := Fin 0 in
                      Some (fsub lse logits_label)
                 else Some (Fin 0)
            else Some (Fin 0));
  loss' ← write loss out loss_v;
  Some (loss', lse_buf').

(** [_cross_entropy_backward], program [(row_idx, block_idx)] of the grid
    [(n_rows, n_blocks)].  The kernel overwrites its block of the [logits]
    buffer, which is returned updated. *)
Definition _cross_entropy_backward
    (logits : list fval) (logits_row_stride : Z)
    (dloss : list fval) (dloss_row_stride : Z)
    (logsumexp : list fval) (labels : list Z)
    (VOCAB_SIZE BLOCK_SIZE : Z) (row_idx block_idx : Z)
    : option (list fval) :=
  let logits_ptr := row_idx * logits_row_stride in
  let dloss_ptr := row_idx * dloss_row_stride in
  let col_offsets := (λ i, block_idx * BLOCK_SIZE + i) <$> tl_arange 0 BLOCK_SIZE in
  let mask := (λ c, bool_decide (c < VOCAB_SIZE)) <$> col_offsets in
  label ← read labels row_idx;
  let label_idx := to_int32 label in
  x ← tl_load logits logits_ptr col_offsets mask NInf;
  lse ← read logsumexp row_idx;
  let y := fexp <$> ((λ v, fsub v lse) <$> x) in
  let y := tl_where ((λ c, bool_decide (c = label_idx)) <$> col_offsets)
                    ((λ v, fsub v (Fin 1)) <$> y) y in
  dl ← (if decide (label_idx ≠ -100) then read dloss dloss_ptr else Some (Fin 0));
  tl_store logits logits_ptr col_offsets (fmul dl <$> y) mask.

(** ** Tensors and the torch operations used by the host code *)

(** A two-dimensional tensor of shape [(shape0, shape1)] over a flat
    buffer: element [(r, j)] lives at offset [r * stride0 + j]. *)
Record tensor : Type := Tensor {
  data : list fval;
  shape0 : Z;
  shape1 : Z;
  stride0 : Z
}.

(** The upstream gradient: one value per row, [dstride] elements apart
    (0 when a scalar was expanded). *)
Record grad_vector : Type := GradVector {
  ddata : list fval;
  dstride : Z
}.

(** [torch.empty(n)]: the contents are unspecified; NaN marks an element
    never written. *)
Definition torch_empty (n : Z) : list fval := replicate (Z.to_nat n) NaN.

(** Column [r] of an [(n_chunks, n_rows)] buffer. *)
Definition column (buf : list fval) (n_rows n_chunks r : Z) : list fval :=
  (λ k, default NaN (read buf (r + k * n_rows))) <$> seqZ 0 n_chunks.

(** [amax] of torch propagates NaN. *)
Definition torch_amax (v : list fval) : fval :=
  foldr (λ x y, match x, y with
                | NaN, _ | _, NaN => NaN
                | _, _ => fmax x y
                end) NInf v.

(** [torch.logsumexp] along one dimension: the maximum is subtracted
    unless it is infinite. *)
Definition torch_logsumexp (v : list fval) : fval :=
  let maxes :=
    match torch_amax v with
    | PInf | NInf => Fin 0
    | m => m
    end in
  fadd (flog (tl_sum (fexp <$> ((λ x, fsub x maxes) <$> v)))) maxes.

(** [t.sum()] of a vector. *)
Definition torch_sum (v : list fval) : fval := foldr fadd (Fin 0) v.

(** [torch.count_nonzero(labels != -100)]. *)
Definition count_valid (labels : list Z) : Z :=
  Z.of_nat (length (filter (λ l, l ≠ -100) labels)).

(** ** Kernel launches *)

(** Runs program [p] of [k] for each [p] of the grid, threading the
    buffers the kernel writes. *)
Fixpoint launch {P S : Type} (k : P → S → option S) (grid : list P) (s : S)
    : option S :=
  match grid with
  | [] => Some s
  | p :: ps => s' ← k p s; launch k ps s'
  end.

Definition grid2 (n m : Z) : list (Z * Z) :=
  r ← seqZ 0 n; (λ c, (r, c)) <$> seqZ 0 m.

Definition MAX_FUSED_SIZE : Z := 65536.

(** ** [Fast_CrossEntropyLoss] *)

(** What [ctx.save_for_backward] keeps. *)
Record saved_tensors : Type := Saved {
  saved_logits : tensor;
  saved_logsumexp : list fval;
  saved_labels : list Z
}.

(** The branch [n_chunks == 1] of [forward]: one program per row. *)
Definition forward_fused (BLOCK_SIZE : Z) (logits : tensor) (labels : list Z)
    : option (list fval * list fval) :=
  let n_rows := shape0 logits in
  let vocab_size := shape1 logits in
  let losses := torch_empty n_rows in
  let logsumexp := torch_empty n_rows in
  launch (λ row_idx (s : list fval * list fval),
            _cross_entropy_forward (data logits) (stride0 logits) s.1 s.2
              labels vocab_size BLOCK_SIZE row_idx)
         (seqZ 0 n_rows) (losses, logsumexp).

(** The other branch.  First one program per row and chunk fills the two
    [(n_chunks, n_rows)] buffers of partial results ... *)
Definition chunked_partials (BLOCK_SIZE n_chunks : Z) (logits : tensor)
    (labels : list Z) : option (list fval * list fval) :=
  let n_rows := shape0 logits in
  let vocab_size := shape1 logits in
  let losses := torch_empty (n_chunks * n_rows) in
  let logsumexp := torch_empty (n_chunks * n_rows) in
  launch (λ (p : Z * Z) (s : list fval * list fval),
            _large_cross_entropy_forward (data logits) (stride0 logits) s.1 s.2
              labels n_rows vocab_size BLOCK_SIZE p.1 p.2)
         (grid2 n_rows n_chunks) (losses, logsumexp).

(** ... then torch reduces them along the chunk dimension. *)
Definition chunked_combine (n_rows n_chunks : Z) (labels : list Z)
    (partials : list fval * list fval) : list fval * list fval :=
  let '(losses, logsumexp) := partials in
  let logsumexp :=
    (λ r, torch_logsumexp (column logsumexp n_rows n_chunks r)) <$> seqZ 0 n_rows in
  let losses :=
    (λ r, torch_sum (column losses n_rows n_chunks r)) <$> seqZ 0 n_rows in
  let losses := zip_with fadd losses logsumexp in
  let losses :=
    zip_with (λ (l : Z) x, if decide (l = -100) then Fin 0 else x) labels losses in
  (losses, logsumexp).

Definition forward_chunked (BLOCK_SIZE n_chunks : Z) (logits : tensor)
    (labels : list Z) : option (list fval * list fval) :=
  partials ← chunked_partials BLOCK_SIZE n_chunks logits labels;
  Some (chunked_combine (shape0 logits) n_chunks labels partials).

(** [forward].  [calculate_settings] of [kernels/utils.py] is a parameter:
    it gives the block size of the single-pass kernel (the number of warps
    it also returns has no effect on the result). *)
Definition Fast_CrossEntropyLoss_forward (calculate_settings : Z → Z)
    (logits : tensor) (labels : list Z) : option (list fval * saved_tensors) :=
  let vocab_size := shape1 logits in
  let div := vocab_size `div` MAX_FUSED_SIZE in
  let mod_ := vocab_size `mod` MAX_FUSED_SIZE in
  let n_chunks := div + (if decide (mod_ ≠ 0) then 1 else 0) in
  '(losses, logsumexp) ←
    (if decide (n_chunks = 1)
     then forward_fused (calculate_settings vocab_size) logits labels
     else forward_chunked MAX_FUSED_SIZE n_chunks logits labels);
  Some (losses, Saved logits logsumexp labels).

Definition Fast_CrossEntropyLoss_backward (ctx : saved_tensors)
    (dlosses : grad_vector) : option tensor :=
  let logits := saved_logits ctx in
  let logsumexp := saved_logsumexp ctx in
  let labels := saved_labels ctx in
  let n_rows := shape0 logits in
  let vocab_size := shape1 logits in
  let BLOCK_SIZE := 4096 in
  let div := vocab_size `div` BLOCK_SIZE in
  let mod_ := vocab_size `mod` BLOCK_SIZE in
  let n_blocks := div + (if decide (mod_ ≠ 0) then 1 else 0) in
  buf ← launch (λ (p : Z * Z) (buf : list fval),
                  _cross_entropy_backward buf (stride0 logits)
                    (ddata dlosses) (dstride dlosses) logsumexp labels
                    vocab_size BLOCK_SIZE p.1 p.2)
               (grid2 n_rows n_blocks) (data logits);
  Some (Tensor buf (shape0 logits) (shape1 logits) (stride0 logits)).

(** ** [fast_cross_entropy_loss] *)

(** A contiguous tensor of shape [(batch, seq_len, d)], as [view]
    requires, and the label tensor with its own shape. *)
Record tensor3 : Type := Tensor3 {
  data3 : list fval;
  batch : Z;
  seq_len : Z;
  vocab : Z
}.

Record label_tensor : Type := Labels {
  ldata : list Z;
  lshape : Z * Z
}.

(** [logits.view(batch * seq_len, d)]. *)
Definition view2 (logits : tensor3) : tensor :=
  Tensor (data3 logits) (batch logits * seq_len logits) (vocab logits)
         (vocab logits).

(** [None] also stands for the failed [assert] on the label shape. *)
Definition fast_cross_entropy_loss (calculate_settings : Z → Z)
    (logits : tensor3) (labels : label_tensor) : option fval :=
  let batch := batch logits in
  let seq_len := seq_len logits in
  if decide (lshape labels = (batch, seq_len)) then
    '(loss, _) ← Fast_CrossEntropyLoss_forward calculate_settings
                   (view2 logits) (ldata labels);
    let n_items := count_valid (ldata labels) in
    Some (fdiv (torch_sum loss) (Fin (IZR n_items)))
  else None.

(** ** The mathematical quantities the kernels compute *)

Definition Rsum (l : list R) : R := foldr Rplus 0%R l.

Fixpoint Rmax_list (l : list R) : R :=
  match l with
  | [] => 0%R
  | [x] => x
  | x :: l' => Rmax x (Rmax_list l')
  end.

(** The log-sum-exp of a row, [log (sum (exp x))]. *)
Definition LSE (l : list R) : R := ln (Rsum (exp <$> l)).

(** The shifted form of the kernels, [c + log (sum (exp (x - c)))]. *)
Definition shifted_lse (c : R) (l : list R) : R :=
  (c + ln (Rsum ((λ x, exp (x - c)) <$> l)))%R.

(** ** Well-formed inputs *)

(** The buffer [mem] holds [row] from offset [base] on. *)
Definition row_of (mem : list fval) (base : Z) (row : list fval) : Prop :=
  0 ≤ base ∧ take (length row) (drop (Z.to_nat base) mem) = row.

(** The tensor [t] has the rows [rows]. *)
Definition tensor_rows (t : tensor) (rows : list (list fval)) : Prop :=
  Z.of_nat (length rows) = shape0 t ∧ 0 ≤ shape1 t ∧ 0 ≤ stride0 t ∧
  ∀ (r : nat) (row : list fval), rows !! r = Some row →
    Z.of_nat (length row) = shape1 t ∧
    row_of (data t) (Z.of_nat r * stride0 t) row.

(** A label is a column index or the ignore value. *)
Definition valid_label (vocab_size l : Z) : Prop :=
  l = -100 ∨ 0 ≤ l < vocab_size.

(** ** What one block computes *)

(** Columns [k * BLOCK_SIZE ..] of a row, at most [BLOCK_SIZE] of them. *)
Definition chunk {A} (row : list A) (k BLOCK_SIZE : Z) : list A :=
  take (Z.to_nat BLOCK_SIZE) (drop (Z.to_nat (k * BLOCK_SIZE)) row).

(** The lanes a masked load of block [k] returns: the chunk, padded with
    -inf. *)
Definition block_lanes (row : list fval) (k BLOCK_SIZE : Z) : list fval :=
  chunk row k BLOCK_SIZE
  ++ replicate (Z.to_nat BLOCK_SIZE - length (chunk row k BLOCK_SIZE)) NInf.

(** The stabilised log-sum-exp of the lanes of a block. *)
Definition block_lse (lanes : list fval) : fval :=
  let c := tl_max lanes in
  fadd c (flog (tl_sum (fexp <$> ((λ x, fsub x c) <$> lanes)))).

(** ** What a launch leaves in a buffer *)

(** The buffer after each program [p] of the grid has stored [v p] in
    its slot. *)
Definition write_all {P} (slot : P → nat) (v : P → fval) (grid : list P)
    (buf : list fval) : list fval :=
  foldl (λ acc p, <[slot p := v p]> acc) buf grid.

(** ** What each branch of [forward] computes for a row *)

(** The loss of a row as the single-pass kernel stores it. *)
Definition fused_loss (BLOCK_SIZE : Z) (row : list fval) (label : Z) : fval :=
  if decide (label = -100) then Fin 0
  else fsub (block_lse (block_lanes row 0 BLOCK_SIZE))
            (default NaN (read row label)).

(** The partial loss chunk [k] of a row stores. *)
Definition partial_loss (BLOCK_SIZE k : Z) (row : list fval) (label : Z) : fval :=
  if decide (label ≠ -100
             ∧ k * BLOCK_SIZE ≤ label
                 < Z.min ((k + 1) * BLOCK_SIZE) (Z.of_nat (length row)))
  then fsub (Fin 0) (default NaN (read row label))
  else Fin 0.

(** The combined log-sum-exp and loss of a row on the chunked branch. *)
Definition chunked_lse (BLOCK_SIZE n_chunks : Z) (row : list fval) : fval :=
  torch_logsumexp
    ((λ k, block_lse (block_lanes row k BLOCK_SIZE)) <$> seqZ 0 n_chunks).

Definition chunked_loss (BLOCK_SIZE n_chunks : Z) (row : list fval) (label : Z)
    : fval :=
  if decide (label = -100) then Fin 0
  else fadd (torch_sum ((λ k, partial_loss BLOCK_SIZE k row label)
                          <$> seqZ 0 n_chunks))
            (chunked_lse BLOCK_SIZE n_chunks row).

(** The slot of program [(row_idx, col_idx)] in a buffer of partials. *)
Definition partial_slot (n_rows : Z) (p : Z * Z) : nat :=
  Z.to_nat (p.1 + p.2 * n_rows).

(** ** Rows of finite values *)

(** The entry of a row at a label (0 outside the row). *)
Definition row_at (row : list R) (label : Z) : R :=
  default 0%R (read row label).

(** The loss of a row: 0 for the ignore label, else the log-sum-exp minus
    the entry at the label. *)
Definition row_loss (row : list R) (label : Z) : R :=
  if decide (label = -100) then 0%R else (LSE row - row_at row label)%R.

(** The number of chunks [forward] launches, [div + (mod != 0)]. *)
Definition chunk_count (vocab_size BLOCK_SIZE : Z) : Z :=
  vocab_size `div` BLOCK_SIZE
  + (if decide (vocab_size `mod` BLOCK_SIZE ≠ 0) then 1 else 0).

(** Rows of finite values as rows of a tensor. *)
Definition fin_rows (rrows : list (list R)) : list (list fval) :=
  (λ row : list R, Fin <$> row) <$> rrows.

(** ** What the backward kernel stores *)

(** The value stored in column [j], which held [x]. *)
Definition grad_elem (lse dl : fval) (label_idx j : Z) (x : fval) : fval :=
  let y := fexp (fsub x lse) in
  fmul dl (if bool_decide (j = label_idx) then fsub y (Fin 1) else y).

(** The upstream gradient the backward kernel multiplies row [r] with: 0
    for the ignore label, else the element it loads. *)
Definition upstream (dlosses : grad_vector) (label_idx r : Z) : fval :=
  if decide (label_idx ≠ -100)
  then default NaN (read (ddata dlosses) (r * dstride dlosses))
  else Fin 0.

(** The upstream gradient has an element for each of [n] rows. *)
Definition grad_readable (dlosses : grad_vector) (n : Z) : Prop :=
  ∀ r, 0 ≤ r < n → is_Some (read (ddata dlosses) (r * dstride dlosses)).

(** The addresses program [(r, b)] of the backward grid loads and stores. *)
Definition backward_owns (rows : list (list fval)) (stride BLOCK_SIZE : Z)
    (p : Z * Z) (a : nat) : Prop :=
  ∃ i : nat,
    (i < length (chunk (rows !!! Z.to_nat p.1) p.2 BLOCK_SIZE))%nat
    ∧ a = Z.to_nat (p.1 * stride + (p.2 * BLOCK_SIZE + Z.of_nat i)).

(** What program [(r, b)] leaves at address [a]. *)
Definition backward_post (rows : list (list fval)) (stride : Z)
    (logsumexp : list fval) (labels : list Z) (dlosses : grad_vector)
    (p : Z * Z) (a : nat) : fval :=
  let r := p.1 in
  let j := Z.of_nat a - r * stride in
  let label_idx := to_int32 (labels !!! Z.to_nat r) in
  grad_elem (default NaN (read logsumexp r)) (upstream dlosses label_idx r)
    label_idx j (default NaN (read (rows !!! Z.to_nat r) j)).

(** The gradient entry of column [j]: the upstream gradient times the
    softmax minus the indicator of the label. *)
Definition grad_entry (g lse : R) (label j : Z) (x : R) : R :=
  (g * (exp (x - lse) - (if decide (j = label) then 1 else 0)))%R.

(** The gradient of a whole row; 0 for the ignore label. *)
Definition grad_row (g lse : R) (label : Z) (row : list R) : list R :=
  imap (λ j x, if decide (label = -100) then 0%R
               else grad_entry g lse label (Z.of_nat j) x) row.

(** The upstream gradient holds the finite values [gs], one per row. *)
Definition grad_rows (dlosses : grad_vector) (gs : list R) : Prop :=
  ∀ (r : nat) (g : R), gs !! r = Some g →
    read (ddata dlosses) (Z.of_nat r * dstride dlosses) = Some (Fin g).

(** The saved log-sum-exp of each row keeps [exp (x - lse)] below the
    overflow threshold for every entry [x] of the row. *)
Definition exp_safe (rrows : list (list R)) (ls : list R) : Prop :=
  ∀ (r : nat) (row : list R) (lse x : R),
    rrows !! r = Some row → ls !! r = Some lse → x ∈ row →
    (x - lse <= exp_overflow)%R.

(** ** Changed inputs *)

(** The tensor with the score of column [j] of row [r] replaced by [v]. *)
Definition set_score (t : tensor) (r j : nat) (v : R) : tensor :=
  Tensor (<[Z.to_nat (Z.of_nat r * stride0 t + Z.of_nat j) := Fin v]> (data t))
         (shape0 t) (shape1 t) (stride0 t).

(** ** Example inputs *)

(** Two rows over a vocabulary of four, the second one ignored. *)
Definition ex_row : list R := [1; 2; 3; 4]%R.
Definition ex_rows : list (list R) := [ex_row; [0; 0; 0; 0]%R].
Definition ex_logits : tensor :=
  Tensor [Fin 1; Fin 2; Fin 3; Fin 4; Fin 0; Fin 0; Fin 0; Fin 0] 2 4 4.
Definition ex_labels : list Z := [3; -100].

(** The same batch as [fast_cross_entropy_loss] receives it. *)
Definition ex_logits3 : tensor3 :=
  Tensor3 [Fin 1; Fin 2; Fin 3; Fin 4; Fin 0; Fin 0; Fin 0; Fin 0] 1 2 4.
Definition ex_labels3 : label_tensor := Labels [3; -100] (1, 2).
Definition ex_ignored3 : label_tensor := Labels [-100; -100] (1, 2).

(** One row of eight columns, for two chunks of four. *)
Definition ex_wide_row : list R := [1; 2; 3; 4; 5; 6; 7; 8]%R.
Definition ex_wide_rows : list (list R) := [ex_wide_row].
Definition ex_wide : tensor :=
  Tensor [Fin 1; Fin 2; Fin 3; Fin 4; Fin 5; Fin 6; Fin 7; Fin 8] 1 8 8.
Definition ex_wide_labels : list Z := [5].

(** One row with logits of magnitude 1e4. *)
Definition ex_extreme_row : list R := [10000; -10000; 0; 5]%R.
Definition ex_extreme : tensor :=
  Tensor [Fin 10000; Fin (-10000); Fin 0; Fin 5] 1 4 4.
Definition ex_extreme_labels : list Z := [1].

(** One row with an infinite score. *)
Definition ex_inf_row : list fval := [Fin 1; PInf; Fin 0; Fin 2].
Definition ex_inf : tensor := Tensor [Fin 1; PInf; Fin 0; Fin 2] 1 4 4.


(** Two rows over a vocabulary of a single class. *)
Definition ex_single_rows : list (list R) := [[7]; [-2]]%R.
Definition ex_single : tensor := Tensor [Fin 7; Fin (-2)] 2 1 1.

(** An upstream gradient of 1 for every row (a scalar, expanded). *)
Definition ex_dlosses : grad_vector := GradVector [Fin 1] 0.
Definition ex_gs : list R := [1; 1]%R.

(** A block size function: the next power of two. *)
Definition ex_settings (n : Z) : Z := 2 ^ Z.log2_up n.

(** ** Real-number facts *)

Lemma Rsum_nil : Rsum [] = 0%R.
Proof. reflexivity. Qed.

Lemma Rsum_cons (x : R) (l : list R) : Rsum (x :: l) = (x + Rsum l)%R.
Proof. reflexivity. Qed.

Lemma Rsum_app (l1 l2 : list R) : Rsum (l1 ++ l2) = (Rsum l1 + Rsum l2)%R.
Proof.
  induction l1 as [|x l1 IH]; cbn [app].
  - rewrite Rsum_nil. lra.
  - rewrite !Rsum_cons, IH. lra.
Qed.

Lemma Rsum_exp_nonneg (l : list R) : (0 <= Rsum (exp <$> l))%R.
Proof.
  induction l as [|x l IH]; [rewrite fmap_nil, Rsum_nil; lra|].
  rewrite fmap_cons, Rsum_cons. pose proof (exp_pos x). lra.
Qed.

Lemma Rsum_exp_pos (l : list R) : l ≠ [] → (0 < Rsum (exp <$> l))%R.
Proof.
  destruct l as [|x l]; [done|]. intros _.
  rewrite fmap_cons, Rsum_cons.
  pose proof (exp_pos x). pose proof (Rsum_exp_nonneg l). lra.
Qed.

Lemma Rsum_scale (c : R) (l : list R) :
  Rsum ((λ x, x * c)%R <$> l) = (Rsum l * c)%R.
Proof.
  induction l as [|x l IH]; [rewrite fmap_nil, Rsum_nil; lra|].
  rewrite fmap_cons, !Rsum_cons, IH. lra.
Qed.

Lemma Rsum_exp_shift (c : R) (l : list R) :
  Rsum ((λ x, exp (x - c)) <$> l) = (Rsum (exp <$> l) * exp (- c))%R.
Proof.
  rewrite <- Rsum_scale, <- list_fmap_compose.
  f_equal. apply list_fmap_ext. intros _ x _. simpl.
  rewrite <- exp_plus. reflexivity.
Qed.

(** Subtracting any constant before exponentiating leaves the log-sum-exp
    unchanged. *)
Lemma shifted_lse_eq (c : R) (l : list R) : l ≠ [] → shifted_lse c l = LSE l.
Proof.
  intros Hl. unfold shifted_lse, LSE. rewrite Rsum_exp_shift.
  rewrite ln_mult by (auto using Rsum_exp_pos, exp_pos).
  rewrite ln_exp. lra.
Qed.

Lemma exp_LSE (l : list R) : l ≠ [] → exp (LSE l) = Rsum (exp <$> l).
Proof. intros Hl. unfold LSE. apply exp_ln, Rsum_exp_pos, Hl. Qed.

Lemma Rsum_exp_shift_pos (c : R) (l : list R) :
  l ≠ [] → (0 < Rsum ((λ x, exp (x - c)) <$> l))%R.
Proof.
  intros Hl. rewrite Rsum_exp_shift.
  apply Rmult_lt_0_compat; [apply Rsum_exp_pos, Hl | apply exp_pos].
Qed.

(** ** The maximum bounds every exponent *)

Lemma Rmax_list_spec (l : list R) :
  l ≠ [] → Rmax_list l ∈ l ∧ ∀ x, x ∈ l → (x <= Rmax_list l)%R.
Proof.
  induction l as [|x l IH]; [done|]. intros _.
  destruct l as [|y l].
  - split; [apply list_elem_of_here|].
    intros z Hz%list_elem_of_singleton. subst. simpl. lra.
  - destruct (IH ltac:(done)) as [Hin Hle].
    change (Rmax_list (x :: y :: l)) with (Rmax x (Rmax_list (y :: l))).
    split.
    + unfold Rmax. destruct (Rle_dec x (Rmax_list (y :: l))).
      * by apply list_elem_of_further.
      * apply list_elem_of_here.
    + intros z [->|Hz]%elem_of_cons.
      * apply Rmax_l.
      * etransitivity; [by apply Hle|apply Rmax_r].
Qed.

Lemma shifted_exponent_nonpos (l : list R) (x : R) :
  x ∈ l → (x - Rmax_list l <= 0)%R.
Proof.
  intros Hx. assert (Hne : l ≠ []) by (intros ->; by apply elem_of_nil in Hx).
  destruct (Rmax_list_spec l Hne) as [_ Hle]. specialize (Hle x Hx). lra.
Qed.

Lemma LSE_ge (l : list R) (x : R) : x ∈ l → (x <= LSE l)%R.
Proof.
  intros Hx. assert (Hne : l ≠ []) by (intros ->; by apply elem_of_nil in Hx).
  rewrite <- (ln_exp x). unfold LSE.
  assert (Hle : (exp x <= Rsum (exp <$> l))%R).
  { clear Hne. induction l as [|y l IH]; [by apply elem_of_nil in Hx|].
    rewrite fmap_cons, Rsum_cons.
    apply elem_of_cons in Hx as [->|Hx].
    - pose proof (Rsum_exp_nonneg l). lra.
    - pose proof (exp_pos y). specialize (IH Hx). lra. }
  destruct Hle as [Hlt|Heq].
  - left. apply ln_increasing; [apply exp_pos|done].
  - right. by rewrite Heq.
Qed.

(** ** Proof helpers *)

(** [lookup_at l i as x Hx]: the element [x] of [l] at an index [i] that
    [lia] shows to be within the list. *)
Tactic Notation "lookup_at" constr(l) constr(i) "as" ident(x) ident(Hx) :=
  let Hlt := fresh "Hlt" in
  assert (Hlt : (i < length l)%nat) by lia;
  destruct (lookup_lt_is_Some_2 l i Hlt) as [x Hx];
  clear Hlt.

(** ** Arithmetic on extended values *)

Lemma exp_overflow_pos : (0 < exp_overflow)%R.
Proof. unfold exp_overflow. lra. Qed.

Lemma fexp_fin (r : R) : (r <= exp_overflow)%R → fexp (Fin r) = Fin (exp r).
Proof.
  intros Hr. unfold fexp. destruct (Rle_dec r exp_overflow); [reflexivity|done].
Qed.

Lemma fexp_sub_fin (x c : R) :
  (x - c <= exp_overflow)%R → fexp (fsub (Fin x) (Fin c)) = Fin (exp (x - c)).
Proof. intros H. change (fsub (Fin x) (Fin c)) with (Fin (x - c)). by apply fexp_fin. Qed.

Lemma fexp_shifted (l : list R) (i : nat) (x : R) :
  l !! i = Some x →
  fexp (fsub (Fin x) (Fin (Rmax_list l))) = Fin (exp (x - Rmax_list l)).
Proof.
  intros Hx%list_elem_of_lookup_2. apply fexp_sub_fin.
  pose proof (shifted_exponent_nonpos l x Hx). pose proof exp_overflow_pos. lra.
Qed.

Lemma fadd_comm (x y : fval) : fadd x y = fadd y x.
Proof. destruct x, y; simpl; try reflexivity. f_equal. lra. Qed.

Lemma flog_pos (r : R) : (0 < r)%R → flog (Fin r) = Fin (ln r).
Proof.
  intros Hr. unfold flog.
  destruct (total_order_T 0 r) as [[H|H]|H]; [reflexivity|lra|lra].
Qed.

Lemma tl_sum_fin (l : list R) : tl_sum (Fin <$> l) = Fin (Rsum l).
Proof.
  induction l as [|x l IH]; [reflexivity|].
  rewrite fmap_cons, Rsum_cons. unfold tl_sum in *. simpl. rewrite IH.
  reflexivity.
Qed.

Lemma tl_sum_zeros (n : nat) : tl_sum (replicate n (Fin 0)) = Fin 0.
Proof.
  induction n as [|n IH]; [reflexivity|].
  unfold tl_sum in *. simpl. rewrite IH. simpl. f_equal. lra.
Qed.

Lemma tl_sum_app_zeros (l : list fval) (n : nat) :
  tl_sum (l ++ replicate n (Fin 0)) = tl_sum l.
Proof.
  unfold tl_sum. rewrite foldr_app. fold (tl_sum (replicate n (Fin 0))).
  rewrite tl_sum_zeros. reflexivity.
Qed.

Lemma tl_max_pad (l : list fval) (n : nat) :
  tl_max (l ++ replicate n NInf) = tl_max l.
Proof.
  unfold tl_max. rewrite foldr_app. f_equal.
  induction n as [|n IH]; [reflexivity|]. simpl. rewrite IH. reflexivity.
Qed.

Lemma tl_max_fin (l : list R) : l ≠ [] → tl_max (Fin <$> l) = Fin (Rmax_list l).
Proof.
  induction l as [|x l IH]; [done|]. intros _.
  destruct l as [|y l]; [reflexivity|].
  rewrite fmap_cons. unfold tl_max in *. cbn [foldr].
  rewrite IH by done. reflexivity.
Qed.

(** On a block of finite values padded with -inf, the stabilised
    log-sum-exp is the shifted form over the finite values alone. *)
Lemma block_lse_fin (l : list R) (n : nat) :
  l ≠ [] →
  block_lse ((Fin <$> l) ++ replicate n NInf)
  = Fin (shifted_lse (Rmax_list l) l).
Proof.
  intros Hl. unfold block_lse. cbv zeta.
  rewrite tl_max_pad, tl_max_fin by done.
  rewrite !fmap_app, !fmap_replicate. simpl.
  rewrite <- !list_fmap_compose.
  replace (fexp ∘ (λ x, fsub x (Fin (Rmax_list l))) ∘ Fin <$> l)
    with (Fin <$> ((λ x, exp (x - Rmax_list l)) <$> l)).
  2:{ rewrite <- list_fmap_compose. apply list_fmap_ext. intros i x Hx.
      unfold compose. symmetry. by eapply fexp_shifted. }
  rewrite tl_sum_app_zeros, tl_sum_fin.
  rewrite flog_pos by (apply Rsum_exp_shift_pos, Hl).
  reflexivity.
Qed.

(** ** Reads, writes and masked loads *)

Lemma read_Some {A} (mem : list A) (i : nat) :
  read mem (Z.of_nat i) = mem !! i.
Proof.
  unfold read. rewrite decide_True by lia. rewrite Nat2Z.id. reflexivity.
Qed.

Lemma write_Some {A} (mem : list A) (a : Z) (v : A) :
  0 ≤ a < Z.of_nat (length mem) →
  write mem a v = Some (<[Z.to_nat a := v]> mem).
Proof. intros H. unfold write. rewrite decide_True by done. reflexivity. Qed.

Lemma row_of_read (mem : list fval) (base : Z) (row : list fval) (j : nat) (x : fval) :
  row_of mem base row → row !! j = Some x →
  read mem (base + Z.of_nat j) = Some x.
Proof.
  intros [Hb Hrow] Hj.
  assert (Hlt : (j < length row)%nat) by (eapply lookup_lt_Some; eauto).
  rewrite <- Hrow in Hj.
  rewrite lookup_take_lt, lookup_drop in Hj by done.
  unfold read. rewrite decide_True by lia.
  replace (Z.to_nat (base + Z.of_nat j)) with (Z.to_nat base + j)%nat by lia.
  exact Hj.
Qed.

Lemma length_chunk_le {A} (row : list A) (k BS : Z) :
  (length (chunk row k BS) ≤ Z.to_nat BS)%nat.
Proof. unfold chunk. rewrite length_take. lia. Qed.

Lemma length_block_lanes (row : list fval) (k BS : Z) :
  length (block_lanes row k BS) = Z.to_nat BS.
Proof.
  unfold block_lanes. rewrite length_app, length_replicate.
  pose proof (length_chunk_le row k BS). lia.
Qed.

Lemma chunk_lookup {A} (row : list A) (k BS : Z) (i : nat) :
  0 ≤ k → 0 ≤ BS → (Z.of_nat i < BS) →
  chunk row k BS !! i = row !! Z.to_nat (k * BS + Z.of_nat i).
Proof.
  intros Hk HBS Hi. unfold chunk.
  rewrite lookup_take_lt, lookup_drop by lia.
  f_equal. lia.
Qed.

Lemma zip_fmap_self {A B} (f : A → B) (l : list A) :
  zip l (f <$> l) = (λ x, (x, f x)) <$> l.
Proof.
  induction l as [|x l IH]; [reflexivity|].
  rewrite !fmap_cons. cbn [zip_with]. rewrite IH. reflexivity.
Qed.

(** A masked load of block [k] of a row returns the chunk padded with
    -inf; only the chunk itself has to be in the buffer. *)
Lemma tl_load_lanes (mem : list fval) (base : Z) (row : list fval) (k BS : Z) :
  (∀ (i : nat) x, chunk row k BS !! i = Some x →
     read mem (base + (k * BS + Z.of_nat i)) = Some x) →
  0 ≤ k → 0 ≤ BS →
  let col_offsets := (λ i, k * BS + i) <$> tl_arange 0 BS in
  tl_load mem base col_offsets
    ((λ c, bool_decide (c < Z.of_nat (length row))) <$> col_offsets) NInf
  = Some (block_lanes row k BS).
Proof.
  intros Hblock Hk HBS col_offsets. unfold tl_load.
  rewrite zip_fmap_self. apply mapM_Some.
  apply Forall2_same_length_lookup_2.
  { rewrite length_fmap. unfold col_offsets, tl_arange.
    rewrite length_fmap, length_seqZ, length_block_lanes. lia. }
  intros i [o m] y Hi Hy.
  rewrite list_lookup_fmap in Hi. unfold col_offsets, tl_arange in Hi.
  rewrite list_lookup_fmap in Hi.
  destruct (seqZ 0 (BS - 0) !! i) as [z|] eqn:Hz; [|done].
  apply lookup_seqZ in Hz as [-> Hlt]. simpl in Hi. inversion Hi; subst o m; clear Hi.
  simpl. unfold block_lanes in Hy.
  case_bool_decide as Hc.
  - assert (Hin : (Z.to_nat (k * BS + (0 + Z.of_nat i)) < length row)%nat) by lia.
    apply lookup_lt_is_Some_2 in Hin as [x Hx].
    assert (Hch : chunk row k BS !! i = Some x).
    { rewrite chunk_lookup by lia. rewrite <- Hx. reflexivity. }
    rewrite (lookup_app_l_Some _ _ _ _ Hch) in Hy. inversion Hy; subst y.
    rewrite Z.add_0_l. by apply Hblock.
  - assert (Hch : chunk row k BS !! i = None).
    { rewrite chunk_lookup by lia. apply lookup_ge_None. lia. }
    apply lookup_ge_None in Hch.
    rewrite lookup_app_r in Hy by done.
    apply lookup_replicate in Hy as [-> _]. reflexivity.
Qed.

Lemma row_of_chunk_read (mem : list fval) (base : Z) (row : list fval)
    (k BS : Z) (i : nat) (x : fval) :
  row_of mem base row → 0 ≤ k → 0 ≤ BS →
  chunk row k BS !! i = Some x →
  read mem (base + (k * BS + Z.of_nat i)) = Some x.
Proof.
  intros Hrow Hk HBS Hx.
  assert (Hi : Z.of_nat i < BS).
  { apply lookup_lt_Some in Hx. pose proof (length_chunk_le row k BS). lia. }
  rewrite chunk_lookup in Hx by lia.
  replace (k * BS + Z.of_nat i)
    with (Z.of_nat (Z.to_nat (k * BS + Z.of_nat i))) by lia.
  eapply row_of_read; eauto.
Qed.

Lemma tl_load_block (mem : list fval) (base : Z) (row : list fval) (k BS : Z) :
  row_of mem base row → 0 ≤ k → 0 ≤ BS →
  let col_offsets := (λ i, k * BS + i) <$> tl_arange 0 BS in
  tl_load mem base col_offsets
    ((λ c, bool_decide (c < Z.of_nat (length row))) <$> col_offsets) NInf
  = Some (block_lanes row k BS).
Proof.
  intros Hrow Hk HBS. apply tl_load_lanes; [|done|done].
  intros i x Hx. by eapply row_of_chunk_read.
Qed.

Lemma tl_load_block0 (mem : list fval) (base : Z) (row : list fval) (BS : Z) :
  row_of mem base row → 0 ≤ BS →
  tl_load mem base (tl_arange 0 BS)
    ((λ c, bool_decide (c < Z.of_nat (length row))) <$> tl_arange 0 BS) NInf
  = Some (block_lanes row 0 BS).
Proof.
  intros Hrow HBS.
  pose proof (tl_load_block mem base row 0 BS Hrow (Z.le_refl 0) HBS) as H.
  cbv zeta in H.
  replace ((λ i, 0 * BS + i) <$> tl_arange 0 BS) with (tl_arange 0 BS) in H.
  - exact H.
  - rewrite <- (list_fmap_id (tl_arange 0 BS)) at 1.
    apply list_fmap_ext. intros _ x _. simpl. lia.
Qed.

(** ** One program of each forward kernel *)

Lemma cross_entropy_forward_run (mem : list fval) (stride : Z)
    (loss lse : list fval) (labels : list Z) (BS r : Z) (row : list fval)
    (label : Z) :
  0 ≤ r → 0 ≤ BS →
  row_of mem (r * stride) row →
  read labels r = Some label →
  r < Z.of_nat (length loss) → r < Z.of_nat (length lse) →
  _cross_entropy_forward mem stride loss lse labels (Z.of_nat (length row)) BS r
  = (loss_v ← (if decide (to_int32 label ≠ -100)
               then x ← read mem (r * stride + to_int32 label);
                    Some (fsub (block_lse (block_lanes row 0 BS)) x)
               else Some (Fin 0));
     Some (<[Z.to_nat r := loss_v]> loss,
           <[Z.to_nat r := block_lse (block_lanes row 0 BS)]> lse)).
Proof.
  intros Hr HBS Hrow Hlabel Hloss Hlse.
  unfold _cross_entropy_forward. cbv zeta.
  rewrite Hlabel. cbn [mbind option_bind].
  rewrite tl_load_block0 by done. cbn [mbind option_bind].
  fold (block_lse (block_lanes row 0 BS)).
  destruct (decide (to_int32 label ≠ -100)) as [Hne|Heq].
  - destruct (read mem (r * stride + to_int32 label)) as [x|];
      cbn [mbind option_bind]; [|reflexivity].
    rewrite !write_Some by lia. reflexivity.
  - cbn [mbind option_bind]. rewrite !write_Some by lia. reflexivity.
Qed.

Lemma large_cross_entropy_forward_run (mem : list fval) (stride : Z)
    (loss lse : list fval) (labels : list Z) (n_rows BS r k : Z)
    (row : list fval) (label : Z) :
  0 ≤ r → 0 ≤ k → 0 ≤ BS → 0 ≤ n_rows →
  row_of mem (r * stride) row →
  read labels r = Some label →
  r + k * n_rows < Z.of_nat (length loss) →
  r + k * n_rows < Z.of_nat (length lse) →
  _large_cross_entropy_forward mem stride loss lse labels n_rows
    (Z.of_nat (length row)) BS r k
  = (loss_v ← (if decide (label ≠ -100)
               then if decide (label >= (k + 0) * BS
                               ∧ label < Z.min ((k + 1) * BS) (Z.of_nat (length row)))
                    then x ← read mem (r * stride + label);
                         Some (fsub (Fin 0) x)
                    else Some (Fin 0)
               else Some (Fin 0));
     Some (<[Z.to_nat (r + k * n_rows) := loss_v]> loss,
           <[Z.to_nat (r + k * n_rows) := block_lse (block_lanes row k BS)]> lse)).
Proof.
  intros Hr Hk HBS Hn Hrow Hlabel Hloss Hlse.
  unfold _large_cross_entropy_forward. cbv zeta.
  rewrite Hlabel. cbn [mbind option_bind].
  rewrite tl_load_block by done. cbn [mbind option_bind].
  rewrite (fadd_comm _ (tl_max (block_lanes row k BS))).
  fold (block_lse (block_lanes row k BS)).
  assert (0 ≤ k * n_rows) by lia.
  rewrite write_Some by lia. cbn [mbind option_bind].
  destruct (decide (label ≠ -100)) as [Hne|Heq].
  - destruct (decide _) as [Hin|Hout].
    + destruct (read mem (r * stride + label)) as [x|];
        cbn [mbind option_bind]; [|reflexivity].
      rewrite write_Some by lia. reflexivity.
    + cbn [mbind option_bind]. rewrite write_Some by lia. reflexivity.
  - cbn [mbind option_bind]. rewrite write_Some by lia. reflexivity.
Qed.

(** ** Launches whose programs store into their own slots *)

Lemma length_write_all {P} (slot : P → nat) (v : P → fval) (grid : list P)
    (buf : list fval) :
  length (write_all slot v grid buf) = length buf.
Proof.
  revert buf. induction grid as [|p grid IH]; intros buf; [reflexivity|].
  unfold write_all in *. simpl. rewrite IH, length_insert. reflexivity.
Qed.

Lemma write_all_lookup_ne {P} (slot : P → nat) (v : P → fval) (grid : list P)
    (buf : list fval) (i : nat) :
  i ∉ slot <$> grid → write_all slot v grid buf !! i = buf !! i.
Proof.
  revert buf. induction grid as [|p grid IH]; intros buf Hi; [reflexivity|].
  rewrite fmap_cons in Hi. apply not_elem_of_cons in Hi as [Hne Hi].
  unfold write_all in *. simpl. rewrite IH by done.
  apply list_lookup_insert_ne. congruence.
Qed.

Lemma write_all_lookup {P} (slot : P → nat) (v : P → fval) (grid : list P)
    (buf : list fval) (p : P) :
  NoDup (slot <$> grid) → p ∈ grid → (slot p < length buf)%nat →
  write_all slot v grid buf !! slot p = Some (v p).
Proof.
  revert buf. induction grid as [|q grid IH]; intros buf Hnd Hp Hlen.
  - by apply elem_of_nil in Hp.
  - rewrite fmap_cons in Hnd. apply list.NoDup_cons in Hnd as [Hq Hnd].
    unfold write_all in *. simpl.
    destruct (decide (slot p ∈ slot <$> grid)) as [Hin|Hnin].
    + apply list_elem_of_fmap in Hin as (p' & Heq & Hp').
      rewrite Heq.
      apply elem_of_cons in Hp as [->|Hp].
      * exfalso. apply Hq. rewrite Heq. apply list_elem_of_fmap. eauto.
      * rewrite <- Heq. apply IH; [done|done|]. by rewrite length_insert.
    + apply elem_of_cons in Hp as [->|Hp].
      * fold (write_all slot v grid (<[slot q := v q]> buf)).
        rewrite write_all_lookup_ne by done.
        by apply list_lookup_insert_eq.
      * exfalso. apply Hnin. apply list_elem_of_fmap. eauto.
Qed.

Lemma launch_writes {P} (k : P → list fval * list fval → option (list fval * list fval))
    (slot : P → nat) (va vb : P → fval) (grid : list P) (s : list fval * list fval) :
  (∀ p s', p ∈ grid →
     length s'.1 = length s.1 → length s'.2 = length s.2 →
     k p s' = Some (<[slot p := va p]> s'.1, <[slot p := vb p]> s'.2)) →
  launch k grid s
  = Some (write_all slot va grid s.1, write_all slot vb grid s.2).
Proof.
  revert s. induction grid as [|p grid IH]; intros s Hk.
  - destruct s. reflexivity.
  - simpl. rewrite Hk by (done || apply list_elem_of_here).
    cbn [mbind option_bind]. rewrite IH; [reflexivity|].
    intros q s' Hq H1 H2. simpl in H1, H2. rewrite !length_insert in *.
    apply Hk; [by apply list_elem_of_further|done|done].
Qed.

Lemma write_all_rows {A} (v : Z → fval) (f : A → fval) (l : list A)
    (buf : list fval) :
  length buf = length l →
  (∀ i x, l !! i = Some x → v (Z.of_nat i) = f x) →
  write_all Z.to_nat v (seqZ 0 (Z.of_nat (length l))) buf = f <$> l.
Proof.
  intros Hlen Hv. apply list_eq. intros i.
  rewrite list_lookup_fmap.
  destruct (l !! i) as [x|] eqn:Hx; simpl.
  - assert (Hi : (i < length l)%nat) by (eapply lookup_lt_Some; eauto).
    rewrite <- (Hv i x Hx).
    replace i with (Z.to_nat (Z.of_nat i)) at 1 by lia.
    apply (write_all_lookup Z.to_nat v).
    + apply NoDup_fmap_2_strong; [|apply NoDup_seqZ].
      intros x1 x2 H1%elem_of_seqZ H2%elem_of_seqZ. lia.
    + apply elem_of_seqZ. lia.
    + lia.
  - apply lookup_ge_None. rewrite length_write_all.
    apply lookup_ge_None in Hx. lia.
Qed.

Lemma to_int32_id (z : Z) : - 2 ^ 31 ≤ z < 2 ^ 31 → to_int32 z = z.
Proof.
  intros H. unfold to_int32. rewrite Z.mod_small by lia. lia.
Qed.

Lemma read_row_label (mem : list fval) (base : Z) (row : list fval) (label : Z) :
  row_of mem base row → 0 ≤ label < Z.of_nat (length row) →
  read mem (base + label) = Some (default NaN (read row label)).
Proof.
  intros Hrow Hl.
  assert (Hlt : (Z.to_nat label < length row)%nat) by lia.
  apply lookup_lt_is_Some_2 in Hlt as [x Hx].
  replace label with (Z.of_nat (Z.to_nat label)) by lia.
  rewrite (row_of_read _ _ _ _ _ Hrow Hx), read_Some, Hx. reflexivity.
Qed.

Lemma tensor_rows_row (t : tensor) (rows : list (list fval)) (r : nat)
    (row : list fval) :
  tensor_rows t rows → rows !! r = Some row →
  Z.of_nat (length row) = shape1 t
  ∧ row_of (data t) (Z.of_nat r * stride0 t) row.
Proof. intros (_ & _ & _ & H) Hr. by apply H. Qed.

(** ** The single-pass branch on arbitrary values *)

Lemma forward_fused_run (BS : Z) (t : tensor) (rows : list (list fval))
    (labels : list Z) :
  tensor_rows t rows → length labels = length rows →
  Forall (valid_label (shape1 t)) labels →
  shape1 t ≤ 2 ^ 31 → 0 ≤ BS →
  forward_fused BS t labels
  = Some (uncurry (fused_loss BS) <$> zip rows labels,
          (λ row, block_lse (block_lanes row 0 BS)) <$> rows).
Proof.
  intros Ht Hlen Hlab HV HBS.
  pose proof Ht as (Hn & HV0 & Hs & _).
  unfold forward_fused. cbv zeta.
  rewrite (launch_writes _ Z.to_nat
             (λ r, fused_loss BS (rows !!! Z.to_nat r) (labels !!! Z.to_nat r))
             (λ r, block_lse (block_lanes (rows !!! Z.to_nat r) 0 BS))).
  - cbn [fst snd]. rewrite <- Hn. f_equal. f_equal.
    + rewrite <- (length_zip_with_l_eq pair rows labels) by lia.
      apply write_all_rows.
      * unfold torch_empty. rewrite length_replicate, length_zip_with. lia.
      * intros i [row l] [Hrow Hl]%lookup_zip_Some.
        rewrite Nat2Z.id. rewrite (list_lookup_total_correct _ _ _ Hrow).
        rewrite (list_lookup_total_correct _ _ _ Hl). reflexivity.
    + apply write_all_rows.
      * unfold torch_empty. rewrite length_replicate. lia.
      * intros i row Hrow. rewrite Nat2Z.id.
        rewrite (list_lookup_total_correct _ _ _ Hrow). reflexivity.
  - intros r s' Hr%elem_of_seqZ H1 H2. cbn [fst snd] in *.
    unfold torch_empty in H1, H2. rewrite length_replicate in H1, H2.
    lookup_at rows (Z.to_nat r) as row Hrow.
    lookup_at labels (Z.to_nat r) as label Hlabel.
    destruct (tensor_rows_row _ _ _ _ Ht Hrow) as [HlenV Hrowof].
    rewrite Z2Nat.id in Hrowof by lia.
    rewrite <- HlenV.
    rewrite (cross_entropy_forward_run _ _ _ _ _ _ _ row label); try lia; try done.
    2:{ replace r with (Z.of_nat (Z.to_nat r)) by lia. by rewrite read_Some. }
    rewrite (list_lookup_total_correct _ _ _ Hrow).
    rewrite (list_lookup_total_correct _ _ _ Hlabel).
    assert (Hvalid : valid_label (shape1 t) label).
    { eapply Forall_lookup_1; eauto. }
    unfold fused_loss.
    destruct Hvalid as [->|Hrange].
    + rewrite to_int32_id by lia. rewrite decide_False by (intros H; by apply H).
      rewrite decide_True by done. reflexivity.
    + rewrite to_int32_id by lia. rewrite decide_True by lia.
      rewrite decide_False by lia.
      rewrite (read_row_label _ _ row) by (done || lia). reflexivity.
Qed.

(** ** The chunked branch on arbitrary values *)

Lemma elem_of_grid2 (n m r k : Z) :
  (r, k) ∈ grid2 n m ↔ (0 ≤ r < n) ∧ (0 ≤ k < m).
Proof.
  unfold grid2. rewrite list_elem_of_bind. split.
  - intros (r' & Hin & Hr'). apply list_elem_of_fmap in Hin as (k' & Heq & Hk').
    inversion Heq; subst. apply elem_of_seqZ in Hr', Hk'. lia.
  - intros [Hr Hk]. exists r. split; [|apply elem_of_seqZ; lia].
    apply list_elem_of_fmap. exists k. split; [done|apply elem_of_seqZ; lia].
Qed.

Lemma NoDup_grid2 (n m : Z) : NoDup (grid2 n m).
Proof.
  unfold grid2. apply NoDup_bind; [| |apply NoDup_seqZ].
  - intros r1 r2 [r k] _ _ H1 H2.
    apply list_elem_of_fmap in H1 as (? & H1 & _).
    apply list_elem_of_fmap in H2 as (? & H2 & _). congruence.
  - intros r _. apply NoDup_fmap_2; [|apply NoDup_seqZ].
    intros k1 k2 H. congruence.
Qed.

Lemma NoDup_partial_slots (n m : Z) : NoDup (partial_slot n <$> grid2 n m).
Proof.
  apply NoDup_fmap_2_strong; [|apply NoDup_grid2].
  intros [r1 k1] [r2 k2] [H1 H1']%elem_of_grid2 [H2 H2']%elem_of_grid2 Heq.
  unfold partial_slot in Heq. cbn [fst snd] in Heq.
  assert (Heq' : r1 + k1 * n = r2 + k2 * n) by nia.
  assert (k1 = k2) by nia. subst k2.
  f_equal. lia.
Qed.

Lemma column_write_all (n m : Z) (v : Z * Z → fval) (buf : list fval) (r : Z) :
  Z.of_nat (length buf) = m * n → 0 ≤ r < n →
  column (write_all (partial_slot n) v (grid2 n m) buf) n m r
  = (λ k, v (r, k)) <$> seqZ 0 m.
Proof.
  intros Hlen Hr. unfold column.
  apply list_fmap_ext. intros _ k Hk%list_elem_of_lookup_2%elem_of_seqZ.
  unfold read. rewrite decide_True by nia.
  change (Z.to_nat (r + k * n)) with (partial_slot n (r, k)).
  rewrite (write_all_lookup (partial_slot n) v).
  - reflexivity.
  - apply NoDup_partial_slots.
  - apply elem_of_grid2. lia.
  - unfold partial_slot. cbn [fst snd]. nia.
Qed.

Lemma chunked_partials_run (BS n_chunks : Z) (t : tensor)
    (rows : list (list fval)) (labels : list Z) :
  tensor_rows t rows → length labels = length rows →
  0 ≤ BS → 0 ≤ n_chunks →
  chunked_partials BS n_chunks t labels
  = Some (write_all (partial_slot (shape0 t))
            (λ p, partial_loss BS p.2 (rows !!! Z.to_nat p.1) (labels !!! Z.to_nat p.1))
            (grid2 (shape0 t) n_chunks) (torch_empty (n_chunks * shape0 t)),
          write_all (partial_slot (shape0 t))
            (λ p, block_lse (block_lanes (rows !!! Z.to_nat p.1) p.2 BS))
            (grid2 (shape0 t) n_chunks) (torch_empty (n_chunks * shape0 t))).
Proof.
  intros Ht Hlen HBS Hnc.
  pose proof Ht as (Hn & HV0 & Hs & _).
  unfold chunked_partials. cbv zeta.
  apply (launch_writes _ (partial_slot (shape0 t))
           (λ p, partial_loss BS p.2 (rows !!! Z.to_nat p.1) (labels !!! Z.to_nat p.1))
           (λ p, block_lse (block_lanes (rows !!! Z.to_nat p.1) p.2 BS))).
  intros [r k] s' [Hr Hk]%elem_of_grid2 H1 H2. cbn [fst snd] in *.
  unfold torch_empty in H1, H2. rewrite length_replicate in H1, H2.
  lookup_at rows (Z.to_nat r) as row Hrow.
  lookup_at labels (Z.to_nat r) as label Hlabel.
  destruct (tensor_rows_row _ _ _ _ Ht Hrow) as [HlenV Hrowof].
  rewrite Z2Nat.id in Hrowof by lia.
  rewrite <- HlenV.
  rewrite (large_cross_entropy_forward_run _ _ _ _ _ _ _ _ _ row label);
    try lia; try done; try nia.
  2:{ replace r with (Z.of_nat (Z.to_nat r)) by lia. by rewrite read_Some. }
  rewrite (list_lookup_total_correct _ _ _ Hrow).
  rewrite (list_lookup_total_correct _ _ _ Hlabel).
  unfold partial_slot, partial_loss. cbn [fst snd].
  destruct (decide (label ≠ -100)) as [Hne|Heq].
  - destruct (decide (label >= (k + 0) * BS ∧ _)) as [Hin|Hout].
    + rewrite decide_True by (split; [done|lia]).
      rewrite (read_row_label _ _ row) by (done || nia). reflexivity.
    + rewrite decide_False by (intros [_ ?]; apply Hout; lia). reflexivity.
  - rewrite decide_False by (intros [? _]; done). reflexivity.
Qed.

Lemma fmap_seqZ_rows {A B} `{!Inhabited A} (f : A → B) (l : list A) :
  (λ r, f (l !!! Z.to_nat r)) <$> seqZ 0 (Z.of_nat (length l)) = f <$> l.
Proof.
  apply list_eq. intros i. rewrite !list_lookup_fmap.
  destruct (l !! i) as [x|] eqn:Hx; simpl.
  - assert (Hi : (i < length l)%nat) by (eapply lookup_lt_Some; eauto).
    rewrite lookup_seqZ_lt by lia. simpl.
    replace (Z.to_nat (0 + Z.of_nat i)) with i by lia.
    by rewrite (list_lookup_total_correct _ _ _ Hx).
  - apply lookup_ge_None in Hx. rewrite lookup_seqZ_ge by lia. reflexivity.
Qed.

Lemma forward_chunked_run (BS n_chunks : Z) (t : tensor)
    (rows : list (list fval)) (labels : list Z) :
  tensor_rows t rows → length labels = length rows →
  0 ≤ BS → 0 ≤ n_chunks →
  forward_chunked BS n_chunks t labels
  = Some (uncurry (chunked_loss BS n_chunks) <$> zip rows labels,
          chunked_lse BS n_chunks <$> rows).
Proof.
  intros Ht Hlen HBS Hnc.
  pose proof Ht as (Hn & HV0 & Hs & _).
  unfold forward_chunked.
  rewrite (chunked_partials_run _ _ _ rows) by done.
  cbn [mbind option_bind]. unfold chunked_combine. f_equal.
  assert (Hlse :
    (λ r, torch_logsumexp
            (column (write_all (partial_slot (shape0 t))
                       (λ p, block_lse (block_lanes (rows !!! Z.to_nat p.1) p.2 BS))
                       (grid2 (shape0 t) n_chunks)
                       (torch_empty (n_chunks * shape0 t)))
               (shape0 t) n_chunks r)) <$> seqZ 0 (shape0 t)
    = chunked_lse BS n_chunks <$> rows).
  { rewrite <- (fmap_seqZ_rows (chunked_lse BS n_chunks) rows), Hn.
    apply list_fmap_ext. intros _ r Hr%list_elem_of_lookup_2%elem_of_seqZ.
    rewrite column_write_all; [reflexivity| |lia].
    unfold torch_empty. rewrite length_replicate. nia. }
  rewrite Hlse. f_equal.
  apply list_eq. intros i.
  rewrite lookup_zip_with, list_lookup_fmap, lookup_zip_with.
  rewrite lookup_zip_with, !list_lookup_fmap.
  destruct (labels !! i) as [label|] eqn:Hlabel; simpl.
  2:{ destruct (rows !! i); reflexivity. }
  assert (Hi : (i < length rows)%nat).
  { apply lookup_lt_Some in Hlabel. lia. }
  destruct (lookup_lt_is_Some_2 _ _ Hi) as [row Hrow]. rewrite Hrow. simpl.
  rewrite lookup_seqZ_lt by lia. simpl.
  unfold chunked_loss. destruct (decide (label = -100)); [reflexivity|].
  rewrite column_write_all.
  - cbn [fst snd].
    replace (Z.to_nat (0 + Z.of_nat i)) with i by lia.
    rewrite (list_lookup_total_correct _ _ _ Hrow).
    rewrite (list_lookup_total_correct _ _ _ Hlabel). reflexivity.
  - unfold torch_empty. rewrite length_replicate. nia.
  - lia.
Qed.

(** ** Blocks of finite values *)

Lemma chunk_fmap {A B} (f : A → B) (row : list A) (k BS : Z) :
  chunk (f <$> row) k BS = f <$> chunk row k BS.
Proof. unfold chunk. by rewrite fmap_take, fmap_drop. Qed.

Lemma chunk_whole {A} (row : list A) (BS : Z) :
  Z.of_nat (length row) ≤ BS → chunk row 0 BS = row.
Proof.
  intros H. unfold chunk. simpl. rewrite drop_0. apply take_ge. lia.
Qed.

Lemma chunk_nonempty {A} (row : list A) (k BS : Z) :
  0 ≤ k → 0 < BS → k * BS < Z.of_nat (length row) → chunk row k BS ≠ [].
Proof.
  intros Hk HBS Hlt Hnil. apply (f_equal length) in Hnil.
  unfold chunk in Hnil. rewrite length_take, length_drop in Hnil.
  simpl in Hnil. lia.
Qed.

Lemma block_lse_chunk (row : list R) (k BS : Z) :
  chunk row k BS ≠ [] →
  block_lse (block_lanes (Fin <$> row) k BS)
  = Fin (shifted_lse (Rmax_list (chunk row k BS)) (chunk row k BS)).
Proof.
  intros Hne. unfold block_lanes. rewrite chunk_fmap.
  by apply block_lse_fin.
Qed.

Lemma read_fmap {A B} (f : A → B) (l : list A) (a : Z) :
  read (f <$> l) a = f <$> read l a.
Proof.
  unfold read. destruct (decide (0 ≤ a)); [|reflexivity].
  apply list_lookup_fmap.
Qed.

Lemma read_fin_row (row : list R) (label : Z) :
  0 ≤ label < Z.of_nat (length row) →
  default NaN (read (Fin <$> row) label) = Fin (row_at row label).
Proof.
  intros H. unfold row_at. rewrite read_fmap.
  unfold read. rewrite decide_True by lia.
  assert (Hlt : (Z.to_nat label < length row)%nat) by lia.
  apply lookup_lt_is_Some_2 in Hlt as [x ->]. reflexivity.
Qed.

(** ** The torch reductions on finite values *)

Lemma torch_sum_fin (l : list R) : torch_sum (Fin <$> l) = Fin (Rsum l).
Proof. apply tl_sum_fin. Qed.

Lemma torch_amax_fin (l : list R) :
  l ≠ [] → torch_amax (Fin <$> l) = Fin (Rmax_list l).
Proof.
  induction l as [|x l IH]; [done|]. intros _.
  destruct l as [|y l]; [reflexivity|].
  rewrite fmap_cons. unfold torch_amax in *. cbn [foldr].
  rewrite IH by done. reflexivity.
Qed.

Lemma torch_logsumexp_fin (l : list R) :
  l ≠ [] → torch_logsumexp (Fin <$> l) = Fin (LSE l).
Proof.
  intros Hl. unfold torch_logsumexp. rewrite torch_amax_fin by done.
  cbv zeta. rewrite <- !list_fmap_compose.
  replace (fexp ∘ (λ x, fsub x (Fin (Rmax_list l))) ∘ Fin <$> l)
    with (Fin <$> ((λ x, exp (x - Rmax_list l)) <$> l)).
  2:{ rewrite <- list_fmap_compose. apply list_fmap_ext. intros i x Hx.
      unfold compose. symmetry. by eapply fexp_shifted. }
  rewrite tl_sum_fin, flog_pos by (apply Rsum_exp_shift_pos, Hl).
  simpl. f_equal. rewrite <- (shifted_lse_eq (Rmax_list l)) by done.
  unfold shifted_lse. lra.
Qed.

(** ** Chunks partition a row *)

Lemma chunk_count_bounds (V BS : Z) :
  0 < V → 0 < BS →
  1 ≤ chunk_count V BS
  ∧ (chunk_count V BS - 1) * BS < V ≤ chunk_count V BS * BS.
Proof.
  intros HV HBS. unfold chunk_count.
  pose proof (Z.div_mod V BS ltac:(lia)) as Hdm.
  pose proof (Z.mod_pos_bound V BS HBS) as Hmod.
  destruct (decide (V `mod` BS ≠ 0)) as [Hne|Heq]; nia.
Qed.

Lemma chunks_join {A} (row : list A) (BS : Z) (n : nat) :
  0 ≤ BS →
  mjoin ((λ k, chunk row k BS) <$> seqZ 0 (Z.of_nat n))
  = take (Z.to_nat (Z.of_nat n * BS)) row.
Proof.
  intros HBS. induction n as [|n IH]; [reflexivity|].
  rewrite seqZ_S, fmap_app, join_app, IH. simpl. rewrite app_nil_r.
  unfold chunk. rewrite Z.add_0_l, take_take_drop. f_equal. lia.
Qed.

Lemma chunks_cover {A} (row : list A) (BS n : Z) :
  0 ≤ BS → 0 ≤ n → Z.of_nat (length row) ≤ n * BS →
  mjoin ((λ k, chunk row k BS) <$> seqZ 0 n) = row.
Proof.
  intros HBS Hn Hlen.
  replace n with (Z.of_nat (Z.to_nat n)) by lia.
  rewrite chunks_join by done. apply take_ge. lia.
Qed.

Lemma fmap_join {A B} (f : A → B) (ls : list (list A)) :
  f <$> mjoin ls = mjoin (fmap f <$> ls).
Proof.
  induction ls as [|l ls IH]; [reflexivity|].
  change (mjoin (l :: ls)) with (l ++ mjoin ls).
  rewrite fmap_app, IH. reflexivity.
Qed.

Lemma Rsum_join (ls : list (list R)) : Rsum (mjoin ls) = Rsum (Rsum <$> ls).
Proof.
  induction ls as [|l ls IH]; [reflexivity|].
  change (mjoin (l :: ls)) with (l ++ mjoin ls).
  rewrite Rsum_app, fmap_cons, Rsum_cons, IH. reflexivity.
Qed.

(** The log-sum-exp of the log-sum-exps of the chunks is the log-sum-exp
    of the row. *)
Lemma LSE_chunks (row : list R) (BS n : Z) :
  0 < BS → 0 ≤ n → (n - 1) * BS < Z.of_nat (length row) ≤ n * BS →
  LSE ((λ k, LSE (chunk row k BS)) <$> seqZ 0 n) = LSE row.
Proof.
  intros HBS Hn Hlen.
  assert (Hsum : Rsum (exp <$> ((λ k, LSE (chunk row k BS)) <$> seqZ 0 n))
                 = Rsum (exp <$> row)).
  { transitivity (Rsum (exp <$> mjoin ((λ k, chunk row k BS) <$> seqZ 0 n))).
    2:{ rewrite chunks_cover by lia. reflexivity. }
    rewrite fmap_join, Rsum_join, <- !list_fmap_compose.
    apply (f_equal Rsum). apply list_fmap_ext.
    intros _ k Hk%list_elem_of_lookup_2%elem_of_seqZ. simpl.
    apply exp_LSE, chunk_nonempty; nia. }
  unfold LSE at 1 3. rewrite Hsum. reflexivity.
Qed.

Lemma chunked_lse_fin (row : list R) (BS : Z) :
  0 < BS → row ≠ [] →
  chunked_lse BS (chunk_count (Z.of_nat (length row)) BS) (Fin <$> row)
  = Fin (LSE row).
Proof.
  intros HBS Hne.
  assert (HV : 0 < Z.of_nat (length row)) by (destruct row; simpl; [done|lia]).
  destruct (chunk_count_bounds _ _ HV HBS) as [Hn Hcover].
  set (n := chunk_count (Z.of_nat (length row)) BS) in *.
  unfold chunked_lse.
  replace ((λ k, block_lse (block_lanes (Fin <$> row) k BS)) <$> seqZ 0 n)
    with (Fin <$> ((λ k, LSE (chunk row k BS)) <$> seqZ 0 n)).
  - rewrite torch_logsumexp_fin.
    + f_equal. apply LSE_chunks; lia.
    + intros Hnil. apply (f_equal length) in Hnil.
      rewrite length_fmap, length_seqZ in Hnil. simpl in Hnil. lia.
  - rewrite <- list_fmap_compose. apply list_fmap_ext.
    intros _ k Hk%list_elem_of_lookup_2%elem_of_seqZ. simpl.
    assert (Hc : chunk row k BS ≠ []) by (apply chunk_nonempty; nia).
    rewrite block_lse_chunk by done. f_equal. symmetry.
    by apply shifted_lse_eq.
Qed.

(** ** Losses of rows of finite values *)

Lemma Rsum_indicator_out (l : list Z) (k0 : Z) (a : R) :
  k0 ∉ l → Rsum ((λ k, if decide (k = k0) then a else 0%R) <$> l) = 0%R.
Proof.
  induction l as [|k l IH]; intros Hk; [reflexivity|].
  apply not_elem_of_cons in Hk as [Hne Hk].
  rewrite fmap_cons, Rsum_cons, IH by done.
  rewrite decide_False by congruence. lra.
Qed.

Lemma Rsum_indicator (l : list Z) (k0 : Z) (a : R) :
  NoDup l → k0 ∈ l →
  Rsum ((λ k, if decide (k = k0) then a else 0%R) <$> l) = a.
Proof.
  induction l as [|k l IH]; intros Hnd Hk; [by apply elem_of_nil in Hk|].
  apply list.NoDup_cons in Hnd as [Hnotin Hnd].
  rewrite fmap_cons, Rsum_cons.
  apply elem_of_cons in Hk as [->|Hk].
  - rewrite decide_True by done. rewrite Rsum_indicator_out by done. lra.
  - rewrite decide_False by (intros ->; done). rewrite IH by done. lra.
Qed.

Lemma in_chunk_iff (label k BS V : Z) :
  0 < BS → 0 ≤ label < V →
  (label ≠ -100 ∧ k * BS ≤ label < Z.min ((k + 1) * BS) V)
  ↔ k = label `div` BS.
Proof.
  intros HBS Hl.
  pose proof (Z.div_mod label BS ltac:(lia)) as Hdm.
  pose proof (Z.mod_pos_bound label BS HBS) as Hmod.
  split.
  - intros [_ H]. nia.
  - intros ->. split; [lia|]. nia.
Qed.

Lemma partial_loss_fin (row : list R) (label k BS : Z) :
  0 < BS → 0 ≤ label < Z.of_nat (length row) →
  partial_loss BS k (Fin <$> row) label
  = Fin (if decide (k = label `div` BS) then (- row_at row label)%R else 0%R).
Proof.
  intros HBS Hl. unfold partial_loss. rewrite length_fmap.
  destruct (decide (k = label `div` BS)) as [Hk|Hk].
  - rewrite decide_True by (by apply in_chunk_iff).
    rewrite read_fin_row by done. simpl. f_equal. lra.
  - rewrite decide_False; [reflexivity|].
    intros H. apply Hk. by eapply in_chunk_iff.
Qed.

Lemma partial_sum_fin (row : list R) (label BS n : Z) :
  0 < BS → 0 ≤ label < Z.of_nat (length row) →
  Z.of_nat (length row) ≤ n * BS →
  torch_sum ((λ k, partial_loss BS k (Fin <$> row) label) <$> seqZ 0 n)
  = Fin (- row_at row label).
Proof.
  intros HBS Hl Hn.
  replace ((λ k, partial_loss BS k (Fin <$> row) label) <$> seqZ 0 n)
    with (Fin <$> ((λ k, if decide (k = label `div` BS)
                         then (- row_at row label)%R else 0%R) <$> seqZ 0 n)).
  - rewrite torch_sum_fin. f_equal.
    apply Rsum_indicator; [apply NoDup_seqZ|].
    apply elem_of_seqZ.
    pose proof (Z.div_mod label BS ltac:(lia)) as Hdm.
    pose proof (Z.mod_pos_bound label BS HBS) as Hmod. nia.
  - rewrite <- list_fmap_compose. apply list_fmap_ext. intros _ k _. simpl.
    symmetry. by apply partial_loss_fin.
Qed.

Lemma chunked_loss_fin (row : list R) (label BS : Z) :
  0 < BS → row ≠ [] → valid_label (Z.of_nat (length row)) label →
  chunked_loss BS (chunk_count (Z.of_nat (length row)) BS) (Fin <$> row) label
  = Fin (row_loss row label).
Proof.
  intros HBS Hne Hvalid. unfold chunked_loss, row_loss.
  destruct (decide (label = -100)) as [Heq|Hneq]; [reflexivity|].
  destruct Hvalid as [?|Hrange]; [done|].
  assert (HV : 0 < Z.of_nat (length row)) by lia.
  destruct (chunk_count_bounds _ _ HV HBS) as [Hn Hcover].
  rewrite partial_sum_fin, chunked_lse_fin by (done || lia).
  simpl. f_equal. lra.
Qed.

Lemma fused_loss_fin (row : list R) (label BS : Z) :
  row ≠ [] → Z.of_nat (length row) ≤ BS →
  valid_label (Z.of_nat (length row)) label →
  fused_loss BS (Fin <$> row) label = Fin (row_loss row label).
Proof.
  intros Hne HBS Hvalid. unfold fused_loss, row_loss.
  destruct (decide (label = -100)) as [Heq|Hneq]; [reflexivity|].
  destruct Hvalid as [?|Hrange]; [done|].
  rewrite block_lse_chunk; rewrite chunk_whole by done; [|done].
  rewrite read_fin_row by done. rewrite shifted_lse_eq by done.
  reflexivity.
Qed.

Lemma fused_lse_fin (row : list R) (BS : Z) :
  row ≠ [] → Z.of_nat (length row) ≤ BS →
  block_lse (block_lanes (Fin <$> row) 0 BS) = Fin (LSE row).
Proof.
  intros Hne HBS.
  rewrite block_lse_chunk; rewrite chunk_whole by done; [|done].
  by rewrite shifted_lse_eq.
Qed.

(** ** The two branches of [forward] on rows of finite values *)

Lemma fin_rows_length (t : tensor) (rrows : list (list R)) (i : nat)
    (row : list R) :
  tensor_rows t (fin_rows rrows) → rrows !! i = Some row →
  Z.of_nat (length row) = shape1 t.
Proof.
  intros Ht Hrow.
  assert (H : (fin_rows rrows) !! i = Some (Fin <$> row)).
  { unfold fin_rows. by rewrite list_lookup_fmap, Hrow. }
  apply (tensor_rows_row _ _ _ _ Ht) in H as [H _].
  by rewrite length_fmap in H.
Qed.

Lemma nonempty_of_length {A} (l : list A) : 0 < Z.of_nat (length l) → l ≠ [].
Proof. by destruct l; simpl; [lia|]. Qed.

Lemma losses_fin (f : list fval → Z → fval) (t : tensor)
    (rrows : list (list R)) (labels : list Z) :
  tensor_rows t (fin_rows rrows) →
  Forall (valid_label (shape1 t)) labels →
  (∀ row label, Z.of_nat (length row) = shape1 t →
     valid_label (shape1 t) label →
     f (Fin <$> row) label = Fin (row_loss row label)) →
  uncurry f <$> zip (fin_rows rrows) labels
  = Fin <$> zip_with row_loss rrows labels.
Proof.
  intros Ht Hlab Hf. apply list_eq. intros i. unfold fin_rows.
  rewrite !list_lookup_fmap, !lookup_zip_with, list_lookup_fmap.
  destruct (rrows !! i) as [row|] eqn:Hrow; [|reflexivity]. simpl.
  destruct (labels !! i) as [label|] eqn:Hlabel; [|reflexivity]. simpl.
  f_equal. apply Hf.
  - by eapply fin_rows_length.
  - eapply Forall_lookup_1; eauto.
Qed.

Lemma forward_fused_fin (BS : Z) (t : tensor) (rrows : list (list R))
    (labels : list Z) :
  tensor_rows t (fin_rows rrows) → length labels = length rrows →
  Forall (valid_label (shape1 t)) labels →
  0 < shape1 t ≤ BS → shape1 t ≤ 2 ^ 31 →
  forward_fused BS t labels
  = Some (Fin <$> zip_with row_loss rrows labels, Fin <$> (LSE <$> rrows)).
Proof.
  intros Ht Hlen Hlab HV H31.
  rewrite (forward_fused_run BS t (fin_rows rrows));
    [|done|by unfold fin_rows; rewrite length_fmap|done|done|lia].
  f_equal. f_equal.
  - apply (losses_fin _ t); [done|done|].
    intros row label Hrow Hvalid. rewrite <- Hrow in Hvalid.
    apply fused_loss_fin; [apply nonempty_of_length|..]; (done || lia).
  - unfold fin_rows. rewrite <- !list_fmap_compose. apply list_fmap_ext.
    intros i row Hrow. simpl.
    pose proof (fin_rows_length _ _ _ _ Ht Hrow).
    apply fused_lse_fin; [apply nonempty_of_length|]; lia.
Qed.

Lemma forward_chunked_fin (BS : Z) (t : tensor) (rrows : list (list R))
    (labels : list Z) :
  tensor_rows t (fin_rows rrows) → length labels = length rrows →
  Forall (valid_label (shape1 t)) labels →
  0 < shape1 t → 0 < BS →
  forward_chunked BS (chunk_count (shape1 t) BS) t labels
  = Some (Fin <$> zip_with row_loss rrows labels, Fin <$> (LSE <$> rrows)).
Proof.
  intros Ht Hlen Hlab HV HBS.
  destruct (chunk_count_bounds _ _ HV HBS) as [Hn _].
  rewrite (forward_chunked_run BS _ t (fin_rows rrows));
    [|done|by unfold fin_rows; rewrite length_fmap|lia|lia].
  f_equal. f_equal.
  - apply (losses_fin _ t); [done|done|].
    intros row label Hrow Hvalid. rewrite <- Hrow in *.
    apply chunked_loss_fin; [done|apply nonempty_of_length; lia|done].
  - unfold fin_rows. rewrite <- !list_fmap_compose. apply list_fmap_ext.
    intros i row Hrow. simpl.
    pose proof (fin_rows_length _ _ _ _ Ht Hrow) as Hl. rewrite <- Hl.
    apply chunked_lse_fin; [done|apply nonempty_of_length; lia].
Qed.

(** ** [Fast_CrossEntropyLoss.forward] *)

Lemma single_chunk_bounds (V : Z) :
  chunk_count V MAX_FUSED_SIZE = 1 → 0 < V ≤ MAX_FUSED_SIZE.
Proof.
  unfold chunk_count, MAX_FUSED_SIZE. intros H.
  pose proof (Z.div_mod V 65536 ltac:(lia)) as Hdm.
  pose proof (Z.mod_pos_bound V 65536 ltac:(lia)) as Hmod.
  destruct (decide (V `mod` 65536 ≠ 0)); lia.
Qed.

Lemma Fast_CrossEntropyLoss_forward_run (calculate_settings : Z → Z)
    (t : tensor) (rows : list (list fval)) (labels : list Z) :
  tensor_rows t rows → length labels = length rows →
  Forall (valid_label (shape1 t)) labels →
  0 ≤ calculate_settings (shape1 t) →
  Fast_CrossEntropyLoss_forward calculate_settings t labels
  = Some (if decide (chunk_count (shape1 t) MAX_FUSED_SIZE = 1)
          then (uncurry (fused_loss (calculate_settings (shape1 t)))
                  <$> zip rows labels,
                Saved t ((λ row, block_lse
                            (block_lanes row 0 (calculate_settings (shape1 t))))
                           <$> rows) labels)
          else (uncurry (chunked_loss MAX_FUSED_SIZE
                           (chunk_count (shape1 t) MAX_FUSED_SIZE))
                  <$> zip rows labels,
                Saved t (chunked_lse MAX_FUSED_SIZE
                           (chunk_count (shape1 t) MAX_FUSED_SIZE) <$> rows)
                  labels)).
Proof.
  intros Ht Hlen Hlab Hcs.
  unfold Fast_CrossEntropyLoss_forward. cbv zeta.
  fold (chunk_count (shape1 t) MAX_FUSED_SIZE).
  destruct (decide (chunk_count (shape1 t) MAX_FUSED_SIZE = 1)) as [H1|H1].
  - apply single_chunk_bounds in H1. unfold MAX_FUSED_SIZE in H1.
    rewrite (forward_fused_run _ t rows) by (done || lia). reflexivity.
  - assert (Hn : 0 ≤ chunk_count (shape1 t) MAX_FUSED_SIZE).
    { destruct Ht as (_ & HV0 & _).
      unfold chunk_count, MAX_FUSED_SIZE.
      pose proof (Z.div_pos (shape1 t) 65536 HV0 ltac:(lia)).
      destruct (decide (shape1 t `mod` 65536 ≠ 0)); lia. }
    rewrite (forward_chunked_run _ _ t rows)
      by (done || unfold MAX_FUSED_SIZE; lia).
    reflexivity.
Qed.

Lemma Fast_CrossEntropyLoss_forward_fin (calculate_settings : Z → Z)
    (t : tensor) (rrows : list (list R)) (labels : list Z) :
  tensor_rows t (fin_rows rrows) → length labels = length rrows →
  Forall (valid_label (shape1 t)) labels →
  0 < shape1 t →
  (shape1 t ≤ MAX_FUSED_SIZE → shape1 t ≤ calculate_settings (shape1 t)) →
  Fast_CrossEntropyLoss_forward calculate_settings t labels
  = Some (Fin <$> zip_with row_loss rrows labels,
          Saved t (Fin <$> (LSE <$> rrows)) labels).
Proof.
  intros Ht Hlen Hlab HV Hcs.
  unfold Fast_CrossEntropyLoss_forward. cbv zeta.
  fold (chunk_count (shape1 t) MAX_FUSED_SIZE).
  destruct (decide (chunk_count (shape1 t) MAX_FUSED_SIZE = 1)) as [H1|H1].
  - apply single_chunk_bounds in H1. specialize (Hcs ltac:(lia)).
    unfold MAX_FUSED_SIZE in H1.
    rewrite (forward_fused_fin _ t rrows) by (done || lia). reflexivity.
  - rewrite (forward_chunked_fin _ t rrows) by done. reflexivity.
Qed.

(** ** [fast_cross_entropy_loss] *)

Lemma count_valid_all_ignore (labels : list Z) :
  Forall (λ l, l = -100) labels → count_valid labels = 0.
Proof.
  intros H. unfold count_valid.
  induction H as [|l labels -> _ IH]; [reflexivity|].
  rewrite filter_cons_False by (intros Hne; by apply Hne). exact IH.
Qed.

Lemma torch_sum_all_zero (l : list fval) :
  Forall (λ x, x = Fin 0) l → torch_sum l = Fin 0.
Proof.
  induction 1 as [|x l -> _ IH]; [reflexivity|].
  unfold torch_sum in *. simpl. rewrite IH. simpl. f_equal. lra.
Qed.

Lemma losses_all_ignore (f : list fval → Z → fval) (rows : list (list fval))
    (labels : list Z) :
  (∀ row, f row (-100) = Fin 0) →
  Forall (λ l, l = -100) labels →
  Forall (λ x, x = Fin 0) (uncurry f <$> zip rows labels).
Proof.
  intros Hf Hlab. apply Forall_fmap, list.Forall_forall.
  intros [row l] Hin. simpl.
  apply list_elem_of_lookup_1 in Hin as [i [_ Hl]%lookup_zip_Some].
  rewrite (Forall_lookup_1 _ _ _ _ Hlab Hl). apply Hf.
Qed.

Lemma fdiv_zero_zero : fdiv (Fin 0) (Fin 0) = NaN.
Proof.
  unfold fdiv. destruct (Req_dec_T 0 0) as [_|H]; [|lra].
  unfold scale_inf. destruct (total_order_T 0 0) as [[H|H]|H]; [lra|done|lra].
Qed.

Lemma fdiv_fin (a b : R) : b ≠ 0%R → fdiv (Fin a) (Fin b) = Fin (a / b).
Proof.
  intros Hb. unfold fdiv. destruct (Req_dec_T b 0) as [H|_]; [done|reflexivity].
Qed.

(** ** Masked stores and [tl.where] *)

Lemma length_tl_where (cs : list bool) (a b : list fval) (n : nat) :
  length cs = n → length a = n → length b = n →
  length (tl_where cs a b) = n.
Proof.
  revert a b n. induction cs as [|c cs IH]; intros [|x a] [|y b] n; simpl;
    intros; try lia.
  destruct n as [|n]; [lia|]. f_equal. apply IH; lia.
Qed.

Lemma tl_where_lookup (cs : list bool) (a b : list fval) (i : nat)
    (c : bool) (x y : fval) :
  cs !! i = Some c → a !! i = Some x → b !! i = Some y →
  tl_where cs a b !! i = Some (if c then x else y).
Proof.
  revert a b i. induction cs as [|c' cs IH]; intros [|x' a] [|y' b] i; try done.
  destruct i as [|i]; simpl.
  - intros. by simplify_eq.
  - apply IH.
Qed.

Lemma tl_store_spec (offs : list Z) (vals : list fval) (mask : list bool)
    (mem : list fval) (ptr : Z) :
  length vals = length offs → length mask = length offs → NoDup offs →
  (∀ i o, offs !! i = Some o → mask !! i = Some true →
     0 ≤ ptr + o < Z.of_nat (length mem)) →
  ∃ mem', tl_store mem ptr offs vals mask = Some mem'
    ∧ length mem' = length mem
    ∧ (∀ i o v, offs !! i = Some o → mask !! i = Some true →
         vals !! i = Some v → mem' !! Z.to_nat (ptr + o) = Some v)
    ∧ (∀ a, (∀ i o, offs !! i = Some o → mask !! i = Some true →
               Z.to_nat (ptr + o) ≠ a) → mem' !! a = mem !! a).
Proof.
  revert vals mask mem.
  induction offs as [|o offs IH]; intros vals mask mem Hv Hm Hnd Hin.
  { exists mem. destruct vals, mask; try done. }
  destruct vals as [|v vals]; [done|]. destruct mask as [|m mask]; [done|].
  simpl in Hv, Hm. apply list.NoDup_cons in Hnd as [Ho Hnd].
  cbn [tl_store].
  assert (Hstep : ∃ mem1,
            (if m then write mem (ptr + o) v else Some mem) = Some mem1
            ∧ length mem1 = length mem
            ∧ (m = true → mem1 !! Z.to_nat (ptr + o) = Some v)
            ∧ (∀ a, (m = true → Z.to_nat (ptr + o) ≠ a) → mem1 !! a = mem !! a)).
  { destruct m.
    - pose proof (Hin 0%nat o eq_refl eq_refl) as Hb.
      exists (<[Z.to_nat (ptr + o) := v]> mem). rewrite write_Some by done.
      split; [done|]. split; [apply length_insert|]. split.
      + intros _. apply list_lookup_insert_eq. lia.
      + intros a Ha. apply list_lookup_insert_ne. by apply Ha.
    - exists mem. split; [done|]. split; [done|]. split; [done|]. done. }
  destruct Hstep as (mem1 & -> & Hlen1 & Hhere & Hother).
  cbn [mbind option_bind].
  destruct (IH vals mask mem1) as (mem' & Hrun & Hlen & Hset & Hframe);
    [lia|lia|done| |].
  { intros i o' Ho' Hm'. rewrite Hlen1. by apply (Hin (S i)). }
  exists mem'. split; [done|]. split; [lia|]. split.
  - intros [|i] o' v' Ho' Hm' Hv'; simpl in *.
    + simplify_eq. rewrite Hframe; [by apply Hhere|].
      intros i o'' Ho'' Hm''.
      pose proof (Hin (S i) o'' Ho'' Hm'') as Hb1.
      pose proof (Hin 0%nat o' eq_refl eq_refl) as Hb2.
      intros Heq. apply Ho. apply list_elem_of_lookup_2 in Ho''.
      replace o' with o'' by lia. done.
    + by eapply Hset.
  - intros a Ha. rewrite Hframe.
    + apply Hother. intros ->. by apply (Ha 0%nat o).
    + intros i o' Ho' Hm'. by apply (Ha (S i) o').
Qed.

(** ** Launches whose programs own disjoint parts of one buffer *)

Lemma launch_owned {P} (k : P → list fval → option (list fval))
    (own : P → nat → Prop) (post : P → nat → fval) (init : list fval)
    (grid : list P) :
  ∀ buf, NoDup grid →
    (∀ p q a, p ∈ grid → q ∈ grid → p ≠ q → own p a → own q a → False) →
    (∀ p buf, p ∈ grid → length buf = length init →
       (∀ a, own p a → buf !! a = init !! a) →
       ∃ buf', k p buf = Some buf' ∧ length buf' = length init
         ∧ (∀ a, own p a → buf' !! a = Some (post p a))
         ∧ (∀ a, ¬ own p a → buf' !! a = buf !! a)) →
    length buf = length init →
    (∀ p a, p ∈ grid → own p a → buf !! a = init !! a) →
    ∃ final, launch k grid buf = Some final ∧ length final = length init
      ∧ (∀ p a, p ∈ grid → own p a → final !! a = Some (post p a))
      ∧ (∀ a, (∀ p, p ∈ grid → ¬ own p a) → final !! a = buf !! a).
Proof.
  induction grid as [|p grid IH]; intros buf Hnd Hdisj Hstep Hlen Hinit.
  { exists buf. split; [done|]. split; [done|]. split; [|done].
    intros p a Hp. by apply elem_of_nil in Hp. }
  apply list.NoDup_cons in Hnd as [Hp Hnd].
  destruct (Hstep p buf) as (buf1 & Hrun & Hlen1 & Hpost1 & Hframe1).
  { apply list_elem_of_here. }
  { done. }
  { intros a Ha. apply (Hinit p); [apply list_elem_of_here|done]. }
  assert (Hnot : ∀ q a, q ∈ grid → own q a → ¬ own p a).
  { intros q a Hq Hqa Hpa.
    apply (Hdisj p q a); [apply list_elem_of_here|by apply list_elem_of_further| |done|done].
    intros ->. done. }
  destruct (IH buf1) as (final & Hrun' & Hlenf & Hpostf & Hframef).
  - done.
  - intros q1 q2 a H1 H2. apply Hdisj; by apply list_elem_of_further.
  - intros q buf' Hq. apply Hstep. by apply list_elem_of_further.
  - done.
  - intros q a Hq Hqa. rewrite Hframe1 by (by eapply Hnot).
    apply (Hinit q); [by apply list_elem_of_further|done].
  - exists final. cbn [launch]. rewrite Hrun. cbn [mbind option_bind].
    split; [done|]. split; [done|]. split.
    + intros q a [->|Hq]%elem_of_cons Hqa.
      * rewrite Hframef; [by apply Hpost1|].
        intros q' Hq' Hq'a. by apply (Hnot q' a).
      * by apply Hpostf.
    + intros a Ha. rewrite Hframef.
      * apply Hframe1. apply Ha, list_elem_of_here.
      * intros q Hq. apply Ha. by apply list_elem_of_further.
Qed.

(** ** One program of the backward kernel *)

Lemma col_offsets_lookup (b BS : Z) (i : nat) (o : Z) :
  ((λ i, b * BS + i) <$> tl_arange 0 BS) !! i = Some o
  ↔ o = b * BS + Z.of_nat i ∧ Z.of_nat i < BS.
Proof.
  unfold tl_arange. rewrite list_lookup_fmap. split.
  - destruct (seqZ 0 (BS - 0) !! i) as [z|] eqn:Hz; [|done].
    apply lookup_seqZ in Hz as [-> Hlt]. simpl. intros [= <-]. lia.
  - intros [-> Hi]. rewrite lookup_seqZ_lt by lia. simpl. reflexivity.
Qed.

Lemma length_col_offsets (b BS : Z) :
  length ((λ i, b * BS + i) <$> tl_arange 0 BS) = Z.to_nat BS.
Proof. unfold tl_arange. rewrite length_fmap, length_seqZ. lia. Qed.

Lemma length_chunk {A} (row : list A) (b BS : Z) :
  length (chunk row b BS)
  = (Z.to_nat BS `min` (length row - Z.to_nat (b * BS)))%nat.
Proof. unfold chunk. by rewrite length_take, length_drop. Qed.

Lemma cross_entropy_backward_run (buf : list fval) (stride : Z)
    (dloss : list fval) (dstride : Z) (lse : list fval) (labels : list Z)
    (BS r b : Z) (row : list fval) (label : Z) (l dl : fval) :
  0 ≤ b → 0 < BS → 0 ≤ r * stride →
  (∀ (i : nat) x, chunk row b BS !! i = Some x →
     read buf (r * stride + (b * BS + Z.of_nat i)) = Some x) →
  read labels r = Some label → read lse r = Some l →
  (if decide (to_int32 label ≠ -100) then read dloss (r * dstride)
   else Some (Fin 0)) = Some dl →
  ∃ buf',
    _cross_entropy_backward buf stride dloss dstride lse labels
      (Z.of_nat (length row)) BS r b = Some buf'
    ∧ length buf' = length buf
    ∧ (∀ (i : nat) x, chunk row b BS !! i = Some x →
         buf' !! Z.to_nat (r * stride + (b * BS + Z.of_nat i))
         = Some (grad_elem l dl (to_int32 label) (b * BS + Z.of_nat i) x))
    ∧ (∀ a : nat,
         (∀ i : nat, (i < length (chunk row b BS))%nat →
            Z.to_nat (r * stride + (b * BS + Z.of_nat i)) ≠ a) →
         buf' !! a = buf !! a).
Proof.
  intros Hb HBS Hbase Hblock Hlabel Hlse Hdl.
  unfold _cross_entropy_backward. cbv zeta.
  rewrite Hlabel. cbn [mbind option_bind].
  rewrite tl_load_lanes by (done || lia). cbn [mbind option_bind].
  rewrite Hlse. cbn [mbind option_bind].
  rewrite Hdl. cbn [mbind option_bind].
  set (offs := (λ i, b * BS + i) <$> tl_arange 0 BS).
  set (lanes := block_lanes row b BS).
  set (y := fexp <$> ((λ v, fsub v l) <$> lanes)).
  set (conds := (λ c, bool_decide (c = to_int32 label)) <$> offs).
  set (mask := (λ c, bool_decide (c < Z.of_nat (length row))) <$> offs).
  assert (Hloffs : length offs = Z.to_nat BS) by apply length_col_offsets.
  assert (Hly : length y = Z.to_nat BS).
  { unfold y. rewrite !length_fmap. apply length_block_lanes. }
  assert (Hin : ∀ i o, offs !! i = Some o → mask !! i = Some true →
            ∃ x, chunk row b BS !! i = Some x ∧ o = b * BS + Z.of_nat i).
  { intros i o Ho Hm. apply col_offsets_lookup in Ho as Ho'.
    destruct Ho' as [-> Hi]. unfold mask in Hm.
    rewrite list_lookup_fmap, Ho in Hm. simpl in Hm.
    injection Hm as Hm. apply bool_decide_eq_true in Hm.
    assert (Hlt : (i < length (chunk row b BS))%nat).
    { rewrite length_chunk. lia. }
    apply lookup_lt_is_Some_2 in Hlt as [x Hx]. eauto. }
  destruct (tl_store_spec offs
              (fmul dl <$> tl_where conds ((λ v, fsub v (Fin 1)) <$> y) y)
              mask buf (r * stride))
    as (buf' & Hrun & Hlen & Hset & Hframe).
  - rewrite length_fmap. rewrite (length_tl_where _ _ _ (Z.to_nat BS)); [lia| | |done].
    + unfold conds. by rewrite length_fmap.
    + by rewrite length_fmap.
  - unfold mask. by rewrite length_fmap.
  - unfold offs, tl_arange. apply NoDup_fmap_2; [|apply NoDup_seqZ].
    intros i1 i2 H. lia.
  - intros i o Ho Hm. destruct (Hin i o Ho Hm) as (x & Hx & ->).
    specialize (Hblock i x Hx). unfold read in Hblock.
    rewrite decide_True in Hblock by lia.
    apply lookup_lt_Some in Hblock. lia.
  - exists buf'. split; [exact Hrun|]. split; [done|]. split.
    + intros i x Hx.
      assert (Hi : Z.of_nat i < BS).
      { apply lookup_lt_Some in Hx. pose proof (length_chunk_le row b BS). lia. }
      assert (Ho : offs !! i = Some (b * BS + Z.of_nat i)).
      { by apply col_offsets_lookup. }
      assert (HV : b * BS + Z.of_nat i < Z.of_nat (length row)).
      { apply lookup_lt_Some in Hx. rewrite length_chunk in Hx. lia. }
      apply (Hset i); [done| |].
      * unfold mask. rewrite list_lookup_fmap, Ho. simpl.
        by rewrite bool_decide_eq_true_2.
      * rewrite list_lookup_fmap.
        assert (Hlane : lanes !! i = Some x).
        { unfold lanes, block_lanes. by apply lookup_app_l_Some. }
        erewrite tl_where_lookup.
        -- simpl. reflexivity.
        -- unfold conds. rewrite list_lookup_fmap, Ho. reflexivity.
        -- unfold y. rewrite !list_lookup_fmap, Hlane. reflexivity.
        -- unfold y. rewrite !list_lookup_fmap, Hlane. reflexivity.
    + intros a Ha. apply Hframe. intros i o Ho Hm.
      destruct (Hin i o Ho Hm) as (x & Hx & ->).
      apply Ha. by eapply lookup_lt_Some.
Qed.

(** ** The backward launch *)

Lemma backward_owns_inv (t : tensor) (rows : list (list fval)) (BS m r b : Z)
    (a : nat) :
  tensor_rows t rows → 0 < BS → (r, b) ∈ grid2 (shape0 t) m →
  backward_owns rows (stride0 t) BS (r, b) a →
  ∃ (row : list fval) (i : nat) (x : fval),
    rows !! Z.to_nat r = Some row
    ∧ chunk row b BS !! i = Some x
    ∧ a = Z.to_nat (r * stride0 t + (b * BS + Z.of_nat i))
    ∧ Z.of_nat i < BS ∧ b * BS + Z.of_nat i < shape1 t.
Proof.
  intros Ht HBS [Hr Hb]%elem_of_grid2 (i & Hi & ->). cbn [fst snd] in *.
  pose proof Ht as (Hn & _).
  lookup_at rows (Z.to_nat r) as row Hrow.
  rewrite (list_lookup_total_correct _ _ _ Hrow) in Hi.
  destruct (lookup_lt_is_Some_2 _ _ Hi) as [x Hx].
  destruct (tensor_rows_row _ _ _ _ Ht Hrow) as [HV _].
  exists row, i, x. rewrite length_chunk in Hi.
  repeat split; try done; lia.
Qed.

Lemma backward_owns_disjoint (t : tensor) (rows : list (list fval))
    (BS m : Z) (p q : Z * Z) (a : nat) :
  tensor_rows t rows → shape1 t ≤ stride0 t → 0 < BS →
  p ∈ grid2 (shape0 t) m → q ∈ grid2 (shape0 t) m →
  backward_owns rows (stride0 t) BS p a →
  backward_owns rows (stride0 t) BS q a → p = q.
Proof.
  intros Ht Hs HBS Hp Hq Hpa Hqa. destruct p as [r b], q as [r' b'].
  destruct (backward_owns_inv _ _ _ _ _ _ _ Ht HBS Hp Hpa)
    as (row & i & x & _ & _ & -> & Hi & Hj).
  destruct (backward_owns_inv _ _ _ _ _ _ _ Ht HBS Hq Hqa)
    as (row' & i' & x' & _ & _ & Ha & Hi' & Hj').
  apply elem_of_grid2 in Hp as [Hr Hb]. apply elem_of_grid2 in Hq as [Hr' Hb'].
  assert (Heq : r * stride0 t + (b * BS + Z.of_nat i)
                = r' * stride0 t + (b' * BS + Z.of_nat i')) by nia.
  assert (r = r') by nia. subst r'.
  assert (b = b') by nia. subst b'. reflexivity.
Qed.

Lemma backward_launch_run (t : tensor) (rows : list (list fval))
    (lse : list fval) (labels : list Z) (dl : grad_vector) (BS n_blocks : Z) :
  tensor_rows t rows → shape1 t ≤ stride0 t →
  length labels = length rows → length lse = length rows →
  grad_readable dl (shape0 t) → 0 < BS →
  ∃ buf',
    launch (λ (p : Z * Z) (buf : list fval),
              _cross_entropy_backward buf (stride0 t) (ddata dl) (dstride dl)
                lse labels (shape1 t) BS p.1 p.2)
           (grid2 (shape0 t) n_blocks) (data t) = Some buf'
    ∧ length buf' = length (data t)
    ∧ (∀ p a, p ∈ grid2 (shape0 t) n_blocks →
         backward_owns rows (stride0 t) BS p a →
         buf' !! a = Some (backward_post rows (stride0 t) lse labels dl p a))
    ∧ (∀ a, (∀ p, p ∈ grid2 (shape0 t) n_blocks →
               ¬ backward_owns rows (stride0 t) BS p a) →
         buf' !! a = data t !! a).
Proof.
  intros Ht Hs Hlab Hlse Hdl HBS.
  pose proof Ht as (Hn & HV0 & Hs0 & _).
  apply (launch_owned _ (backward_owns rows (stride0 t) BS)
           (backward_post rows (stride0 t) lse labels dl) (data t)).
  - apply NoDup_grid2.
  - intros p q a Hp Hq Hne Hpa Hqa. apply Hne.
    by eapply backward_owns_disjoint.
  - intros [r b] buf Hp Hlen Hinit.
    pose proof Hp as [Hr Hb]%elem_of_grid2. cbn [fst snd].
    lookup_at rows (Z.to_nat r) as row Hrow.
    lookup_at labels (Z.to_nat r) as label Hlabel.
    lookup_at lse (Z.to_nat r) as l Hl.
    destruct (tensor_rows_row _ _ _ _ Ht Hrow) as [HlenV Hrowof].
    rewrite Z2Nat.id in Hrowof by lia.
    assert (Hrl : read labels r = Some label).
    { replace r with (Z.of_nat (Z.to_nat r)) by lia. by rewrite read_Some. }
    assert (Hrlse : read lse r = Some l).
    { replace r with (Z.of_nat (Z.to_nat r)) by lia. by rewrite read_Some. }
    assert (Hown : ∀ (i : nat) x, chunk row b BS !! i = Some x →
              backward_owns rows (stride0 t) BS (r, b)
                (Z.to_nat (r * stride0 t + (b * BS + Z.of_nat i)))).
    { intros i x Hx. exists i. cbn [fst snd].
      rewrite (list_lookup_total_correct _ _ _ Hrow).
      split; [by eapply lookup_lt_Some|done]. }
    destruct (cross_entropy_backward_run buf (stride0 t) (ddata dl) (dstride dl)
                lse labels BS r b row label l
                (upstream dl (to_int32 label) r))
      as (buf' & Hrun & Hlen' & Hset & Hframe); try done; try nia.
    + intros i x Hx.
      assert (Hread : read (data t) (r * stride0 t + (b * BS + Z.of_nat i))
                      = Some x).
      { apply (row_of_chunk_read _ _ row); [done|lia|lia|done]. }
      unfold read in *. rewrite decide_True in * by nia.
      rewrite Hinit; [done|]. by eapply Hown.
    + unfold upstream. destruct (decide (to_int32 label ≠ -100)); [|done].
      destruct (Hdl r ltac:(lia)) as [g ->]. reflexivity.
    + exists buf'. rewrite <- HlenV. split; [exact Hrun|].
      split; [lia|]. split.
      * intros a Ha.
        destruct (backward_owns_inv _ _ _ _ _ _ _ Ht HBS Hp Ha)
          as (row' & i & x & Hrow' & Hx & -> & Hi & Hj).
        rewrite Hrow in Hrow'. injection Hrow' as <-.
        rewrite (Hset i x Hx). f_equal.
        unfold backward_post. cbn [fst snd].
        rewrite (list_lookup_total_correct _ _ _ Hrow).
        rewrite (list_lookup_total_correct _ _ _ Hlabel).
        rewrite Hrlse. simpl.
        replace (Z.of_nat (Z.to_nat (r * stride0 t + (b * BS + Z.of_nat i)))
                 - r * stride0 t) with (b * BS + Z.of_nat i) by nia.
        rewrite chunk_lookup in Hx by lia.
        unfold read. rewrite decide_True by nia. rewrite Hx. reflexivity.
      * intros a Ha. apply Hframe. intros i Hi Heq. apply Ha.
        exists i. cbn [fst snd].
        rewrite (list_lookup_total_correct _ _ _ Hrow). done.
  - done.
  - done.
Qed.

Lemma Fast_CrossEntropyLoss_backward_run (t : tensor)
    (rows : list (list fval)) (lse : list fval) (labels : list Z)
    (dl : grad_vector) :
  tensor_rows t rows → shape1 t ≤ stride0 t →
  length labels = length rows → length lse = length rows →
  grad_readable dl (shape0 t) →
  ∃ buf',
    Fast_CrossEntropyLoss_backward (Saved t lse labels) dl
    = Some (Tensor buf' (shape0 t) (shape1 t) (stride0 t))
    ∧ length buf' = length (data t)
    ∧ ∀ (r j : nat) row label l x,
        rows !! r = Some row → labels !! r = Some label →
        lse !! r = Some l → row !! j = Some x →
        buf' !! Z.to_nat (Z.of_nat r * stride0 t + Z.of_nat j)
        = Some (grad_elem l (upstream dl (to_int32 label) (Z.of_nat r))
                  (to_int32 label) (Z.of_nat j) x).
Proof.
  intros Ht Hs Hlab Hlse Hdl.
  pose proof Ht as (Hn & HV0 & Hs0 & _).
  unfold Fast_CrossEntropyLoss_backward. cbn [saved_logits saved_logsumexp saved_labels].
  cbv zeta. fold (chunk_count (shape1 t) 4096).
  destruct (backward_launch_run t rows lse labels dl 4096
              (chunk_count (shape1 t) 4096))
    as (buf' & Hrun & Hlen & Hpost & _); try done.
  exists buf'. rewrite Hrun. cbn [mbind option_bind].
  split; [done|]. split; [done|].
  intros r j row label l x Hrow Hlabel Hl Hx.
  destruct (tensor_rows_row _ _ _ _ Ht Hrow) as [HlenV _].
  assert (Hj : Z.of_nat j < shape1 t).
  { apply lookup_lt_Some in Hx. lia. }
  assert (Hr : Z.of_nat r < shape0 t).
  { apply lookup_lt_Some in Hrow. lia. }
  destruct (chunk_count_bounds (shape1 t) 4096 ltac:(lia) ltac:(lia)) as [_ Hcov].
  pose proof (Z.div_mod (Z.of_nat j) 4096 ltac:(lia)) as Hdm.
  pose proof (Z.mod_pos_bound (Z.of_nat j) 4096 ltac:(lia)) as Hmod.
  set (b := Z.of_nat j `div` 4096) in *.
  set (i := Z.to_nat (Z.of_nat j `mod` 4096)).
  assert (Hb : 0 ≤ b) by (apply Z.div_pos; lia).
  assert (Haddr : Z.of_nat r * stride0 t + Z.of_nat j
                  = Z.of_nat r * stride0 t + (b * 4096 + Z.of_nat i)) by lia.
  rewrite (Hpost (Z.of_nat r, b)).
  - f_equal. unfold backward_post. cbn [fst snd].
    rewrite Nat2Z.id.
    rewrite (list_lookup_total_correct _ _ _ Hrow).
    rewrite (list_lookup_total_correct _ _ _ Hlabel).
    rewrite !read_Some, Hl. simpl.
    replace (Z.of_nat (Z.to_nat (Z.of_nat r * stride0 t + Z.of_nat j))
             - Z.of_nat r * stride0 t) with (Z.of_nat j) by nia.
    rewrite read_Some, Hx. reflexivity.
  - apply elem_of_grid2. nia.
  - exists i. cbn [fst snd]. rewrite Nat2Z.id.
    rewrite (list_lookup_total_correct _ _ _ Hrow).
    split; [rewrite length_chunk; lia|]. by rewrite Haddr.
Qed.

(** ** The backward pass on rows of finite values *)

Lemma row_of_intro (mem : list fval) (base : Z) (row : list fval) :
  0 ≤ base →
  (∀ (j : nat) x, row !! j = Some x → mem !! (Z.to_nat base + j)%nat = Some x) →
  row_of mem base row.
Proof.
  intros Hb H. split; [done|]. apply list_eq. intros j.
  destruct (row !! j) as [x|] eqn:Hx.
  - rewrite lookup_take_lt by (by eapply lookup_lt_Some).
    rewrite lookup_drop. by apply H.
  - apply lookup_take_ge. by apply lookup_ge_None.
Qed.

Lemma grad_elem_fin (l g : R) (label j : Z) (x : R) :
  (x - l <= exp_overflow)%R →
  grad_elem (Fin l) (Fin g) label j (Fin x) = Fin (grad_entry g l label j x).
Proof.
  intros Hx. unfold grad_elem, grad_entry. cbv zeta.
  rewrite fexp_sub_fin by done.
  case_bool_decide as Hj.
  - rewrite decide_True by done. reflexivity.
  - rewrite decide_False by done. simpl. apply (f_equal Fin).
    unfold Rminus. ring.
Qed.

Lemma grad_elem_ignore (l : R) (label j : Z) (x : R) :
  (x - l <= exp_overflow)%R →
  grad_elem (Fin l) (Fin 0) label j (Fin x) = Fin 0.
Proof.
  intros Hx. rewrite grad_elem_fin by done. unfold grad_entry. f_equal. lra.
Qed.

Lemma upstream_fin (dl : grad_vector) (gs : list R) (r : nat) (g : R)
    (label : Z) :
  grad_rows dl gs → gs !! r = Some g → label ≠ -100 →
  upstream dl label (Z.of_nat r) = Fin g.
Proof.
  intros Hdl Hg Hne. unfold upstream. rewrite decide_True by done.
  by rewrite (Hdl r g Hg).
Qed.

Lemma grad_rows_readable (dl : grad_vector) (gs : list R) (n : Z) :
  grad_rows dl gs → Z.of_nat (length gs) = n → grad_readable dl n.
Proof.
  intros Hdl Hlen r Hr.
  assert (Hlt : (Z.to_nat r < length gs)%nat) by lia.
  apply lookup_lt_is_Some_2 in Hlt as [g Hg].
  apply Hdl in Hg. rewrite Z2Nat.id in Hg by lia. by rewrite Hg.
Qed.

Lemma exp_safe_LSE (rrows : list (list R)) : exp_safe rrows (LSE <$> rrows).
Proof.
  intros r row lse x Hrow Hlse Hx.
  rewrite list_lookup_fmap, Hrow in Hlse. injection Hlse as <-.
  pose proof (LSE_ge row x Hx). pose proof exp_overflow_pos. lra.
Qed.

Lemma Fast_CrossEntropyLoss_backward_fin (t : tensor) (rrows : list (list R))
    (ls : list R) (labels : list Z) (dl : grad_vector) (gs : list R) :
  tensor_rows t (fin_rows rrows) → shape1 t ≤ stride0 t → shape1 t ≤ 2 ^ 31 →
  length labels = length rrows → length ls = length rrows →
  length gs = length rrows →
  Forall (valid_label (shape1 t)) labels → grad_rows dl gs →
  exp_safe rrows ls →
  ∃ buf',
    Fast_CrossEntropyLoss_backward (Saved t (Fin <$> ls) labels) dl
    = Some (Tensor buf' (shape0 t) (shape1 t) (stride0 t))
    ∧ length buf' = length (data t)
    ∧ ∀ (r : nat) row label lse g,
        rrows !! r = Some row → labels !! r = Some label →
        ls !! r = Some lse → gs !! r = Some g →
        row_of buf' (Z.of_nat r * stride0 t) (Fin <$> grad_row g lse label row).
Proof.
  intros Ht Hs H31 Hlab Hls Hgs Hvalid Hdl Hsafe.
  pose proof Ht as (Hn & HV0 & Hs0 & _).
  unfold fin_rows in Hn. rewrite length_fmap in Hn.
  destruct (Fast_CrossEntropyLoss_backward_run t (fin_rows rrows) (Fin <$> ls)
              labels dl) as (buf' & Hrun & Hlen & Hpt); try done.
  { unfold fin_rows. by rewrite length_fmap. }
  { unfold fin_rows. by rewrite !length_fmap. }
  { eapply grad_rows_readable; [done|lia]. }
  exists buf'. split; [done|]. split; [done|].
  intros r row label lse g Hrow Hlabel Hlse Hg.
  apply row_of_intro; [lia|].
  intros j y Hy. rewrite list_lookup_fmap in Hy. unfold grad_row in Hy.
  rewrite list_lookup_imap in Hy.
  destruct (row !! j) as [x|] eqn:Hx; [|done]. simpl in Hy.
  injection Hy as <-.
  replace (Z.to_nat (Z.of_nat r * stride0 t) + j)%nat
    with (Z.to_nat (Z.of_nat r * stride0 t + Z.of_nat j)) by nia.
  rewrite (Hpt r j (Fin <$> row) label (Fin lse) (Fin x)).
  - f_equal.
    assert (Hv : valid_label (shape1 t) label) by (eapply Forall_lookup_1; eauto).
    assert (Hbound : (x - lse <= exp_overflow)%R).
    { apply (Hsafe r row); [done|done|]. by eapply list_elem_of_lookup_2. }
    destruct (decide (label = -100)) as [->|Hne].
    + rewrite to_int32_id by lia. unfold upstream.
      rewrite decide_False by (intros H; by apply H).
      by apply grad_elem_ignore.
    + destruct Hv as [?|Hrange]; [done|].
      rewrite to_int32_id by lia.
      rewrite (upstream_fin _ _ _ _ _ Hdl Hg Hne). by apply grad_elem_fin.
  - unfold fin_rows. by rewrite list_lookup_fmap, Hrow.
  - done.
  - by rewrite list_lookup_fmap, Hlse.
  - by rewrite list_lookup_fmap, Hx.
Qed.

(** ** The gradient of a row sums to zero *)

Lemma Rsum_snoc (l : list R) (x : R) : Rsum (l ++ [x]) = (Rsum l + x)%R.
Proof. rewrite Rsum_app, Rsum_cons, Rsum_nil. lra. Qed.




(** ** Rows of the gradient *)

Lemma grad_row_ignore (g lse : R) (row : list R) :
  grad_row g lse (-100) row = replicate (length row) 0%R.
Proof.
  unfold grad_row. apply list_eq. intros j.
  rewrite list_lookup_imap.
  destruct (row !! j) as [x|] eqn:Hx; simpl.
  - symmetry. apply lookup_replicate_2. by eapply lookup_lt_Some.
  - symmetry. apply lookup_ge_None. rewrite length_replicate.
    by apply lookup_ge_None.
Qed.

Lemma length_grad_row (g lse : R) (label : Z) (row : list R) :
  length (grad_row g lse label row) = length row.
Proof. unfold grad_row. apply length_imap. Qed.

Lemma row_of_take (mem : list fval) (base : Z) (row : list R) :
  row_of mem base (Fin <$> row) →
  take (length row) (drop (Z.to_nat base) mem) = Fin <$> row.
Proof. intros [_ H]. by rewrite length_fmap in H. Qed.

(** ** Bounds on the loss and on the gradient *)

Lemma Rsum_exp_le (l : list R) (M : R) :
  (∀ x, x ∈ l → (x <= M)%R) →
  (Rsum (exp <$> l) <= INR (length l) * exp M)%R.
Proof.
  induction l as [|x l IH]; intros HM.
  - rewrite fmap_nil, Rsum_nil. simpl. lra.
  - rewrite fmap_cons, Rsum_cons.
    change (length (x :: l)) with (S (length l)). rewrite S_INR.
    assert (Hx : (exp x <= exp M)%R).
    { destruct (HM x (list_elem_of_here _ _)) as [Hlt | ->]; [|lra].
      left. by apply exp_increasing. }
    assert (Hl : (Rsum (exp <$> l) <= INR (length l) * exp M)%R).
    { apply IH. intros y Hy. apply HM. by apply list_elem_of_further. }
    lra.
Qed.

Lemma LSE_le (l : list R) (M : R) :
  l ≠ [] → (∀ x, x ∈ l → (x <= M)%R) →
  (LSE l <= M + ln (INR (length l)))%R.
Proof.
  intros Hne HM. unfold LSE.
  assert (Hn : (0 < INR (length l))%R).
  { apply lt_0_INR. destruct l; [done|simpl; lia]. }
  rewrite <- (ln_exp M) at 1. rewrite <- ln_mult by (done || apply exp_pos).
  pose proof (Rsum_exp_le l M HM) as Hle.
  pose proof (Rsum_exp_pos l Hne) as Hpos.
  destruct Hle as [Hlt|Heq].
  - left. apply ln_increasing; [done|]. lra.
  - right. rewrite Heq. f_equal. lra.
Qed.

Lemma row_at_elem (row : list R) (label : Z) :
  0 ≤ label < Z.of_nat (length row) → row_at row label ∈ row.
Proof.
  intros Hl. unfold row_at, read. rewrite decide_True by lia.
  lookup_at row (Z.to_nat label) as x Hx.
  rewrite Hx. simpl. by eapply list_elem_of_lookup_2.
Qed.

Lemma row_loss_bounds (row : list R) (label : Z) (M : R) :
  row ≠ [] → valid_label (Z.of_nat (length row)) label →
  (∀ x, x ∈ row → (Rabs x <= M)%R) →
  (0 <= row_loss row label <= 2 * M + ln (INR (length row)))%R.
Proof.
  intros Hne Hvalid HM. unfold row_loss.
  assert (HM0 : (0 <= M)%R).
  { destruct row as [|x row]; [done|].
    pose proof (HM x (list_elem_of_here _ _)). pose proof (Rabs_pos x). lra. }
  assert (Hln : (0 <= ln (INR (length row)))%R).
  { rewrite <- ln_1.
    assert (H1 : (1 <= INR (length row))%R).
    { change 1%R with (INR 1). apply le_INR. destruct row; [done|simpl; lia]. }
    destruct H1 as [Hlt | <-]; [|lra]. left. apply ln_increasing; lra. }
  destruct (decide (label = -100)); [lra|].
  destruct Hvalid as [?|Hrange]; [done|].
  pose proof (row_at_elem row label Hrange) as Hin.
  pose proof (LSE_ge row _ Hin).
  assert (Hup : (LSE row <= M + ln (INR (length row)))%R).
  { apply LSE_le; [done|]. intros x Hx. specialize (HM x Hx).
    pose proof (Rle_abs x). lra. }
  specialize (HM _ Hin).
  assert (- row_at row label <= M)%R.
  { pose proof (Rle_abs (- row_at row label)) as H'. rewrite Rabs_Ropp in H'. lra. }
  lra.
Qed.

Lemma grad_entry_bound (g lse : R) (label j : Z) (x : R) :
  (x <= lse)%R → (Rabs (grad_entry g lse label j x) <= Rabs g)%R.
Proof.
  intros Hx. unfold grad_entry. rewrite Rabs_mult.
  assert (Hexp : (0 < exp (x - lse) <= 1)%R).
  { split; [apply exp_pos|]. rewrite <- exp_0.
    destruct Hx as [Hlt | ->].
    - left. apply exp_increasing. lra.
    - right. f_equal. lra. }
  assert (Hy : (Rabs (exp (x - lse) - (if decide (j = label) then 1 else 0)) <= 1)%R).
  { apply Rabs_le. destruct (decide (j = label)); lra. }
  pose proof (Rabs_pos g).
  rewrite <- (Rmult_1_r (Rabs g)) at 2.
  apply Rmult_le_compat_l; done.
Qed.

Lemma grad_row_bound (g : R) (label : Z) (row : list R) :
  Forall (λ y, (Rabs y <= Rabs g)%R) (grad_row g (LSE row) label row).
Proof.
  apply Forall_lookup. intros j y Hy. unfold grad_row in Hy.
  rewrite list_lookup_imap in Hy.
  destruct (row !! j) as [x|] eqn:Hx; [|done]. simpl in Hy.
  injection Hy as <-.
  destruct (decide (label = -100)).
  - rewrite Rabs_R0. apply Rabs_pos.
  - apply grad_entry_bound, LSE_ge. by eapply list_elem_of_lookup_2.
Qed.

(** Without the subtraction of the maximum the exponential of a logit of
    magnitude 1e4 overflows. *)
Lemma unshifted_exp_overflows : fexp (Fin 10000) = PInf.
Proof.
  unfold fexp, exp_overflow.
  destruct (Rle_dec 10000 (8872 / 100)) as [H|_]; [lra|reflexivity].
Qed.

(** ** Infinite values in a block *)

Lemma tl_max_not_nan (l : list fval) : tl_max l ≠ NaN.
Proof.
  induction l as [|x l IH]; [done|].
  unfold tl_max in *. simpl.
  destruct x, (foldr fmax NInf l); simpl; done.
Qed.

Lemma tl_max_pinf (l : list fval) : PInf ∈ l → tl_max l = PInf.
Proof.
  induction l as [|x l IH]; intros Hin; [by apply elem_of_nil in Hin|].
  pose proof (tl_max_not_nan l) as Hnan.
  unfold tl_max in *. simpl.
  apply elem_of_cons in Hin as [<- | Hin].
  - by destruct (foldr fmax NInf l).
  - rewrite IH by done. by destruct x.
Qed.

Lemma tl_max_all_ninf (l : list fval) :
  Forall (λ x, x = NInf) l → tl_max l = NInf.
Proof.
  induction 1 as [|x l -> _ IH]; [reflexivity|].
  unfold tl_max in *. simpl. by rewrite IH.
Qed.

Lemma tl_sum_nan (l : list fval) : NaN ∈ l → tl_sum l = NaN.
Proof.
  induction l as [|x l IH]; intros Hin; [by apply elem_of_nil in Hin|].
  unfold tl_sum in *. simpl.
  apply elem_of_cons in Hin as [<- | Hin]; [reflexivity|].
  rewrite IH by done. by destruct x.
Qed.

Lemma block_lse_nan (lanes : list fval) :
  PInf ∈ lanes ∨ (lanes ≠ [] ∧ Forall (λ x, x = NInf) lanes) →
  block_lse lanes = NaN.
Proof.
  intros Hcase. unfold block_lse. cbv zeta.
  assert (Hc : ∃ c x, tl_max lanes = c ∧ x ∈ lanes
                      ∧ fexp (fsub x c) = NaN ∧ (c = PInf ∨ c = NInf)).
  { destruct Hcase as [Hin | [Hne Hall]].
    - exists PInf, PInf. rewrite tl_max_pinf by done. eauto.
    - exists NInf, NInf. rewrite tl_max_all_ninf by done.
      destruct lanes as [|x lanes]; [done|].
      apply list.Forall_cons in Hall as [-> _].
      split; [done|]. split; [apply list_elem_of_here|]. eauto. }
  destruct Hc as (c & x & -> & Hx & Hnan & Hc).
  rewrite tl_sum_nan.
  - by destruct Hc as [-> | ->].
  - rewrite <- Hnan, <- list_fmap_compose.
    by apply (list_elem_of_fmap_2 (fexp ∘ (λ x, fsub x c))).
Qed.

(** ** A saved log-sum-exp that is NaN *)

Lemma fadd_nan_r (x : fval) : fadd x NaN = NaN.
Proof. by destruct x. Qed.

Lemma grad_elem_nan (dl : fval) (label_idx j : Z) (x : fval) :
  grad_elem NaN dl label_idx j x = NaN.
Proof.
  unfold grad_elem, fsub. cbv zeta. rewrite fadd_nan_r.
  destruct (bool_decide (j = label_idx)), dl; reflexivity.
Qed.

(** ** The float32 range *)

Lemma ln_le_self (x : R) : (0 < x)%R → (ln x <= x)%R.
Proof.
  intros Hx. left. rewrite <- (ln_exp x) at 2.
  apply ln_increasing; [done|].
  pose proof (exp_ineq1_le x). lra.
Qed.

Lemma LSE_abs_bound (row : list R) (M : R) :
  row ≠ [] → (∀ x, x ∈ row → (Rabs x <= M)%R) →
  (Rabs (LSE row) <= M + ln (INR (length row)))%R.
Proof.
  intros Hne HM.
  assert (Hln : (0 <= ln (INR (length row)))%R).
  { rewrite <- ln_1.
    assert (H1 : (1 <= INR (length row))%R).
    { change 1%R with (INR 1). apply le_INR. destruct row; [done|simpl; lia]. }
    destruct H1 as [Hlt | <-]; [|lra]. left. apply ln_increasing; lra. }
  assert (Hup : (LSE row <= M + ln (INR (length row)))%R).
  { apply LSE_le; [done|]. intros x Hx. specialize (HM x Hx).
    pose proof (Rle_abs x). lra. }
  destruct row as [|x0 row]; [done|].
  pose proof (LSE_ge (x0 :: row) x0 (list_elem_of_here _ _)) as Hlow.
  pose proof (HM x0 (list_elem_of_here _ _)) as H0.
  assert (- x0 <= M)%R.
  { pose proof (Rle_abs (- x0)) as H'. rewrite Rabs_Ropp in H'. lra. }
  apply Rabs_le. lra.
Qed.

(** ** The example inputs are well formed *)

Lemma ex_logits_rows : tensor_rows ex_logits (fin_rows ex_rows).
Proof.
  split; [reflexivity|]. split; [simpl; lia|]. split; [simpl; lia|].
  intros [|[|r]] row; simpl; intros [= <-];
    (split; [reflexivity|split; [simpl; lia|reflexivity]]).
Qed.

Lemma ex_wide_rows_ok : tensor_rows ex_wide (fin_rows ex_wide_rows).
Proof.
  split; [reflexivity|]. split; [simpl; lia|]. split; [simpl; lia|].
  intros [|r] row; simpl; intros [= <-];
    (split; [reflexivity|split; [simpl; lia|reflexivity]]).
Qed.

Lemma ex_labels_valid : Forall (valid_label 4) ex_labels.
Proof.
  constructor; [right; lia|]. constructor; [left; reflexivity|constructor].
Qed.

Lemma ex_wide_labels_valid : Forall (valid_label 8) ex_wide_labels.
Proof. constructor; [right; lia|constructor]. Qed.

Lemma ex_saved_safe : exp_safe ex_rows [5; 7]%R.
Proof.
  unfold exp_safe, exp_overflow, ex_rows, ex_row.
  intros [|[|r]] row lse x; simpl; intros [= <-] [= <-] Hx;
    repeat (apply elem_of_cons in Hx as [->|Hx]; [lra|]);
    by apply elem_of_nil in Hx.
Qed.

Lemma ex_dlosses_rows : grad_rows ex_dlosses ex_gs.
Proof.
  intros [|[|r]] g; simpl; intros [= <-]; reflexivity.
Qed.

Lemma ex_extreme_rows_ok : tensor_rows ex_extreme (fin_rows [ex_extreme_row]).
Proof.
  split; [reflexivity|]. split; [simpl; lia|]. split; [simpl; lia|].
  intros [|r] row; simpl; intros [= <-];
    (split; [reflexivity|split; [simpl; lia|reflexivity]]).
Qed.

Lemma ex_extreme_bounded (row : list R) (x : R) :
  row ∈ [ex_extreme_row] → x ∈ row → (Rabs x <= 10000)%R.
Proof.
  intros ->%list_elem_of_singleton Hx. unfold ex_extreme_row in Hx.
  repeat (apply elem_of_cons in Hx as [-> | Hx];
          [unfold Rabs; destruct (Rcase_abs _); lra|]).
  by apply elem_of_nil in Hx.
Qed.

(** * The claims *)

(** C1.  The single-pass forward kernel, run for a row of finite scores
    that fits in one block and a label that is a column index or the
    ignore value, stores [logsumexp = c + log (sum (exp (row - c)))] with
    [c] the maximum of the row, and stores [loss = logsumexp - row[label]],
    or [loss = 0] when the label is the ignore value. *)
Theorem cross_entropy_forward_correct (logits : list fval) (stride : Z)
    (loss logsumexp : list fval) (labels : list Z) (BLOCK_SIZE row_idx : Z)
    (row : list R) (label : Z) :
  0 ≤ row_idx → row ≠ [] →
  Z.of_nat (length row) ≤ BLOCK_SIZE → Z.of_nat (length row) ≤ 2 ^ 31 →
  row_of logits (row_idx * stride) (Fin <$> row) →
  read labels row_idx = Some label →
  valid_label (Z.of_nat (length row)) label →
  row_idx < Z.of_nat (length loss) →
  row_idx < Z.of_nat (length logsumexp) →
  let c := Rmax_list row in
  let lse := (c + ln (Rsum ((λ x, exp (x - c)) <$> row)))%R in
  (c ∈ row ∧ ∀ x, x ∈ row → (x <= c)%R)
  ∧ _cross_entropy_forward logits stride loss logsumexp labels
      (Z.of_nat (length row)) BLOCK_SIZE row_idx
    = Some (<[Z.to_nat row_idx :=
                Fin (if decide (label = -100) then 0
                     else lse - row_at row label)]> loss,
            <[Z.to_nat row_idx := Fin lse]> logsumexp).
Proof.
  intros Hr Hne HBS H31 Hrow Hlabel Hvalid Hloss Hlse c lse.
  split; [by apply Rmax_list_spec|].
  pose proof (cross_entropy_forward_run logits stride loss logsumexp labels
                BLOCK_SIZE row_idx (Fin <$> row) label) as Hrun.
  rewrite length_fmap in Hrun. rewrite Hrun by (done || lia). clear Hrun.
  assert (Hblock : block_lse (block_lanes (Fin <$> row) 0 BLOCK_SIZE) = Fin lse).
  { rewrite block_lse_chunk; rewrite chunk_whole by done; done. }
  rewrite Hblock.
  destruct Hvalid as [->|Hrange].
  - rewrite to_int32_id by lia. rewrite decide_False by (intros H; by apply H).
    rewrite decide_True by done. reflexivity.
  - rewrite to_int32_id by lia. rewrite decide_True by lia.
    rewrite decide_False by lia.
    rewrite (read_row_label _ _ (Fin <$> row))
      by (done || rewrite length_fmap; lia).
    rewrite read_fin_row by done. reflexivity.
Qed.

Lemma cross_entropy_forward_correct_witness :
  _cross_entropy_forward (data ex_logits) 4 [NaN; NaN] [NaN; NaN] ex_labels
    4 4 0
  = Some ([Fin (Rmax_list ex_row
                + ln (Rsum ((λ x, exp (x - Rmax_list ex_row)) <$> ex_row))
                - row_at ex_row 3); NaN],
          [Fin (Rmax_list ex_row
                + ln (Rsum ((λ x, exp (x - Rmax_list ex_row)) <$> ex_row)));
           NaN]).
Proof.
  apply (cross_entropy_forward_correct (data ex_logits) 4 [NaN; NaN] [NaN; NaN]
           ex_labels 4 0 ex_row 3).
  - lia.
  - discriminate.
  - simpl. lia.
  - simpl. lia.
  - split; [lia|reflexivity].
  - reflexivity.
  - right. simpl. lia.
  - simpl. lia.
  - simpl. lia.
Defined.

(** C2.  [forward] saves the log-sum-exp vector it computed, and
    [backward] overwrites column [j] of every row whose label is a column
    index with [upstream * g_j], where [g_j = exp (row[j] - logsumexp) - 1]
    for [j = label] and [exp (row[j] - logsumexp)] otherwise, and
    [logsumexp] is the value the saved vector holds for the row, whatever
    that value is, as long as it keeps [exp] from overflowing. *)
Theorem backward_gradient (calculate_settings : Z → Z) (t : tensor)
    (rrows : list (list R)) (labels : list Z) (ls : list R)
    (dlosses : grad_vector) (gs : list R) :
  tensor_rows t (fin_rows rrows) →
  0 < shape1 t ≤ stride0 t → shape1 t ≤ 2 ^ 31 →
  (shape1 t ≤ MAX_FUSED_SIZE → shape1 t ≤ calculate_settings (shape1 t)) →
  length labels = length rrows → length ls = length rrows →
  length gs = length rrows →
  Forall (valid_label (shape1 t)) labels → grad_rows dlosses gs →
  exp_safe rrows ls →
  (∃ losses,
     Fast_CrossEntropyLoss_forward calculate_settings t labels
     = Some (losses, Saved t (Fin <$> (LSE <$> rrows)) labels))
  ∧ ∃ buf',
      Fast_CrossEntropyLoss_backward (Saved t (Fin <$> ls) labels) dlosses
      = Some (Tensor buf' (shape0 t) (shape1 t) (stride0 t))
      ∧ ∀ (r j : nat) row label lse g x,
          rrows !! r = Some row → labels !! r = Some label → label ≠ -100 →
          ls !! r = Some lse → gs !! r = Some g → row !! j = Some x →
          read buf' (Z.of_nat r * stride0 t + Z.of_nat j)
          = Some (Fin (g * (exp (x - lse)
                            - (if decide (Z.of_nat j = label) then 1 else 0)))).
Proof.
  intros Ht HV H31 Hcs Hlab Hls Hgs Hvalid Hdl Hsafe. split.
  { eexists.
    apply (Fast_CrossEntropyLoss_forward_fin _ t rrows); (done || lia). }
  destruct (Fast_CrossEntropyLoss_backward_fin t rrows ls labels dlosses gs)
    as (buf' & Hrun & _ & Hrows); try done; try lia.
  exists buf'. split; [done|].
  intros r j row label lse g x Hrow Hlabel Hne Hlse Hg Hx.
  specialize (Hrows r row label lse g Hrow Hlabel Hlse Hg).
  apply (row_of_read _ _ _ j) with (x := Fin (grad_entry g lse label (Z.of_nat j) x))
    in Hrows; [exact Hrows|].
  rewrite list_lookup_fmap. unfold grad_row. rewrite list_lookup_imap, Hx.
  simpl. by rewrite decide_False.
Qed.

Lemma backward_gradient_witness :
  ∃ buf',
    Fast_CrossEntropyLoss_backward
      (Saved ex_logits [Fin 5; Fin 7] ex_labels) ex_dlosses
    = Some (Tensor buf' 2 4 4)
    ∧ read buf' 3 = Some (Fin (1 * (exp (4 - 5) - 1)))
    ∧ read buf' 0 = Some (Fin (1 * (exp (1 - 5) - 0))).
Proof.
  destruct (backward_gradient ex_settings ex_logits ex_rows ex_labels
              [5; 7]%R ex_dlosses ex_gs)
    as [_ (buf' & Hrun & Hgrad)].
  - exact ex_logits_rows.
  - simpl. lia.
  - simpl. lia.
  - intros _. vm_compute. discriminate.
  - reflexivity.
  - reflexivity.
  - reflexivity.
  - exact ex_labels_valid.
  - exact ex_dlosses_rows.
  - exact ex_saved_safe.
  - exists buf'. split; [exact Hrun|]. split.
    + exact (Hgrad 0%nat 3%nat ex_row 3 5%R 1%R 4%R eq_refl eq_refl
               ltac:(discriminate) eq_refl eq_refl eq_refl).
    + exact (Hgrad 0%nat 0%nat ex_row 3 5%R 1%R 1%R eq_refl eq_refl
               ltac:(discriminate) eq_refl eq_refl eq_refl).
Defined.




(** C4.  In the chunked forward path, for a row whose label is a column
    index, exactly one chunk, the one whose column range contains the label,
    stores the partial loss [-row[label]]; every other chunk stores 0; and
    the combined loss is the sum of the partials plus the log-sum-exp of the
    row, added once. *)
Theorem label_chunk_partial_loss (BLOCK_SIZE : Z) (t : tensor)
    (rrows : list (list R)) (labels : list Z) :
  tensor_rows t (fin_rows rrows) → length labels = length rrows →
  Forall (valid_label (shape1 t)) labels →
  0 < shape1 t → 0 < BLOCK_SIZE →
  let n_chunks := chunk_count (shape1 t) BLOCK_SIZE in
  ∃ partial_losses partial_lses losses lses,
    chunked_partials BLOCK_SIZE n_chunks t labels
    = Some (partial_losses, partial_lses)
    ∧ forward_chunked BLOCK_SIZE n_chunks t labels = Some (losses, lses)
    ∧ ∀ (r : nat) row label,
        rrows !! r = Some row → labels !! r = Some label → label ≠ -100 →
        ∃ k0, 0 ≤ k0 < n_chunks
          ∧ k0 * BLOCK_SIZE ≤ label < Z.min ((k0 + 1) * BLOCK_SIZE) (shape1 t)
          ∧ (∀ k, 0 ≤ k < n_chunks →
               read partial_losses (Z.of_nat r + k * shape0 t)
               = Some (Fin (if decide (k = k0) then - row_at row label else 0)))
          ∧ lses !! r = Some (Fin (LSE row))
          ∧ losses !! r = Some (Fin (- row_at row label + LSE row)).
Proof.
  intros Ht Hlen Hlab HV HBS n_chunks.
  pose proof Ht as (Hn & _).
  unfold fin_rows in Hn. rewrite length_fmap in Hn.
  destruct (chunk_count_bounds _ _ HV HBS) as [Hn1 Hcov].
  fold n_chunks in Hn1, Hcov.
  eexists _, _, _, _.
  split; [apply (chunked_partials_run _ _ t (fin_rows rrows));
          [done|by unfold fin_rows; rewrite length_fmap|lia|lia]|].
  split; [by apply (forward_chunked_fin _ t rrows)|].
  intros r row label Hrow Hlabel Hne.
  pose proof (fin_rows_length _ _ _ _ Ht Hrow) as HlenV.
  assert (Hrange : 0 ≤ label < shape1 t).
  { destruct (Forall_lookup_1 _ _ _ _ Hlab Hlabel) as [?|?]; [done|lia]. }
  assert (Hr : Z.of_nat r < shape0 t).
  { apply lookup_lt_Some in Hrow. lia. }
  pose proof (Z.div_mod label BLOCK_SIZE ltac:(lia)) as Hdm.
  pose proof (Z.mod_pos_bound label BLOCK_SIZE HBS) as Hmod.
  exists (label `div` BLOCK_SIZE).
  split; [nia|]. split; [nia|]. split; [|split].
  - intros k Hk. unfold read. rewrite decide_True by nia.
    change (Z.to_nat (Z.of_nat r + k * shape0 t))
      with (partial_slot (shape0 t) (Z.of_nat r, k)).
    rewrite (write_all_lookup (partial_slot (shape0 t))).
    + cbn [fst snd]. rewrite Nat2Z.id.
      assert (Hfr : fin_rows rrows !! r = Some (Fin <$> row)).
      { unfold fin_rows. by rewrite list_lookup_fmap, Hrow. }
      rewrite (list_lookup_total_correct _ _ _ Hfr).
      rewrite (list_lookup_total_correct _ _ _ Hlabel).
      rewrite partial_loss_fin by lia. reflexivity.
    + apply NoDup_partial_slots.
    + apply elem_of_grid2. lia.
    + unfold torch_empty, partial_slot. rewrite length_replicate.
      cbn [fst snd]. nia.
  - by rewrite !list_lookup_fmap, Hrow.
  - rewrite list_lookup_fmap, lookup_zip_with, Hrow, Hlabel. simpl.
    f_equal. f_equal. unfold row_loss. rewrite decide_False by done. lra.
Qed.

Lemma label_chunk_partial_loss_witness :
  ∃ partial_losses partial_lses losses lses,
    chunked_partials 4 (chunk_count 8 4) ex_wide ex_wide_labels
    = Some (partial_losses, partial_lses)
    ∧ forward_chunked 4 (chunk_count 8 4) ex_wide ex_wide_labels
      = Some (losses, lses)
    ∧ read partial_losses 0 = Some (Fin 0)
    ∧ read partial_losses 1 = Some (Fin (- row_at ex_wide_row 5))
    ∧ losses !! 0%nat
      = Some (Fin (- row_at ex_wide_row 5
                   + LSE ex_wide_row)).
Proof.
  destruct (label_chunk_partial_loss 4 ex_wide ex_wide_rows ex_wide_labels)
    as (pl & ple & ls & lse & Hp & Hf & Hrow).
  - exact ex_wide_rows_ok.
  - reflexivity.
  - exact ex_wide_labels_valid.
  - simpl. lia.
  - lia.
  - destruct (Hrow 0%nat ex_wide_row 5 eq_refl eq_refl ltac:(lia))
      as (k0 & Hk0 & Hin & Hparts & _ & Hloss).
    simpl in Hin.
    assert (k0 = 1) as -> by lia.
    exists pl, ple, ls, lse.
    split; [exact Hp|]. split; [exact Hf|].
    split; [exact (Hparts 0 ltac:(vm_compute; split; discriminate || reflexivity))|].
    split; [exact (Hparts 1 ltac:(vm_compute; split; discriminate || reflexivity))|].
    exact Hloss.
Defined.

(** C5.  The gradient of an ignored row is not always zero.  [backward]
    does not store 0 for a row labelled with the ignore value, it stores
    [0.0 * y] with [y = exp (x - logsumexp)], and [0.0 * y] is NaN when
    [y] is not finite.  On a row that holds +inf, labelled -100,
    [forward] returns the loss 0 and saves NaN as log-sum-exp, and
    [backward], run on what [forward] saved, writes NaN to every column
    of the row. *)
Theorem ignored_row_gradient_nan :
  Fast_CrossEntropyLoss_forward ex_settings ex_inf [-100]
  = Some ([Fin 0], Saved ex_inf [NaN] [-100])
  ∧ Fast_CrossEntropyLoss_backward (Saved ex_inf [NaN] [-100]) ex_dlosses
    = Some (Tensor [NaN; NaN; NaN; NaN] 1 4 4).
Proof.
  assert (Ht : tensor_rows ex_inf [ex_inf_row]).
  { split; [reflexivity|]. split; [simpl; lia|]. split; [simpl; lia|].
    intros [|r] row; simpl; intros [= <-];
      (split; [reflexivity|split; [simpl; lia|reflexivity]]). }
  split.
  - rewrite (Fast_CrossEntropyLoss_forward_run ex_settings ex_inf
               [ex_inf_row] [-100]).
    + change (shape1 ex_inf) with 4. change (ex_settings 4) with 4.
      rewrite decide_True by reflexivity.
      cbn [fmap list_fmap zip zip_with uncurry]. unfold fused_loss.
      rewrite decide_True by reflexivity.
      rewrite block_lse_nan; [reflexivity|].
      left. apply elem_of_app. left.
      unfold ex_inf_row. apply list_elem_of_further, list_elem_of_here.
    + exact Ht.
    + reflexivity.
    + constructor; [by left|constructor].
    + vm_compute. discriminate.
  - destruct (Fast_CrossEntropyLoss_backward_run ex_inf [ex_inf_row] [NaN]
                [-100] ex_dlosses) as (buf' & Hrun & Hlen & Hpt).
    + exact Ht.
    + simpl. lia.
    + reflexivity.
    + reflexivity.
    + intros r Hr. simpl. unfold read. rewrite decide_True by lia.
      replace (r * 0) with 0 by lia. by eexists.
    + rewrite Hrun. change (shape0 ex_inf) with 1.
      change (shape1 ex_inf) with 4. change (stride0 ex_inf) with 4.
      do 2 f_equal.
      assert (Hj : ∀ (j : nat) x, ex_inf_row !! j = Some x →
                buf' !! j = Some NaN).
      { intros j x Hx.
        pose proof (Hpt 0%nat j ex_inf_row (-100) NaN x eq_refl eq_refl
                      eq_refl Hx) as Hb.
        rewrite grad_elem_nan in Hb.
        replace (Z.to_nat (Z.of_nat 0 * stride0 ex_inf + Z.of_nat j))
          with j in Hb by (simpl; lia).
        exact Hb. }
      change (length (data ex_inf)) with 4%nat in Hlen.
      apply list_eq. intros [|[|[|[|j]]]].
      * exact (Hj 0%nat _ eq_refl).
      * exact (Hj 1%nat _ eq_refl).
      * exact (Hj 2%nat _ eq_refl).
      * exact (Hj 3%nat _ eq_refl).
      * rewrite lookup_ge_None_2 by lia. reflexivity.
Qed.

(** C6.  When at least one label is not the ignore value,
    [fast_cross_entropy_loss] returns the sum of the per-row losses divided
    by the number of labels that are not the ignore value. *)
Theorem fast_cross_entropy_loss_mean (calculate_settings : Z → Z)
    (logits : tensor3) (labels : label_tensor) (rrows : list (list R)) :
  lshape labels = (batch logits, seq_len logits) →
  tensor_rows (view2 logits) (fin_rows rrows) →
  length (ldata labels) = length rrows →
  Forall (valid_label (vocab logits)) (ldata labels) →
  0 < vocab logits →
  (vocab logits ≤ MAX_FUSED_SIZE →
   vocab logits ≤ calculate_settings (vocab logits)) →
  0 < count_valid (ldata labels) →
  fast_cross_entropy_loss calculate_settings logits labels
  = Some (Fin (Rsum (zip_with row_loss rrows (ldata labels))
               / IZR (count_valid (ldata labels)))).
Proof.
  intros Hshape Ht Hlen Hlab HV Hcs Hcount.
  unfold fast_cross_entropy_loss. cbv zeta.
  rewrite decide_True by done.
  rewrite (Fast_CrossEntropyLoss_forward_fin _ _ rrows) by done.
  cbn [mbind option_bind]. rewrite torch_sum_fin.
  rewrite fdiv_fin; [reflexivity|].
  apply not_0_IZR. lia.
Qed.

Lemma fast_cross_entropy_loss_mean_witness :
  fast_cross_entropy_loss ex_settings ex_logits3 ex_labels3
  = Some (Fin (Rsum (zip_with row_loss ex_rows [3; -100]) / IZR 1)).
Proof.
  apply (fast_cross_entropy_loss_mean ex_settings ex_logits3 ex_labels3 ex_rows).
  - reflexivity.
  - exact ex_logits_rows.
  - reflexivity.
  - exact ex_labels_valid.
  - simpl. lia.
  - intros _. vm_compute. discriminate.
  - vm_compute. reflexivity.
Defined.

(** C7.  When every label is the ignore value, [fast_cross_entropy_loss]
    raises no error: it divides a zero sum by a zero count and returns
    NaN, whatever the scores are. *)
Theorem fast_cross_entropy_loss_all_ignored (calculate_settings : Z → Z)
    (logits : tensor3) (labels : label_tensor) (rows : list (list fval)) :
  lshape labels = (batch logits, seq_len logits) →
  tensor_rows (view2 logits) rows →
  length (ldata labels) = length rows →
  Forall (λ l, l = -100) (ldata labels) →
  0 ≤ calculate_settings (vocab logits) →
  fast_cross_entropy_loss calculate_settings logits labels = Some NaN.
Proof.
  intros Hshape Ht Hlen Hall Hcs.
  unfold fast_cross_entropy_loss. cbv zeta.
  rewrite decide_True by done.
  rewrite (Fast_CrossEntropyLoss_forward_run _ _ rows); try done.
  2:{ eapply list.Forall_impl; [exact Hall|]. intros l ->. by left. }
  rewrite count_valid_all_ignore by done.
  destruct (decide (chunk_count (shape1 (view2 logits)) MAX_FUSED_SIZE = 1));
    cbn [mbind option_bind].
  - rewrite torch_sum_all_zero; [by rewrite fdiv_zero_zero|].
    apply losses_all_ignore; [|done].
    intros row. unfold fused_loss. by rewrite decide_True.
  - rewrite torch_sum_all_zero; [by rewrite fdiv_zero_zero|].
    apply losses_all_ignore; [|done].
    intros row. unfold chunked_loss. by rewrite decide_True.
Qed.

Lemma fast_cross_entropy_loss_all_ignored_witness :
  fast_cross_entropy_loss ex_settings ex_logits3 ex_ignored3 = Some NaN.
Proof.
  apply (fast_cross_entropy_loss_all_ignored ex_settings ex_logits3 ex_ignored3
           (fin_rows ex_rows)).
  - reflexivity.
  - exact ex_logits_rows.
  - reflexivity.
  - repeat constructor.
  - vm_compute. discriminate.
Defined.



(** C9.  For rows of finite logits of magnitude at most [M] (1e4, say),
    with [2 * M + log vocab] inside the float32 range, both reducers
    return finite losses, between 0 and [2 * M + log vocab], and finite
    log-sum-exps, and [backward] writes [vocab_size] finite gradients to
    each row, of magnitude at most that of the upstream gradient: every
    exponent is the logit minus the maximum or minus the log-sum-exp,
    hence at most 0, and [exp] cannot overflow; the sums and differences
    are bounded by [2 * M + log vocab] and cannot overflow either. *)
Theorem extreme_logits_stay_finite (BLOCK_SIZE FUSED_BLOCK : Z) (t : tensor)
    (rrows : list (list R)) (labels : list Z) (dlosses : grad_vector)
    (gs : list R) (M : R) :
  tensor_rows t (fin_rows rrows) →
  0 < shape1 t ≤ FUSED_BLOCK → shape1 t ≤ stride0 t → shape1 t ≤ 2 ^ 31 →
  0 < BLOCK_SIZE →
  length labels = length rrows → length gs = length rrows →
  Forall (valid_label (shape1 t)) labels → grad_rows dlosses gs →
  (∀ row x, row ∈ rrows → x ∈ row → (Rabs x <= M)%R) →
  (2 * M + ln (IZR (shape1 t)) <= float32_max)%R →
  ∃ (losses lses : list R) (buf' : list fval),
    forward_fused FUSED_BLOCK t labels = Some (Fin <$> losses, Fin <$> lses)
    ∧ forward_chunked BLOCK_SIZE (chunk_count (shape1 t) BLOCK_SIZE) t labels
      = Some (Fin <$> losses, Fin <$> lses)
    ∧ Fast_CrossEntropyLoss_backward (Saved t (Fin <$> lses) labels) dlosses
      = Some (Tensor buf' (shape0 t) (shape1 t) (stride0 t))
    ∧ Forall (λ loss, (0 <= loss <= 2 * M + ln (IZR (shape1 t)))%R
                      ∧ (loss <= float32_max)%R) losses
    ∧ Forall (λ lse, (Rabs lse <= float32_max)%R) lses
    ∧ ∀ (r : nat) (g : R), gs !! r = Some g →
        ∃ grads : list R,
          take (Z.to_nat (shape1 t))
               (drop (Z.to_nat (Z.of_nat r * stride0 t)) buf')
          = Fin <$> grads
          ∧ length grads = Z.to_nat (shape1 t)
          ∧ Forall (λ y, (Rabs y <= Rabs g)%R) grads.
Proof.
  intros Ht HV Hs H31 HBS Hlab Hgs Hvalid Hdl HM Hmax.
  destruct (Fast_CrossEntropyLoss_backward_fin t rrows (LSE <$> rrows) labels
              dlosses gs) as (buf' & Hrun & _ & Hrows); try done.
  { by rewrite length_fmap. }
  { apply exp_safe_LSE. }
  exists (zip_with row_loss rrows labels), (LSE <$> rrows), buf'.
  split; [apply (forward_fused_fin _ t rrows); (done || lia)|].
  split; [apply (forward_chunked_fin _ t rrows); (done || lia)|].
  split; [done|]. split; [|split].
  - apply Forall_lookup. intros r loss Hloss.
    apply lookup_zip_with_Some in Hloss as (row & label & -> & Hrow & Hlabel).
    pose proof (fin_rows_length _ _ _ _ Ht Hrow) as HlenV.
    assert (Hb : (0 <= row_loss row label
                  <= 2 * M + ln (IZR (shape1 t)))%R).
    { rewrite <- HlenV, <- INR_IZR_INZ.
      apply row_loss_bounds.
      - apply nonempty_of_length. lia.
      - rewrite HlenV. eapply Forall_lookup_1; eauto.
      - intros x Hx. apply (HM row); [|done].
        by eapply list_elem_of_lookup_2. }
    split; [done|lra].
  - apply Forall_lookup. intros r lse Hlse.
    rewrite list_lookup_fmap in Hlse.
    destruct (rrows !! r) as [row|] eqn:Hrow; [|done].
    injection Hlse as <-.
    pose proof (fin_rows_length _ _ _ _ Ht Hrow) as HlenV.
    assert (Hne : row ≠ []) by (apply nonempty_of_length; lia).
    assert (HMrow : ∀ x, x ∈ row → (Rabs x <= M)%R).
    { intros x Hx. apply (HM row); [|done].
      by eapply list_elem_of_lookup_2. }
    pose proof (LSE_abs_bound row M Hne HMrow) as Habs.
    rewrite INR_IZR_INZ, HlenV in Habs.
    assert (HM0 : (0 <= M)%R).
    { destruct row as [|x row]; [done|].
      pose proof (HMrow x (list_elem_of_here _ _)).
      pose proof (Rabs_pos x). lra. }
    lra.
  - intros r g Hg.
    assert (Hr : (r < length rrows)%nat).
    { apply lookup_lt_Some in Hg. lia. }
    destruct (lookup_lt_is_Some_2 _ _ Hr) as [row Hrow].
    lookup_at labels r as label Hlabel.
    assert (Hlse : (LSE <$> rrows) !! r = Some (LSE row)).
    { by rewrite list_lookup_fmap, Hrow. }
    pose proof (Hrows r row label (LSE row) g Hrow Hlabel Hlse Hg) as Hrowof.
    apply row_of_take in Hrowof. rewrite length_grad_row in Hrowof.
    pose proof (fin_rows_length _ _ _ _ Ht Hrow) as HlenV.
    exists (grad_row g (LSE row) label row).
    split; [by rewrite <- HlenV, Nat2Z.id|].
    split; [rewrite length_grad_row; lia|]. apply grad_row_bound.
Qed.

Lemma extreme_logits_stay_finite_witness :
  ∃ (losses lses : list R) (buf' : list fval) (grads : list R),
    forward_fused 4 ex_extreme ex_extreme_labels
    = Some (Fin <$> losses, Fin <$> lses)
    ∧ forward_chunked 2 (chunk_count 4 2) ex_extreme ex_extreme_labels
      = Some (Fin <$> losses, Fin <$> lses)
    ∧ Fast_CrossEntropyLoss_backward
        (Saved ex_extreme (Fin <$> lses) ex_extreme_labels) ex_dlosses
      = Some (Tensor buf' 1 4 4)
    ∧ Forall (λ loss, (0 <= loss <= 2 * 10000 + ln (IZR 4))%R
                      ∧ (loss <= float32_max)%R) losses
    ∧ Forall (λ lse, (Rabs lse <= float32_max)%R) lses
    ∧ take 4 (drop 0 buf') = Fin <$> grads
    ∧ length grads = 4%nat
    ∧ Forall (λ y, (Rabs y <= Rabs 1)%R) grads.
Proof.
  destruct (extreme_logits_stay_finite 2 4 ex_extreme [ex_extreme_row]
              ex_extreme_labels ex_dlosses [1%R] 10000%R)
    as (losses & lses & buf' & H1 & H2 & H3 & H4 & H5 & H6).
  - exact ex_extreme_rows_ok.
  - simpl. lia.
  - simpl. lia.
  - simpl. lia.
  - lia.
  - reflexivity.
  - reflexivity.
  - constructor; [right; simpl; lia|constructor].
  - intros [|r] g; simpl; intros [= <-]; reflexivity.
  - exact ex_extreme_bounded.
  - change (shape1 ex_extreme) with 4. unfold float32_max.
    pose proof (ln_le_self (IZR 4) ltac:(lra)). lra.
  - destruct (H6 0%nat 1%R eq_refl) as (grads & Htake & Hlen & Hbound).
    exists losses, lses, buf', grads.
    split; [exact H1|]. split; [exact H2|]. split; [exact H3|].
    split; [exact H4|]. split; [exact H5|]. split; [exact Htake|].
    split; [exact Hlen|]. exact Hbound.
Defined.

(** C10.  The log-sum-exp vector [forward] keeps does not depend on the
    labels: for any scores (finite or not) and any two label vectors of
    column indices and ignore values, [forward] succeeds on both and saves
    the same log-sum-exp vector. *)
Theorem logsumexp_independent_of_labels (calculate_settings : Z → Z)
    (t : tensor) (rows : list (list fval)) (labels1 labels2 : list Z) :
  tensor_rows t rows →
  length labels1 = length rows → length labels2 = length rows →
  Forall (valid_label (shape1 t)) labels1 →
  Forall (valid_label (shape1 t)) labels2 →
  0 ≤ calculate_settings (shape1 t) →
  ∃ logsumexp losses1 losses2,
    Fast_CrossEntropyLoss_forward calculate_settings t labels1
    = Some (losses1, Saved t logsumexp labels1)
    ∧ Fast_CrossEntropyLoss_forward calculate_settings t labels2
      = Some (losses2, Saved t logsumexp labels2).
Proof.
  intros Ht Hlen1 Hlen2 Hlab1 Hlab2 Hcs.
  rewrite (Fast_CrossEntropyLoss_forward_run _ t rows labels1) by done.
  rewrite (Fast_CrossEntropyLoss_forward_run _ t rows labels2) by done.
  destruct (decide (chunk_count (shape1 t) MAX_FUSED_SIZE = 1));
    eexists _, _, _; split; reflexivity.
Qed.

Lemma logsumexp_independent_of_labels_witness :
  ∃ logsumexp losses1 losses2,
    Fast_CrossEntropyLoss_forward ex_settings ex_logits [3; -100]
    = Some (losses1, Saved ex_logits logsumexp [3; -100])
    ∧ Fast_CrossEntropyLoss_forward ex_settings ex_logits [-100; 0]
      = Some (losses2, Saved ex_logits logsumexp [-100; 0]).
Proof.
  apply (logsumexp_independent_of_labels ex_settings ex_logits
           (fin_rows ex_rows) [3; -100] [-100; 0]).
  - exact ex_logits_rows.
  - reflexivity.
  - reflexivity.
  - exact ex_labels_valid.
  - constructor; [left; reflexivity|]. constructor; [right; simpl; lia|constructor].
  - vm_compute. discriminate.
Defined.

(** * Further properties *)

(** ** The dispatch of [forward] *)

(** X1.  [forward] takes the single-pass branch exactly when the vocabulary
    size is between 1 and 65536, and the chunked branch otherwise, with
    the vocabulary size divided by 65536 and rounded up as the number of
    chunks. *)
Theorem forward_dispatch (calculate_settings : Z → Z) (t : tensor)
    (labels : list Z) :
  Fast_CrossEntropyLoss_forward calculate_settings t labels
  = (λ p : list fval * list fval, (p.1, Saved t p.2 labels))
    <$> (if decide (0 < shape1 t ≤ 65536)
         then forward_fused (calculate_settings (shape1 t)) t labels
         else forward_chunked 65536 ((shape1 t + 65535) `div` 65536) t labels).
Proof.
  unfold Fast_CrossEntropyLoss_forward, MAX_FUSED_SIZE. cbv zeta.
  pose proof (Z.div_mod (shape1 t) 65536 ltac:(lia)) as Hdm.
  pose proof (Z.mod_pos_bound (shape1 t) 65536 ltac:(lia)) as Hmod.
  assert (Hceil : shape1 t `div` 65536
                  + (if decide (shape1 t `mod` 65536 ≠ 0) then 1 else 0)
                  = (shape1 t + 65535) `div` 65536).
  { destruct (decide (shape1 t `mod` 65536 ≠ 0)).
    - apply (Z.div_unique _ _ _ (shape1 t `mod` 65536 - 1)); lia.
    - apply (Z.div_unique _ _ _ 65535); lia. }
  rewrite Hceil.
  destruct (decide ((shape1 t + 65535) `div` 65536 = 1)) as [H1|H1].
  - rewrite decide_True.
    + by destruct (forward_fused _ t labels) as [[??]|].
    + rewrite <- Hceil in H1.
      destruct (decide (shape1 t `mod` 65536 ≠ 0)); lia.
  - rewrite decide_False.
    + by destruct (forward_chunked _ _ t labels) as [[??]|].
    + intros HV. apply H1. rewrite <- Hceil.
      destruct (decide (shape1 t `mod` 65536 ≠ 0)); nia.
Qed.

(** ** Labels that are not column indices *)

Lemma partial_loss_out_of_range (BS k : Z) (row : list fval) (label : Z) :
  0 ≤ k → 0 ≤ BS → ¬ (0 ≤ label < Z.of_nat (length row)) →
  partial_loss BS k row label = Fin 0.
Proof.
  intros Hk HBS Hout. unfold partial_loss.
  rewrite decide_False; [reflexivity|]. intros [_ Hin]. apply Hout. nia.
Qed.

(** X2.  The chunked branch never reads the score of a label that is
    outside the row: [forward] succeeds whatever the labels are, and a row
    whose label is neither the ignore value nor a column index gets its
    log-sum-exp as loss. *)
Theorem chunked_label_out_of_range (BLOCK_SIZE : Z) (t : tensor)
    (rrows : list (list R)) (labels : list Z) :
  tensor_rows t (fin_rows rrows) → length labels = length rrows →
  0 < shape1 t → 0 < BLOCK_SIZE →
  ∃ losses lses,
    forward_chunked BLOCK_SIZE (chunk_count (shape1 t) BLOCK_SIZE) t labels
    = Some (losses, lses)
    ∧ ∀ (r : nat) row label,
        rrows !! r = Some row → labels !! r = Some label →
        label ≠ -100 → ¬ (0 ≤ label < shape1 t) →
        losses !! r = Some (Fin (LSE row)).
Proof.
  intros Ht Hlen HV HBS.
  destruct (chunk_count_bounds _ _ HV HBS) as [Hn _].
  eexists _, _. split.
  { apply (forward_chunked_run _ _ t (fin_rows rrows));
      [done|by unfold fin_rows; rewrite length_fmap|lia|lia]. }
  intros r row label Hrow Hlabel Hne Hout.
  pose proof (fin_rows_length _ _ _ _ Ht Hrow) as HlenV.
  rewrite list_lookup_fmap, lookup_zip_with. unfold fin_rows.
  rewrite list_lookup_fmap, Hrow, Hlabel. simpl. f_equal.
  unfold chunked_loss. rewrite decide_False by done.
  rewrite torch_sum_all_zero.
  - rewrite <- HlenV, chunked_lse_fin by (done || apply nonempty_of_length; lia).
    simpl. f_equal. lra.
  - apply Forall_fmap, Forall_seqZ. intros k Hk. simpl.
    apply partial_loss_out_of_range; [lia|lia|].
    rewrite length_fmap. lia.
Qed.

Lemma chunked_label_out_of_range_witness :
  ∃ losses lses,
    forward_chunked 4 (chunk_count 8 4) ex_wide [8] = Some (losses, lses)
    ∧ losses !! 0%nat = Some (Fin (LSE ex_wide_row)).
Proof.
  destruct (chunked_label_out_of_range 4 ex_wide ex_wide_rows [8])
    as (losses & lses & Hrun & Hrow).
  - exact ex_wide_rows_ok.
  - reflexivity.
  - simpl. lia.
  - lia.
  - exists losses, lses. split; [exact Hrun|].
    apply (Hrow 0%nat ex_wide_row 8); [reflexivity|reflexivity|lia|simpl; lia].
Defined.

(** X3.  The single-pass kernel does not check the label either, but it
    reads: for a label other than the ignore value the loss is the
    log-sum-exp of the row minus whatever the score buffer holds at the
    offset of the label from the start of the row, inside the row or not. *)
Theorem fused_label_unchecked (logits : list fval) (stride : Z)
    (loss logsumexp : list fval) (labels : list Z) (BLOCK_SIZE row_idx : Z)
    (row : list R) (label : Z) (y : R) :
  0 ≤ row_idx → row ≠ [] → Z.of_nat (length row) ≤ BLOCK_SIZE →
  row_of logits (row_idx * stride) (Fin <$> row) →
  read labels row_idx = Some label →
  to_int32 label ≠ -100 →
  read logits (row_idx * stride + to_int32 label) = Some (Fin y) →
  row_idx < Z.of_nat (length loss) →
  row_idx < Z.of_nat (length logsumexp) →
  _cross_entropy_forward logits stride loss logsumexp labels
    (Z.of_nat (length row)) BLOCK_SIZE row_idx
  = Some (<[Z.to_nat row_idx := Fin (LSE row - y)]> loss,
          <[Z.to_nat row_idx := Fin (LSE row)]> logsumexp).
Proof.
  intros Hr Hne HBS Hrow Hlabel Hnot Hread Hloss Hlse.
  pose proof (cross_entropy_forward_run logits stride loss logsumexp labels
                BLOCK_SIZE row_idx (Fin <$> row) label) as Hrun.
  rewrite length_fmap in Hrun. rewrite Hrun by (done || lia). clear Hrun.
  rewrite decide_True by done. rewrite Hread. cbn [mbind option_bind].
  rewrite fused_lse_fin by done. reflexivity.
Qed.

Lemma fused_label_unchecked_witness :
  _cross_entropy_forward (data ex_logits) 4 [NaN; NaN] [NaN; NaN] [4; -100]
    4 4 0
  = Some ([Fin (LSE ex_row - 0); NaN], [Fin (LSE ex_row); NaN]).
Proof.
  apply (fused_label_unchecked (data ex_logits) 4 [NaN; NaN] [NaN; NaN]
           [4; -100] 4 0 ex_row 4 0%R).
  - lia.
  - discriminate.
  - simpl. lia.
  - split; [lia|reflexivity].
  - reflexivity.
  - vm_compute. discriminate.
  - reflexivity.
  - simpl. lia.
  - simpl. lia.
Defined.

(** ** Infinite scores *)

(** X4.  The subtraction of the maximum turns an infinite maximum into NaN:
    a row that holds +inf, or nothing but -inf, gets NaN as log-sum-exp
    from the single-pass kernel, and NaN as loss unless its label is the
    ignore value. *)
Theorem infinite_scores_give_nan (BLOCK_SIZE : Z) (t : tensor)
    (rows : list (list fval)) (labels : list Z) :
  tensor_rows t rows → length labels = length rows →
  Forall (valid_label (shape1 t)) labels →
  0 < shape1 t ≤ BLOCK_SIZE → shape1 t ≤ 2 ^ 31 →
  ∃ losses lses,
    forward_fused BLOCK_SIZE t labels = Some (losses, lses)
    ∧ ∀ (r : nat) row label,
        rows !! r = Some row → labels !! r = Some label →
        PInf ∈ row ∨ Forall (λ x, x = NInf) row →
        lses !! r = Some NaN
        ∧ (label ≠ -100 → losses !! r = Some NaN).
Proof.
  intros Ht Hlen Hlab HV H31.
  eexists _, _. split.
  { apply (forward_fused_run _ t rows); (done || lia). }
  intros r row label Hrow Hlabel Hcase.
  destruct (tensor_rows_row _ _ _ _ Ht Hrow) as [HlenV _].
  assert (Hlse : block_lse (block_lanes row 0 BLOCK_SIZE) = NaN).
  { apply block_lse_nan. unfold block_lanes.
    rewrite chunk_whole by lia.
    destruct Hcase as [Hin | Hall].
    - left. apply elem_of_app. by left.
    - right. split.
      + destruct row; [simpl in HlenV; lia|done].
      + apply Forall_app. split; [done|]. by apply Forall_replicate. }
  split.
  - by rewrite list_lookup_fmap, Hrow; simpl; rewrite Hlse.
  - intros Hne. rewrite list_lookup_fmap, lookup_zip_with, Hrow, Hlabel.
    simpl. unfold fused_loss. rewrite decide_False by done.
    by rewrite Hlse.
Qed.

Lemma infinite_scores_give_nan_witness :
  ∃ losses lses,
    forward_fused 4 ex_inf [0] = Some (losses, lses)
    ∧ lses !! 0%nat = Some NaN
    ∧ losses !! 0%nat = Some NaN.
Proof.
  destruct (infinite_scores_give_nan 4 ex_inf [ex_inf_row] [0])
    as (losses & lses & Hrun & Hrow).
  - split; [reflexivity|]. split; [simpl; lia|]. split; [simpl; lia|].
    intros [|r] row; simpl; intros [= <-];
      (split; [reflexivity|split; [simpl; lia|reflexivity]]).
  - reflexivity.
  - constructor; [right; simpl; lia|constructor].
  - simpl. lia.
  - simpl. lia.
  - destruct (Hrow 0%nat ex_inf_row 0 eq_refl eq_refl) as [Hl Hloss].
    + left. unfold ex_inf_row. apply list_elem_of_further, list_elem_of_here.
    + exists losses, lses. split; [exact Hrun|]. split; [exact Hl|].
      apply Hloss. lia.
Defined.

(** ** What [backward] leaves alone, and in which order it may run *)

Lemma backward_launch_any (t : tensor) (rows : list (list fval))
    (lse : list fval) (labels : list Z) (dl : grad_vector) (BS n_blocks : Z)
    (grid : list (Z * Z)) :
  tensor_rows t rows → shape1 t ≤ stride0 t →
  length labels = length rows → length lse = length rows →
  grad_readable dl (shape0 t) → 0 < BS →
  NoDup grid → (∀ p, p ∈ grid → p ∈ grid2 (shape0 t) n_blocks) →
  ∃ buf',
    launch (λ (p : Z * Z) (buf : list fval),
              _cross_entropy_backward buf (stride0 t) (ddata dl) (dstride dl)
                lse labels (shape1 t) BS p.1 p.2)
           grid (data t) = Some buf'
    ∧ length buf' = length (data t)
    ∧ (∀ p a, p ∈ grid → backward_owns rows (stride0 t) BS p a →
         buf' !! a = Some (backward_post rows (stride0 t) lse labels dl p a))
    ∧ (∀ a, (∀ p, p ∈ grid → ¬ backward_owns rows (stride0 t) BS p a) →
         buf' !! a = data t !! a).
Proof.
  intros Ht Hs Hlab Hlse Hdl HBS Hnd Hsub.
  pose proof Ht as (Hn & HV0 & Hs0 & _).
  apply (launch_owned _ (backward_owns rows (stride0 t) BS)
           (backward_post rows (stride0 t) lse labels dl) (data t)).
  - done.
  - intros p q a Hp Hq Hne Hpa Hqa. apply Hne.
    eapply backward_owns_disjoint; eauto.
  - intros [r b] buf Hp Hlen Hinit.
    apply Hsub in Hp.
    pose proof Hp as [Hr Hb]%elem_of_grid2. cbn [fst snd].
    lookup_at rows (Z.to_nat r) as row Hrow.
    lookup_at labels (Z.to_nat r) as label Hlabel.
    lookup_at lse (Z.to_nat r) as l Hl.
    destruct (tensor_rows_row _ _ _ _ Ht Hrow) as [HlenV Hrowof].
    rewrite Z2Nat.id in Hrowof by lia.
    assert (Hrl : read labels r = Some label).
    { replace r with (Z.of_nat (Z.to_nat r)) by lia. by rewrite read_Some. }
    assert (Hrlse : read lse r = Some l).
    { replace r with (Z.of_nat (Z.to_nat r)) by lia. by rewrite read_Some. }
    assert (Hown : ∀ (i : nat) x, chunk row b BS !! i = Some x →
              backward_owns rows (stride0 t) BS (r, b)
                (Z.to_nat (r * stride0 t + (b * BS + Z.of_nat i)))).
    { intros i x Hx. exists i. cbn [fst snd].
      rewrite (list_lookup_total_correct _ _ _ Hrow).
      split; [by eapply lookup_lt_Some|done]. }
    destruct (cross_entropy_backward_run buf (stride0 t) (ddata dl) (dstride dl)
                lse labels BS r b row label l
                (upstream dl (to_int32 label) r))
      as (buf' & Hrun & Hlen' & Hset & Hframe); try done; try nia.
    + intros i x Hx.
      assert (Hread : read (data t) (r * stride0 t + (b * BS + Z.of_nat i))
                      = Some x).
      { apply (row_of_chunk_read _ _ row); [done|lia|lia|done]. }
      unfold read in *. rewrite decide_True in * by nia.
      rewrite Hinit; [done|]. by eapply Hown.
    + unfold upstream. destruct (decide (to_int32 label ≠ -100)); [|done].
      destruct (Hdl r ltac:(lia)) as [g ->]. reflexivity.
    + exists buf'. rewrite <- HlenV. split; [exact Hrun|].
      split; [lia|]. split.
      * intros a Ha.
        destruct (backward_owns_inv _ _ _ _ _ _ _ Ht HBS Hp Ha)
          as (row' & i & x & Hrow' & Hx & -> & Hi & Hj).
        rewrite Hrow in Hrow'. injection Hrow' as <-.
        rewrite (Hset i x Hx). f_equal.
        unfold backward_post. cbn [fst snd].
        rewrite (list_lookup_total_correct _ _ _ Hrow).
        rewrite (list_lookup_total_correct _ _ _ Hlabel).
        rewrite Hrlse. simpl.
        replace (Z.of_nat (Z.to_nat (r * stride0 t + (b * BS + Z.of_nat i)))
                 - r * stride0 t) with (b * BS + Z.of_nat i) by nia.
        rewrite chunk_lookup in Hx by lia.
        unfold read. rewrite decide_True by nia. rewrite Hx. reflexivity.
      * intros a Ha. apply Hframe. intros i Hi Heq. apply Ha.
        exists i. cbn [fst snd].
        rewrite (list_lookup_total_correct _ _ _ Hrow). done.
  - done.
  - done.
Qed.

(** X5.  [backward] overwrites the first [vocab_size] columns of each row
    and nothing else: the buffer keeps its length, and every element that
    is not column [j < vocab_size] of a row [r < n_rows] (the gap between
    two rows of a strided view, or what follows the last row) is left as it
    was. *)
Theorem backward_leaves_rest_untouched (t : tensor) (rows : list (list fval))
    (logsumexp : list fval) (labels : list Z) (dlosses : grad_vector) :
  tensor_rows t rows → shape1 t ≤ stride0 t →
  length labels = length rows → length logsumexp = length rows →
  grad_readable dlosses (shape0 t) →
  ∃ buf',
    Fast_CrossEntropyLoss_backward (Saved t logsumexp labels) dlosses
    = Some (Tensor buf' (shape0 t) (shape1 t) (stride0 t))
    ∧ length buf' = length (data t)
    ∧ ∀ a : Z,
        (∀ r j, 0 ≤ r < shape0 t → 0 ≤ j < shape1 t →
           a ≠ r * stride0 t + j) →
        read buf' a = read (data t) a.
Proof.
  intros Ht Hs Hlab Hlse Hdl.
  unfold Fast_CrossEntropyLoss_backward.
  cbn [saved_logits saved_logsumexp saved_labels]. cbv zeta.
  fold (chunk_count (shape1 t) 4096).
  destruct (backward_launch_run t rows logsumexp labels dlosses 4096
              (chunk_count (shape1 t) 4096))
    as (buf' & Hrun & Hlen & _ & Hframe); try done.
  exists buf'. rewrite Hrun. cbn [mbind option_bind].
  split; [done|]. split; [done|].
  intros a Ha. unfold read. destruct (decide (0 ≤ a)); [|done].
  apply Hframe. intros [r b] Hp Hown.
  assert (HBS : 0 < 4096) by lia.
  destruct (backward_owns_inv _ _ _ _ _ _ _ Ht HBS Hp Hown)
    as (row & i & x & _ & _ & Heq & Hi & Hj).
  apply elem_of_grid2 in Hp as [Hr Hb].
  apply (Ha r (b * 4096 + Z.of_nat i)); [lia|nia|]. nia.
Qed.

Lemma backward_leaves_rest_untouched_witness :
  ∃ buf',
    Fast_CrossEntropyLoss_backward
      (Saved (Tensor (data ex_logits) 2 3 4) [Fin 5; Fin 7] ex_labels)
      ex_dlosses
    = Some (Tensor buf' 2 3 4)
    ∧ read buf' 3 = Some (Fin 4)
    ∧ read buf' 7 = Some (Fin 0).
Proof.
  destruct (backward_leaves_rest_untouched (Tensor (data ex_logits) 2 3 4)
              [[Fin 1; Fin 2; Fin 3]; [Fin 0; Fin 0; Fin 0]]
              [Fin 5; Fin 7] ex_labels ex_dlosses)
    as (buf' & Hrun & _ & Hframe).
  - split; [reflexivity|]. split; [simpl; lia|]. split; [simpl; lia|].
    intros [|[|r]] row; simpl; intros [= <-];
      (split; [reflexivity|split; [simpl; lia|reflexivity]]).
  - simpl. lia.
  - reflexivity.
  - reflexivity.
  - intros r Hr. simpl. unfold read. rewrite decide_True by lia.
    replace (r * 0) with 0 by lia. by eexists.
  - exists buf'. split; [exact Hrun|]. split.
    + rewrite Hframe; [reflexivity|]. simpl. intros r j Hr Hj. lia.
    + rewrite Hframe; [reflexivity|]. simpl. intros r j Hr Hj. lia.
Defined.

(** X6.  The programs of the backward grid do not interfere: run in any
    order (any permutation of the grid) they leave the buffer that
    [backward] returns. *)
Theorem backward_order_independent (t : tensor) (rows : list (list fval))
    (logsumexp : list fval) (labels : list Z) (dlosses : grad_vector)
    (grid : list (Z * Z)) :
  tensor_rows t rows → shape1 t ≤ stride0 t →
  length labels = length rows → length logsumexp = length rows →
  grad_readable dlosses (shape0 t) →
  grid ≡ₚ grid2 (shape0 t) (chunk_count (shape1 t) 4096) →
  ∃ buf',
    Fast_CrossEntropyLoss_backward (Saved t logsumexp labels) dlosses
    = Some (Tensor buf' (shape0 t) (shape1 t) (stride0 t))
    ∧ launch (λ (p : Z * Z) (buf : list fval),
                _cross_entropy_backward buf (stride0 t) (ddata dlosses)
                  (dstride dlosses) logsumexp labels (shape1 t) 4096 p.1 p.2)
             grid (data t)
      = Some buf'.
Proof.
  intros Ht Hs Hlab Hlse Hdl Hperm.
  unfold Fast_CrossEntropyLoss_backward.
  cbn [saved_logits saved_logsumexp saved_labels]. cbv zeta.
  fold (chunk_count (shape1 t) 4096).
  set (n_blocks := chunk_count (shape1 t) 4096) in *.
  destruct (backward_launch_run t rows logsumexp labels dlosses 4096 n_blocks)
    as (buf2 & Hrun2 & Hlen2 & Hpost2 & Hframe2); try done.
  destruct (backward_launch_any t rows logsumexp labels dlosses 4096 n_blocks
              grid)
    as (buf1 & Hrun1 & Hlen1 & Hpost1 & Hframe1); try done.
  { rewrite Hperm. apply NoDup_grid2. }
  { intros p Hp. by rewrite <- Hperm. }
  exists buf2. rewrite Hrun2. cbn [mbind option_bind].
  split; [done|]. rewrite Hrun1. f_equal.
  apply list_eq. intros a.
  destruct (classic (∃ p, p ∈ grid
                          ∧ backward_owns rows (stride0 t) 4096 p a))
    as [(p & Hp & Hown) | Hnone].
  - rewrite (Hpost1 p a Hp Hown). symmetry. apply Hpost2; [|done].
    by rewrite <- Hperm.
  - rewrite Hframe1 by (intros p Hp Hown; apply Hnone; eauto).
    symmetry. apply Hframe2. intros p Hp Hown. apply Hnone.
    exists p. split; [by rewrite Hperm|done].
Qed.

Lemma backward_order_independent_witness :
  ∃ buf',
    Fast_CrossEntropyLoss_backward
      (Saved ex_logits [Fin 5; Fin 7] ex_labels) ex_dlosses
    = Some (Tensor buf' 2 4 4)
    ∧ launch (λ (p : Z * Z) (buf : list fval),
                _cross_entropy_backward buf 4 (ddata ex_dlosses)
                  (dstride ex_dlosses) [Fin 5; Fin 7] ex_labels 4 4096 p.1 p.2)
             [(1, 0); (0, 0)] (data ex_logits)
      = Some buf'.
Proof.
  apply (backward_order_independent ex_logits (fin_rows ex_rows)
           [Fin 5; Fin 7] ex_labels ex_dlosses [(1, 0); (0, 0)]).
  - exact ex_logits_rows.
  - simpl. lia.
  - reflexivity.
  - reflexivity.
  - intros r Hr. simpl. unfold read. rewrite decide_True by lia.
    replace (r * 0) with 0 by lia. by eexists.
  - vm_compute. apply perm_swap.
Defined.

(** ** The loss as a negative log-probability *)

Lemma exp_sub_LSE (row : list R) (x : R) :
  row ≠ [] → exp (x - LSE row) = (exp x / Rsum (exp <$> row))%R.
Proof.
  intros Hne. unfold Rminus.
  rewrite exp_plus, exp_Ropp, exp_LSE by done. reflexivity.
Qed.

Lemma exp_nonpos_le_1 (z : R) : (z <= 0)%R → (exp z <= 1)%R.
Proof.
  intros [Hlt | ->].
  - left. rewrite <- exp_0. by apply exp_increasing.
  - right. apply exp_0.
Qed.

Lemma softmax_at_label (row : list R) (label : Z) :
  0 ≤ label < Z.of_nat (length row) →
  let p := (exp (row_at row label) / Rsum (exp <$> row))%R in
  (0 < p <= 1)%R ∧ (LSE row - row_at row label = - ln p)%R.
Proof.
  intros Hl p.
  assert (Hne : row ≠ []) by (apply nonempty_of_length; lia).
  pose proof (LSE_ge row _ (row_at_elem row label Hl)) as Hge.
  subst p. rewrite <- exp_sub_LSE by done. rewrite ln_exp.
  split; [|lra]. split; [apply exp_pos|].
  apply exp_nonpos_le_1. lra.
Qed.

(** X7.  The loss of a row that is not ignored is the negative logarithm of
    the softmax probability of its label, [exp x_label / sum (exp x)], as
    the docstring of the kernel has it; that probability lies in (0, 1], so
    the loss is never negative. *)
Theorem loss_is_negative_log_probability (calculate_settings : Z → Z)
    (t : tensor) (rrows : list (list R)) (labels : list Z) :
  tensor_rows t (fin_rows rrows) → length labels = length rrows →
  Forall (valid_label (shape1 t)) labels →
  0 < shape1 t →
  (shape1 t ≤ MAX_FUSED_SIZE → shape1 t ≤ calculate_settings (shape1 t)) →
  ∃ losses ctx,
    Fast_CrossEntropyLoss_forward calculate_settings t labels
    = Some (losses, ctx)
    ∧ ∀ (r : nat) row label,
        rrows !! r = Some row → labels !! r = Some label → label ≠ -100 →
        let p := (exp (row_at row label) / Rsum (exp <$> row))%R in
        (0 < p <= 1)%R
        ∧ losses !! r = Some (Fin (- ln p))
        ∧ (0 <= - ln p)%R.
Proof.
  intros Ht Hlen Hlab HV Hcs.
  eexists _, _. split.
  { by apply (Fast_CrossEntropyLoss_forward_fin _ t rrows). }
  intros r row label Hrow Hlabel Hne p.
  pose proof (fin_rows_length _ _ _ _ Ht Hrow) as HlenV.
  assert (Hrange : 0 ≤ label < Z.of_nat (length row)).
  { destruct (Forall_lookup_1 _ _ _ _ Hlab Hlabel) as [?|?]; [done|lia]. }
  destruct (softmax_at_label row label Hrange) as [Hp Heq]. fold p in Hp, Heq.
  split; [done|]. split.
  - rewrite list_lookup_fmap, lookup_zip_with, Hrow, Hlabel. simpl.
    unfold row_loss. rewrite decide_False by done. by rewrite Heq.
  - rewrite <- Heq.
    pose proof (LSE_ge row _ (row_at_elem row label Hrange)). lra.
Qed.

Lemma loss_is_negative_log_probability_witness :
  ∃ losses ctx,
    Fast_CrossEntropyLoss_forward ex_settings ex_logits ex_labels
    = Some (losses, ctx)
    ∧ losses !! 0%nat
      = Some (Fin (- ln (exp (row_at ex_row 3) / Rsum (exp <$> ex_row)))).
Proof.
  destruct (loss_is_negative_log_probability ex_settings ex_logits ex_rows
              ex_labels) as (losses & ctx & Hrun & Hrow).
  - exact ex_logits_rows.
  - reflexivity.
  - exact ex_labels_valid.
  - simpl. lia.
  - intros _. vm_compute. discriminate.
  - exists losses, ctx. split; [exact Hrun|].
    apply (Hrow 0%nat ex_row 3); [reflexivity|reflexivity|lia].
Defined.

(** ** The gradient as a derivative *)

Lemma Rsum_insert (l : list R) (j : nat) (a b : R) :
  l !! j = Some a → Rsum (<[j := b]> l) = (Rsum l - a + b)%R.
Proof.
  unfold Rsum. revert j.
  induction l as [|y l IH]; intros j Hj; [done|].
  destruct j as [|j]; simpl in *.
  - injection Hj as ->. lra.
  - rewrite (IH j Hj). lra.
Qed.

Lemma row_at_insert (row : list R) (j : nat) (v : R) (label : Z) :
  (j < length row)%nat →
  row_at (<[j := v]> row) label
  = if decide (Z.of_nat j = label) then v else row_at row label.
Proof.
  intros Hj. unfold row_at, read.
  destruct (decide (Z.of_nat j = label)) as [<- | Hne].
  - rewrite decide_True by lia.
    by rewrite Nat2Z.id, list_lookup_insert_eq.
  - destruct (decide (0 ≤ label)); [|done].
    by rewrite list_lookup_insert_ne by lia.
Qed.

Lemma row_loss_insert (row : list R) (j : nat) (x v : R) (label : Z) :
  row !! j = Some x → label ≠ -100 →
  row_loss (<[j := v]> row) label
  = (ln (Rsum (exp <$> row) - exp x + exp v)
     - (if decide (Z.of_nat j = label) then v else row_at row label))%R.
Proof.
  intros Hx Hne. unfold row_loss, LSE. rewrite decide_False by done.
  rewrite list_fmap_insert, (Rsum_insert _ j (exp x)).
  - rewrite row_at_insert by (by eapply lookup_lt_Some). done.
  - by rewrite list_lookup_fmap, Hx.
Qed.

(** The loss of a row as a function of one of its scores has the softmax
    minus the indicator of the label as derivative. *)
Lemma row_loss_derivative (row : list R) (j : nat) (x : R) (label : Z) :
  row !! j = Some x →
  derivable_pt_lim (λ v, row_loss (<[j := v]> row) label) x
    (if decide (label = -100) then 0%R
     else (exp (x - LSE row)
           - (if decide (Z.of_nat j = label) then 1 else 0))%R).
Proof.
  intros Hx.
  destruct (decide (label = -100)) as [-> | Hne].
  { apply (derivable_pt_lim_ext (fct_cte 0)); [|apply derivable_pt_lim_const].
    intros z. reflexivity. }
  assert (Hrow : row ≠ []) by (intros ->; done).
  pose proof (Rsum_exp_pos row Hrow) as HS.
  set (S := Rsum (exp <$> row)) in *.
  set (A := (S - exp x)%R).
  set (h := if decide (Z.of_nat j = label) then id else fct_cte (row_at row label)).
  set (dh := if decide (Z.of_nat j = label) then 1%R else 0%R).
  assert (Hh : derivable_pt_lim h x dh).
  { subst h dh. destruct (decide (Z.of_nat j = label)).
    - apply derivable_pt_lim_id.
    - apply derivable_pt_lim_const. }
  apply (derivable_pt_lim_ext (comp ln (fct_cte A + exp) - h)%F).
  { intros z. rewrite (row_loss_insert row j x z label) by done.
    unfold minus_fct, comp, plus_fct, fct_cte, A, h. fold S.
    destruct (decide (Z.of_nat j = label)); reflexivity. }
  replace (exp (x - LSE row) - dh)%R
    with (/ ((fct_cte A + exp)%F x) * (0 + exp x) - dh)%R.
  - apply derivable_pt_lim_minus; [|exact Hh].
    apply derivable_pt_lim_comp.
    + apply derivable_pt_lim_plus;
        [apply derivable_pt_lim_const|apply derivable_pt_lim_exp].
    + apply derivable_pt_lim_ln. unfold plus_fct, fct_cte, A. lra.
  - rewrite exp_sub_LSE by done. fold S.
    unfold plus_fct, fct_cte, A.
    replace (S - exp x + exp x)%R with S by lra.
    unfold Rdiv. ring.
Qed.

Lemma tensor_rows_set_score (t : tensor) (rrows : list (list R)) (r j : nat)
    (row : list R) (v : R) :
  tensor_rows t (fin_rows rrows) → shape1 t ≤ stride0 t →
  rrows !! r = Some row → (j < length row)%nat →
  tensor_rows (set_score t r j v) (fin_rows (<[r := <[j := v]> row]> rrows)).
Proof.
  intros Ht Hs Hrow Hj.
  pose proof Ht as (Hn & HV0 & Hs0 & _).
  pose proof (fin_rows_length _ _ _ _ Ht Hrow) as HlenV.
  assert (Hfin : ∀ r' (row' : list R), rrows !! r' = Some row' →
            row_of (data t) (Z.of_nat r' * stride0 t) (Fin <$> row')).
  { intros r' row' Hrow'.
    apply (tensor_rows_row t (fin_rows rrows) r').
    - done.
    - unfold fin_rows. by rewrite list_lookup_fmap, Hrow'. }
  assert (Hmem : ∀ r' (row' : list R) (j' : nat) y,
            rrows !! r' = Some row' → row' !! j' = Some y →
            data t !! Z.to_nat (Z.of_nat r' * stride0 t + Z.of_nat j')
            = Some (Fin y)).
  { intros r' row' j' y Hrow' Hy.
    pose proof (row_of_read _ _ _ j' (Fin y) (Hfin r' row' Hrow')) as Hread.
    rewrite list_lookup_fmap, Hy in Hread. specialize (Hread eq_refl).
    unfold read in Hread. by rewrite decide_True in Hread by nia. }
  destruct (lookup_lt_is_Some_2 row j Hj) as [x Hx].
  pose proof (Hmem r row j x Hrow Hx) as Hold.
  apply lookup_lt_Some in Hold as Hin.
  split; [|split; [done|split; [done|]]].
  { unfold fin_rows in *. rewrite length_fmap, length_insert.
    by rewrite length_fmap in Hn. }
  intros r' frow Hfrow. unfold fin_rows in Hfrow.
  unfold set_score. cbn [data shape1 stride0].
  rewrite list_lookup_fmap in Hfrow.
  destruct (decide (r' = r)) as [-> | Hr].
  - rewrite list_lookup_insert_eq in Hfrow by (by eapply lookup_lt_Some).
    injection Hfrow as <-.
    split; [by rewrite length_fmap, length_insert|].
    apply row_of_intro; [nia|]. intros j' y Hy.
    rewrite list_lookup_fmap in Hy.
    replace (Z.to_nat (Z.of_nat r * stride0 t) + j')%nat
      with (Z.to_nat (Z.of_nat r * stride0 t + Z.of_nat j')) by nia.
    destruct (decide (j' = j)) as [-> | Hj'].
    + rewrite list_lookup_insert_eq in Hy by done.
      rewrite list_lookup_insert_eq by done. done.
    + rewrite list_lookup_insert_ne in Hy by done.
      rewrite list_lookup_insert_ne by nia.
      destruct (row !! j') as [y'|] eqn:Hy'; [|done].
      injection Hy as <-. by apply (Hmem r row).
  - rewrite list_lookup_insert_ne in Hfrow by done.
    destruct (rrows !! r') as [row'|] eqn:Hrow'; [|done].
    injection Hfrow as <-.
    pose proof (fin_rows_length _ _ _ _ Ht Hrow') as HlenV'.
    split; [by rewrite length_fmap|].
    apply row_of_intro; [nia|]. intros j' y Hy.
    rewrite list_lookup_fmap in Hy.
    destruct (row' !! j') as [y'|] eqn:Hy'; [|done].
    injection Hy as <-.
    apply lookup_lt_Some in Hy' as Hj'.
    replace (Z.to_nat (Z.of_nat r' * stride0 t) + j')%nat
      with (Z.to_nat (Z.of_nat r' * stride0 t + Z.of_nat j')) by nia.
    rewrite list_lookup_insert_ne; [by apply (Hmem r' row')|].
    assert (Hlt : (r < r')%nat ∨ (r' < r)%nat) by lia.
    destruct Hlt; nia.
Qed.

(** X9.  [backward] writes the derivative of what [forward] computes.  Take
    the loss of row [r] as a function of the score in column [j] of that
    row, every other score kept: [forward] returns it for each value of the
    score, the losses of the other rows do not depend on that score, and
    [backward], run on what [forward] saved, writes in that place the
    upstream gradient of the row times the derivative of that function at
    the score the row holds. *)
Theorem backward_is_derivative_of_forward (calculate_settings : Z → Z)
    (t : tensor) (rrows : list (list R)) (labels : list Z)
    (dlosses : grad_vector) (gs : list R)
    (r j : nat) (row : list R) (x g : R) :
  tensor_rows t (fin_rows rrows) →
  0 < shape1 t ≤ stride0 t → shape1 t ≤ 2 ^ 31 →
  (shape1 t ≤ MAX_FUSED_SIZE → shape1 t ≤ calculate_settings (shape1 t)) →
  length labels = length rrows → length gs = length rrows →
  Forall (valid_label (shape1 t)) labels → grad_rows dlosses gs →
  rrows !! r = Some row → row !! j = Some x → gs !! r = Some g →
  ∃ (loss_of : R → R) (d : R) losses ctx buf',
    Fast_CrossEntropyLoss_forward calculate_settings t labels
    = Some (losses, ctx)
    ∧ (∀ v : R, ∃ losses_v ctx_v,
         Fast_CrossEntropyLoss_forward calculate_settings (set_score t r j v)
           labels
         = Some (losses_v, ctx_v)
         ∧ losses_v !! r = Some (Fin (loss_of v))
         ∧ ∀ r' : nat, r' ≠ r → losses_v !! r' = losses !! r')
    ∧ derivable_pt_lim loss_of x d
    ∧ Fast_CrossEntropyLoss_backward ctx dlosses
      = Some (Tensor buf' (shape0 t) (shape1 t) (stride0 t))
    ∧ read buf' (Z.of_nat r * stride0 t + Z.of_nat j) = Some (Fin (g * d)).
Proof.
  intros Ht HV H31 Hcs Hlab Hgs Hvalid Hdl Hrow Hx Hg.
  pose proof (fin_rows_length _ _ _ _ Ht Hrow) as HlenV.
  apply lookup_lt_Some in Hx as Hj.
  apply lookup_lt_Some in Hrow as Hr.
  lookup_at labels r as label Hlabel.
  destruct (Fast_CrossEntropyLoss_backward_fin t rrows (LSE <$> rrows) labels
              dlosses gs) as (buf' & Hrun & _ & Hrows); try done; try lia.
  { by rewrite length_fmap. }
  { apply exp_safe_LSE. }
  exists (λ v, row_loss (<[j := v]> row) label).
  exists (if decide (label = -100) then 0%R
          else (exp (x - LSE row)
                - (if decide (Z.of_nat j = label) then 1 else 0))%R).
  eexists _, _, buf'.
  split; [apply (Fast_CrossEntropyLoss_forward_fin _ t rrows); (done || lia)|].
  split; [|split; [by apply row_loss_derivative|split; [done|]]].
  - intros v.
    pose proof (tensor_rows_set_score t rrows r j row v Ht ltac:(lia) Hrow Hj)
      as Ht'.
    eexists _, _. split.
    { apply (Fast_CrossEntropyLoss_forward_fin _ (set_score t r j v)
               (<[r := <[j := v]> row]> rrows)); try done.
      - by rewrite length_insert.
      - unfold set_score. cbn [shape1]. lia. }
    split.
    + rewrite list_lookup_fmap, lookup_zip_with.
      rewrite list_lookup_insert_eq by done. by rewrite Hlabel.
    + intros r' Hr'.
      rewrite !list_lookup_fmap, !lookup_zip_with.
      by rewrite list_lookup_insert_ne by done.
  - assert (Hlse : (LSE <$> rrows) !! r = Some (LSE row)).
    { by rewrite list_lookup_fmap, Hrow. }
    pose proof (Hrows r row label (LSE row) g Hrow Hlabel Hlse Hg) as Hrowof.
    rewrite (row_of_read _ _ _ j
               (Fin (if decide (label = -100) then 0%R
                     else grad_entry g (LSE row) label (Z.of_nat j) x))
               Hrowof).
    + f_equal. f_equal. unfold grad_entry.
      destruct (decide (label = -100)); [lra|].
      destruct (decide (Z.of_nat j = label)); lra.
    + rewrite list_lookup_fmap. unfold grad_row.
      by rewrite list_lookup_imap, Hx.
Qed.

Lemma backward_is_derivative_of_forward_witness :
  ∃ (loss_of : R → R) (d : R) losses ctx buf',
    Fast_CrossEntropyLoss_forward ex_settings ex_logits ex_labels
    = Some (losses, ctx)
    ∧ (∀ v : R, ∃ losses_v ctx_v,
         Fast_CrossEntropyLoss_forward ex_settings (set_score ex_logits 0 1 v)
           ex_labels
         = Some (losses_v, ctx_v)
         ∧ losses_v !! 0%nat = Some (Fin (loss_of v))
         ∧ ∀ r' : nat, r' ≠ 0%nat → losses_v !! r' = losses !! r')
    ∧ derivable_pt_lim loss_of 2 d
    ∧ Fast_CrossEntropyLoss_backward ctx ex_dlosses
      = Some (Tensor buf' 2 4 4)
    ∧ read buf' 1 = Some (Fin (1 * d)).
Proof.
  apply (backward_is_derivative_of_forward ex_settings ex_logits ex_rows
           ex_labels ex_dlosses ex_gs 0 1 ex_row 2 1).
  - exact ex_logits_rows.
  - simpl. lia.
  - simpl. lia.
  - intros _. vm_compute. discriminate.
  - reflexivity.
  - reflexivity.
  - exact ex_labels_valid.
  - exact ex_dlosses_rows.
  - reflexivity.
  - reflexivity.
  - reflexivity.
Defined.

(** ** Labels beyond 32 bits *)

Lemma to_int32_wraps_to_ignore (label : Z) :
  label `mod` 2 ^ 32 = 2 ^ 32 - 100 → to_int32 label = -100.
Proof.
  unfold to_int32.
  change (2 ^ 32) with 4294967296. change (2 ^ 31) with 2147483648.
  intros Hmod.
  pose proof (Z.div_mod label 4294967296 ltac:(lia)) as Hdm.
  rewrite Hmod in Hdm.
  replace (label + 2147483648)
    with (2147483648 - 100 + (label `div` 4294967296 + 1) * 4294967296)
    by lia.
  rewrite Z_mod_plus_full, Z.mod_small by lia. lia.
Qed.

(** X10.  The single-pass kernel narrows the 64-bit label to 32 bits before
    it compares it with the ignore value: every label congruent to -100
    modulo 2^32 (2^32 - 100 is one) is treated as ignored, the row gets
    the loss 0 and no score is read for the label. *)
Theorem fused_label_wraps_to_ignore (logits : list fval) (stride : Z)
    (loss logsumexp : list fval) (labels : list Z) (BLOCK_SIZE row_idx : Z)
    (row : list fval) (label : Z) :
  0 ≤ row_idx → 0 ≤ BLOCK_SIZE →
  row_of logits (row_idx * stride) row →
  read labels row_idx = Some label →
  label `mod` 2 ^ 32 = 2 ^ 32 - 100 →
  row_idx < Z.of_nat (length loss) →
  row_idx < Z.of_nat (length logsumexp) →
  _cross_entropy_forward logits stride loss logsumexp labels
    (Z.of_nat (length row)) BLOCK_SIZE row_idx
  = Some (<[Z.to_nat row_idx := Fin 0]> loss,
          <[Z.to_nat row_idx := block_lse (block_lanes row 0 BLOCK_SIZE)]>
            logsumexp).
Proof.
  intros Hr HBS Hrow Hlabel Hmod Hloss Hlse.
  rewrite (cross_entropy_forward_run logits stride loss logsumexp labels
             BLOCK_SIZE row_idx row label) by done.
  rewrite (to_int32_wraps_to_ignore label Hmod).
  rewrite decide_False by (intros H; by apply H). reflexivity.
Qed.

Lemma fused_label_wraps_to_ignore_witness :
  _cross_entropy_forward (data ex_logits) 4 [NaN; NaN] [NaN; NaN]
    [4294967196; -100] 4 4 0
  = Some ([Fin 0; NaN],
          [block_lse (block_lanes (Fin <$> ex_row) 0 4); NaN]).
Proof.
  refine (fused_label_wraps_to_ignore (data ex_logits) 4 [NaN; NaN]
            [NaN; NaN] [4294967196; -100] 4 0 (Fin <$> ex_row) 4294967196
            _ _ _ _ _ _ _).
  - lia.
  - lia.
  - split; [lia|reflexivity].
  - reflexivity.
  - vm_compute. reflexivity.
  - simpl. lia.
  - simpl. lia.
Defined.

(** ** A vocabulary of one class *)

Lemma LSE_singleton (x : R) : LSE [x] = x.
Proof.
  unfold LSE. rewrite fmap_cons, fmap_nil, Rsum_cons, Rsum_nil.
  rewrite Rplus_0_r. apply ln_exp.
Qed.

Lemma singleton_of_length {A} (l : list A) :
  Z.of_nat (length l) = 1 → ∃ x, l = [x].
Proof.
  destruct l as [|x [|y l]]; simpl; intros Hl; try lia. by exists x.
Qed.

(** X11.  With a single class there is nothing to learn: every row gets
    the loss 0 from [forward] and the gradient 0 from [backward], whatever
    its score and its upstream gradient. *)
Theorem single_class_zero (calculate_settings : Z → Z) (t : tensor)
    (rrows : list (list R)) (labels : list Z) (dlosses : grad_vector)
    (gs : list R) :
  tensor_rows t (fin_rows rrows) →
  shape1 t = 1 → 1 ≤ stride0 t → 1 ≤ calculate_settings 1 →
  length labels = length rrows → length gs = length rrows →
  Forall (valid_label 1) labels → grad_rows dlosses gs →
  ∃ losses ctx buf',
    Fast_CrossEntropyLoss_forward calculate_settings t labels
    = Some (losses, ctx)
    ∧ Fast_CrossEntropyLoss_backward ctx dlosses
      = Some (Tensor buf' (shape0 t) 1 (stride0 t))
    ∧ ∀ r : nat, (r < length rrows)%nat →
        losses !! r = Some (Fin 0)
        ∧ read buf' (Z.of_nat r * stride0 t) = Some (Fin 0).
Proof.
  intros Ht HV Hs Hcs Hlab Hgs Hvalid Hdl.
  destruct (Fast_CrossEntropyLoss_backward_fin t rrows (LSE <$> rrows) labels
              dlosses gs) as (buf' & Hrun & _ & Hrows);
    try done; try (rewrite HV; (done || lia)).
  { by rewrite length_fmap. }
  { apply exp_safe_LSE. }
  rewrite HV in Hrun.
  eexists _, _, buf'. split.
  { apply (Fast_CrossEntropyLoss_forward_fin _ t rrows);
      try done; rewrite HV; (done || lia). }
  split; [done|].
  intros r Hr.
  destruct (lookup_lt_is_Some_2 _ _ Hr) as [row Hrow].
  lookup_at labels r as label Hlabel.
  lookup_at gs r as g Hg.
  pose proof (fin_rows_length _ _ _ _ Ht Hrow) as HlenV. rewrite HV in HlenV.
  destruct (singleton_of_length row HlenV) as [x ->].
  pose proof (Forall_lookup_1 _ _ _ _ Hvalid Hlabel) as Hv.
  split.
  - rewrite list_lookup_fmap, lookup_zip_with, Hrow, Hlabel. simpl.
    do 2 f_equal. unfold row_loss.
    destruct (decide (label = -100)); [done|].
    destruct Hv as [?|Hrange]; [done|].
    assert (label = 0) as -> by lia.
    rewrite LSE_singleton. unfold row_at. simpl. lra.
  - assert (Hlse : (LSE <$> rrows) !! r = Some (LSE [x])).
    { by rewrite list_lookup_fmap, Hrow. }
    pose proof (Hrows r [x] label (LSE [x]) g Hrow Hlabel Hlse Hg) as Hrowof.
    pose proof (row_of_read _ _ _ 0%nat (Fin 0) Hrowof) as Hread.
    rewrite Z.add_0_r in Hread. apply Hread.
    simpl. do 2 f_equal.
    destruct (decide (label = -100)); [done|].
    destruct Hv as [?|Hrange]; [done|].
    assert (label = 0) as -> by lia.
    unfold grad_entry. rewrite decide_True by done.
    rewrite LSE_singleton, Rminus_diag, exp_0. lra.
Qed.

Lemma ex_single_rows_ok : tensor_rows ex_single (fin_rows ex_single_rows).
Proof.
  split; [reflexivity|]. split; [simpl; lia|]. split; [simpl; lia|].
  intros [|[|r]] row; simpl; intros [= <-];
    (split; [reflexivity|split; [simpl; lia|reflexivity]]).
Qed.

Lemma single_class_zero_witness :
  ∃ losses ctx buf',
    Fast_CrossEntropyLoss_forward ex_settings ex_single [0; 0]
    = Some (losses, ctx)
    ∧ Fast_CrossEntropyLoss_backward ctx ex_dlosses
      = Some (Tensor buf' 2 1 1)
    ∧ losses !! 1%nat = Some (Fin 0)
    ∧ read buf' 1 = Some (Fin 0).
Proof.
  destruct (single_class_zero ex_settings ex_single ex_single_rows [0; 0]
              ex_dlosses ex_gs) as (losses & ctx & buf' & Hf & Hb & Hz).
  - exact ex_single_rows_ok.
  - reflexivity.
  - simpl. lia.
  - vm_compute. discriminate.
  - reflexivity.
  - reflexivity.
  - constructor; [right; lia|]. constructor; [right; lia|constructor].
  - exact ex_dlosses_rows.
  - exists losses, ctx, buf'. split; [exact Hf|]. split; [exact Hb|].
    exact (Hz 1%nat ltac:(simpl; lia)).
Defined.

(** ** The sign of the mean loss *)

Lemma Rsum_nonneg (l : list R) : Forall (λ x, (0 <= x)%R) l → (0 <= Rsum l)%R.
Proof.
  induction 1 as [|x l Hx _ IH]; [rewrite Rsum_nil; lra|].
  rewrite Rsum_cons. lra.
Qed.

Lemma row_loss_nonneg (row : list R) (label : Z) :
  valid_label (Z.of_nat (length row)) label → (0 <= row_loss row label)%R.
Proof.
  intros Hv. unfold row_loss.
  destruct (decide (label = -100)) as [|Hne]; [lra|].
  destruct Hv as [?|Hrange]; [done|].
  pose proof (LSE_ge row _ (row_at_elem row label Hrange)). lra.
Qed.

(** X12.  The mean loss [fast_cross_entropy_loss] returns is never
    negative: every row contributes 0 or the negative logarithm of a
    probability, and the count that divides the sum is positive. *)
Theorem mean_loss_nonnegative (calculate_settings : Z → Z)
    (logits : tensor3) (labels : label_tensor) (rrows : list (list R)) :
  lshape labels = (batch logits, seq_len logits) →
  tensor_rows (view2 logits) (fin_rows rrows) →
  length (ldata labels) = length rrows →
  Forall (valid_label (vocab logits)) (ldata labels) →
  0 < vocab logits →
  (vocab logits ≤ MAX_FUSED_SIZE →
   vocab logits ≤ calculate_settings (vocab logits)) →
  0 < count_valid (ldata labels) →
  ∃ m : R,
    fast_cross_entropy_loss calculate_settings logits labels = Some (Fin m)
    ∧ (0 <= m)%R.
Proof.
  intros Hshape Ht Hlen Hlab HV Hcs Hcount.
  assert (Hn : (0 < IZR (count_valid (ldata labels)))%R).
  { by apply (IZR_lt 0). }
  assert (Hall : Forall (λ x, (0 <= x)%R)
                   (zip_with row_loss rrows (ldata labels))).
  { apply list.Forall_forall. intros y Hy.
    apply list_elem_of_lookup_1 in Hy as [r Hy].
    apply lookup_zip_with_Some in Hy as (row & label & -> & Hrow & Hlabel).
    pose proof (fin_rows_length _ _ _ _ Ht Hrow) as HlenV. simpl in HlenV.
    apply row_loss_nonneg. rewrite HlenV. by eapply Forall_lookup_1. }
  exists (Rsum (zip_with row_loss rrows (ldata labels))
          / IZR (count_valid (ldata labels)))%R.
  split.
  - unfold fast_cross_entropy_loss. cbv zeta.
    rewrite decide_True by done.
    rewrite (Fast_CrossEntropyLoss_forward_fin _ _ rrows) by done.
    cbn [mbind option_bind]. rewrite torch_sum_fin.
    rewrite fdiv_fin; [reflexivity|lra].
  - apply Rmult_le_pos; [by apply Rsum_nonneg|].
    left. by apply Rinv_0_lt_compat.
Qed.

Lemma mean_loss_nonnegative_witness :
  ∃ m : R,
    fast_cross_entropy_loss ex_settings ex_logits3 ex_labels3 = Some (Fin m)
    ∧ (0 <= m)%R.
Proof.
  apply (mean_loss_nonnegative ex_settings ex_logits3 ex_labels3 ex_rows).
  - reflexivity.
  - exact ex_logits_rows.
  - reflexivity.
  - exact ex_labels_valid.
  - simpl. lia.
  - intros _. vm_compute. discriminate.
  - vm_compute. reflexivity.
Defined.

(** ** The order of the programs of [forward] *)

Lemma write_all_perm {P} (slot : P → nat) (v : P → fval) (g1 g2 : list P)
    (buf : list fval) :
  g1 ≡ₚ g2 → NoDup (slot <$> g1) →
  write_all slot v g1 buf = write_all slot v g2 buf.
Proof.
  intros Hperm Hnd. apply list_eq. intros i.
  assert (Hnd2 : NoDup (slot <$> g2)) by (by rewrite <- Hperm).
  destruct (decide (i ∈ slot <$> g1)) as [Hin | Hout].
  - apply list_elem_of_fmap in Hin as (p & -> & Hp).
    destruct (decide (slot p < length buf)%nat) as [Hlt | Hge].
    + rewrite !write_all_lookup; try done. by rewrite <- Hperm.
    + rewrite !lookup_ge_None_2; [done| |]; rewrite length_write_all; lia.
  - rewrite !write_all_lookup_ne; [done| |done]. by rewrite <- Hperm.
Qed.

Lemma NoDup_row_slots (n : Z) : NoDup (Z.to_nat <$> seqZ 0 n).
Proof.
  apply NoDup_fmap_2_strong; [|apply NoDup_seqZ].
  intros x y Hx%elem_of_seqZ Hy%elem_of_seqZ. lia.
Qed.

Lemma fused_program_run (BS : Z) (t : tensor) (rows : list (list fval))
    (labels : list Z) (r : Z) (s : list fval * list fval) :
  tensor_rows t rows → length labels = length rows →
  Forall (valid_label (shape1 t)) labels →
  shape1 t ≤ 2 ^ 31 → 0 ≤ BS → 0 ≤ r < shape0 t →
  length s.1 = length (torch_empty (shape0 t)) →
  length s.2 = length (torch_empty (shape0 t)) →
  _cross_entropy_forward (data t) (stride0 t) s.1 s.2 labels (shape1 t) BS r
  = Some (<[Z.to_nat r := fused_loss BS (rows !!! Z.to_nat r)
                            (labels !!! Z.to_nat r)]> s.1,
          <[Z.to_nat r := block_lse (block_lanes (rows !!! Z.to_nat r) 0 BS)]>
            s.2).
Proof.
  intros Ht Hlen Hlab HV HBS Hr H1 H2.
  pose proof Ht as (Hn & HV0 & Hs & _).
  unfold torch_empty in H1, H2. rewrite length_replicate in H1, H2.
  lookup_at rows (Z.to_nat r) as row Hrow.
  lookup_at labels (Z.to_nat r) as label Hlabel.
  destruct (tensor_rows_row _ _ _ _ Ht Hrow) as [HlenV Hrowof].
  rewrite Z2Nat.id in Hrowof by lia.
  rewrite <- HlenV.
  rewrite (cross_entropy_forward_run _ _ _ _ _ _ _ row label); try lia; try done.
  2:{ replace r with (Z.of_nat (Z.to_nat r)) by lia. by rewrite read_Some. }
  rewrite (list_lookup_total_correct _ _ _ Hrow).
  rewrite (list_lookup_total_correct _ _ _ Hlabel).
  assert (Hvalid : valid_label (shape1 t) label).
  { eapply Forall_lookup_1; eauto. }
  unfold fused_loss.
  destruct Hvalid as [->|Hrange].
  - rewrite to_int32_id by lia. rewrite decide_False by (intros H; by apply H).
    rewrite decide_True by done. reflexivity.
  - rewrite to_int32_id by lia. rewrite decide_True by lia.
    rewrite decide_False by lia.
    rewrite (read_row_label _ _ row) by (done || lia). reflexivity.
Qed.

Lemma chunked_program_run (BS n_chunks : Z) (t : tensor)
    (rows : list (list fval)) (labels : list Z) (p : Z * Z)
    (s : list fval * list fval) :
  tensor_rows t rows → length labels = length rows →
  0 ≤ BS → p ∈ grid2 (shape0 t) n_chunks →
  length s.1 = length (torch_empty (n_chunks * shape0 t)) →
  length s.2 = length (torch_empty (n_chunks * shape0 t)) →
  _large_cross_entropy_forward (data t) (stride0 t) s.1 s.2 labels (shape0 t)
    (shape1 t) BS p.1 p.2
  = Some (<[partial_slot (shape0 t) p :=
              partial_loss BS p.2 (rows !!! Z.to_nat p.1)
                (labels !!! Z.to_nat p.1)]> s.1,
          <[partial_slot (shape0 t) p :=
              block_lse (block_lanes (rows !!! Z.to_nat p.1) p.2 BS)]> s.2).
Proof.
  intros Ht Hlen HBS Hp H1 H2. destruct p as [r k].
  apply elem_of_grid2 in Hp as [Hr Hk]. cbn [fst snd] in *.
  pose proof Ht as (Hn & HV0 & Hs & _).
  unfold torch_empty in H1, H2. rewrite length_replicate in H1, H2.
  lookup_at rows (Z.to_nat r) as row Hrow.
  lookup_at labels (Z.to_nat r) as label Hlabel.
  destruct (tensor_rows_row _ _ _ _ Ht Hrow) as [HlenV Hrowof].
  rewrite Z2Nat.id in Hrowof by lia.
  rewrite <- HlenV.
  rewrite (large_cross_entropy_forward_run _ _ _ _ _ _ _ _ _ row label);
    try lia; try done; try nia.
  2:{ replace r with (Z.of_nat (Z.to_nat r)) by lia. by rewrite read_Some. }
  rewrite (list_lookup_total_correct _ _ _ Hrow).
  rewrite (list_lookup_total_correct _ _ _ Hlabel).
  unfold partial_slot, partial_loss. cbn [fst snd].
  destruct (decide (label ≠ -100)) as [Hne|Heq].
  - destruct (decide (label >= (k + 0) * BS ∧ _)) as [Hin|Hout].
    + rewrite decide_True by (split; [done|lia]).
      rewrite (read_row_label _ _ row) by (done || nia). reflexivity.
    + rewrite decide_False by (intros [_ ?]; apply Hout; lia). reflexivity.
  - rewrite decide_False by (intros [? _]; done). reflexivity.
Qed.

(** X13.  The programs of the two forward grids do not interfere either:
    each writes one slot of its own in the loss and log-sum-exp buffers,
    so the single-pass kernel run over the rows in any order, and the
    chunked kernel run over the (row, chunk) grid in any order, leave the
    buffers that [forward] works with. *)
Theorem forward_order_independent (BLOCK_SIZE n_chunks : Z) (t : tensor)
    (rows : list (list fval)) (labels : list Z) (row_order : list Z)
    (grid : list (Z * Z)) :
  tensor_rows t rows → length labels = length rows →
  Forall (valid_label (shape1 t)) labels →
  shape1 t ≤ 2 ^ 31 → 0 ≤ BLOCK_SIZE →
  row_order ≡ₚ seqZ 0 (shape0 t) →
  grid ≡ₚ grid2 (shape0 t) n_chunks →
  ∃ out partials,
    forward_fused BLOCK_SIZE t labels = Some out
    ∧ launch (λ row_idx (s : list fval * list fval),
                _cross_entropy_forward (data t) (stride0 t) s.1 s.2
                  labels (shape1 t) BLOCK_SIZE row_idx)
             row_order (torch_empty (shape0 t), torch_empty (shape0 t))
      = Some out
    ∧ chunked_partials BLOCK_SIZE n_chunks t labels = Some partials
    ∧ launch (λ (p : Z * Z) (s : list fval * list fval),
                _large_cross_entropy_forward (data t) (stride0 t) s.1 s.2
                  labels (shape0 t) (shape1 t) BLOCK_SIZE p.1 p.2)
             grid (torch_empty (n_chunks * shape0 t),
                   torch_empty (n_chunks * shape0 t))
      = Some partials.
Proof.
  intros Ht Hlen Hlab HV HBS Hrows Hgrid.
  set (la := λ r : Z, fused_loss BLOCK_SIZE (rows !!! Z.to_nat r)
                        (labels !!! Z.to_nat r)).
  set (lb := λ r : Z, block_lse (block_lanes (rows !!! Z.to_nat r) 0
                                   BLOCK_SIZE)).
  set (pa := λ p : Z * Z, partial_loss BLOCK_SIZE p.2 (rows !!! Z.to_nat p.1)
                            (labels !!! Z.to_nat p.1)).
  set (pb := λ p : Z * Z, block_lse (block_lanes (rows !!! Z.to_nat p.1) p.2
                                       BLOCK_SIZE)).
  set (e1 := torch_empty (shape0 t)).
  set (e2 := torch_empty (n_chunks * shape0 t)).
  assert (Hfused : ∀ g : list Z, (∀ r, r ∈ g → r ∈ seqZ 0 (shape0 t)) →
            launch (λ row_idx (s : list fval * list fval),
                      _cross_entropy_forward (data t) (stride0 t) s.1 s.2
                        labels (shape1 t) BLOCK_SIZE row_idx) g (e1, e1)
            = Some (write_all Z.to_nat la g e1, write_all Z.to_nat lb g e1)).
  { intros g Hg.
    apply (launch_writes _ Z.to_nat la lb g (e1, e1)).
    intros r s' Hr H1 H2. apply Hg, elem_of_seqZ in Hr.
    apply (fused_program_run _ t rows); (done || lia). }
  assert (Hchunked : ∀ g : list (Z * Z),
            (∀ p, p ∈ g → p ∈ grid2 (shape0 t) n_chunks) →
            launch (λ (p : Z * Z) (s : list fval * list fval),
                      _large_cross_entropy_forward (data t) (stride0 t) s.1 s.2
                        labels (shape0 t) (shape1 t) BLOCK_SIZE p.1 p.2)
                   g (e2, e2)
            = Some (write_all (partial_slot (shape0 t)) pa g e2,
                    write_all (partial_slot (shape0 t)) pb g e2)).
  { intros g Hg.
    apply (launch_writes _ (partial_slot (shape0 t)) pa pb g (e2, e2)).
    intros p s' Hp H1 H2. apply Hg in Hp.
    by apply (chunked_program_run _ n_chunks t rows). }
  assert (Hnd1 : NoDup (Z.to_nat <$> row_order)).
  { rewrite Hrows. apply NoDup_row_slots. }
  assert (Hnd2 : NoDup (partial_slot (shape0 t) <$> grid)).
  { rewrite Hgrid. apply NoDup_partial_slots. }
  eexists _, _. split; [|split; [|split]].
  - unfold forward_fused. cbv zeta. by apply Hfused.
  - rewrite Hfused by (intros r Hr; by rewrite <- Hrows).
    by rewrite !(write_all_perm _ _ row_order (seqZ 0 (shape0 t))).
  - unfold chunked_partials. cbv zeta. by apply Hchunked.
  - rewrite Hchunked by (intros p Hp; by rewrite <- Hgrid).
    by rewrite !(write_all_perm _ _ grid (grid2 (shape0 t) n_chunks)).
Qed.

Lemma forward_order_independent_witness :
  ∃ out partials,
    forward_fused 4 ex_logits ex_labels = Some out
    ∧ launch (λ row_idx (s : list fval * list fval),
                _cross_entropy_forward (data ex_logits) 4 s.1 s.2
                  ex_labels 4 4 row_idx)
             [1; 0] (torch_empty 2, torch_empty 2)
      = Some out
    ∧ chunked_partials 4 1 ex_logits ex_labels = Some partials
    ∧ launch (λ (p : Z * Z) (s : list fval * list fval),
                _large_cross_entropy_forward (data ex_logits) 4 s.1 s.2
                  ex_labels 2 4 4 p.1 p.2)
             [(1, 0); (0, 0)] (torch_empty (1 * 2), torch_empty (1 * 2))
      = Some partials.
Proof.
  apply (forward_order_independent 4 1 ex_logits (fin_rows ex_rows) ex_labels
           [1; 0] [(1, 0); (0, 0)]).
  - exact ex_logits_rows.
  - reflexivity.
  - exact ex_labels_valid.
  - simpl. lia.
  - lia.
  - vm_compute. apply perm_swap.
  - vm_compute. apply perm_swap.
Defined.

(** ** Ignored rows of finite scores *)

(** X14.  On rows of finite scores the ignore value does what it is there
    for: a row labelled -100 gets the loss 0 on the single-pass branch and
    on the chunked branch, and [backward] writes 0 to every column of the
    row, whatever its scores and its upstream gradient, for any finite
    saved log-sum-exp that keeps [exp] from overflowing (the one [forward]
    saves does). *)
Theorem finite_ignored_rows_zero (BLOCK_SIZE FUSED_BLOCK : Z) (t : tensor)
    (rrows : list (list R)) (labels : list Z) (ls : list R)
    (dlosses : grad_vector) (gs : list R) :
  tensor_rows t (fin_rows rrows) →
  0 < shape1 t ≤ FUSED_BLOCK → shape1 t ≤ stride0 t → shape1 t ≤ 2 ^ 31 →
  0 < BLOCK_SIZE →
  length labels = length rrows → length ls = length rrows →
  length gs = length rrows →
  Forall (valid_label (shape1 t)) labels → grad_rows dlosses gs →
  exp_safe rrows ls →
  ∃ losses1 lses1 losses2 lses2 buf',
    forward_fused FUSED_BLOCK t labels = Some (losses1, lses1)
    ∧ forward_chunked BLOCK_SIZE (chunk_count (shape1 t) BLOCK_SIZE) t labels
      = Some (losses2, lses2)
    ∧ Fast_CrossEntropyLoss_backward (Saved t (Fin <$> ls) labels) dlosses
      = Some (Tensor buf' (shape0 t) (shape1 t) (stride0 t))
    ∧ ∀ r : nat, labels !! r = Some (-100) →
        losses1 !! r = Some (Fin 0)
        ∧ losses2 !! r = Some (Fin 0)
        ∧ take (Z.to_nat (shape1 t))
               (drop (Z.to_nat (Z.of_nat r * stride0 t)) buf')
          = replicate (Z.to_nat (shape1 t)) (Fin 0).
Proof.
  intros Ht HV Hs H31 HBS Hlab Hls Hgs Hvalid Hdl Hsafe.
  destruct (Fast_CrossEntropyLoss_backward_fin t rrows ls labels dlosses gs)
    as (buf' & Hrun & _ & Hrows); try done.
  eexists _, _, _, _, buf'.
  split; [apply (forward_fused_fin _ t rrows); (done || lia)|].
  split; [apply (forward_chunked_fin _ t rrows); (done || lia)|].
  split; [done|].
  intros r Hlabel.
  assert (Hr : (r < length rrows)%nat).
  { apply lookup_lt_Some in Hlabel. lia. }
  destruct (lookup_lt_is_Some_2 _ _ Hr) as [row Hrow].
  assert (Hloss : (Fin <$> zip_with row_loss rrows labels) !! r = Some (Fin 0)).
  { rewrite list_lookup_fmap, lookup_zip_with, Hrow, Hlabel. reflexivity. }
  split; [done|]. split; [done|].
  lookup_at ls r as lse Hlse.
  lookup_at gs r as g Hg.
  pose proof (Hrows r row (-100) lse g Hrow Hlabel Hlse Hg) as Hrowof.
  apply row_of_take in Hrowof.
  rewrite length_grad_row in Hrowof.
  pose proof (fin_rows_length _ _ _ _ Ht Hrow) as HlenV.
  rewrite <- HlenV, Nat2Z.id, Hrowof, grad_row_ignore.
  by rewrite fmap_replicate.
Qed.

Lemma finite_ignored_rows_zero_witness :
  ∃ losses1 lses1 losses2 lses2 buf',
    forward_fused 4 ex_logits [-100; -100] = Some (losses1, lses1)
    ∧ forward_chunked 2 (chunk_count 4 2) ex_logits [-100; -100]
      = Some (losses2, lses2)
    ∧ Fast_CrossEntropyLoss_backward
        (Saved ex_logits [Fin 5; Fin 7] [-100; -100]) ex_dlosses
      = Some (Tensor buf' 2 4 4)
    ∧ losses1 !! 0%nat = Some (Fin 0)
    ∧ losses2 !! 0%nat = Some (Fin 0)
    ∧ take 4 (drop 0 buf') = [Fin 0; Fin 0; Fin 0; Fin 0].
Proof.
  destruct (finite_ignored_rows_zero 2 4 ex_logits ex_rows [-100; -100]
              [5; 7]%R ex_dlosses ex_gs)
    as (l1 & s1 & l2 & s2 & buf' & H1 & H2 & H3 & Hrow).
  - exact ex_logits_rows.
  - simpl. lia.
  - simpl. lia.
  - simpl. lia.
  - lia.
  - reflexivity.
  - reflexivity.
  - reflexivity.
  - constructor; [by left|]. constructor; [by left|constructor].
  - exact ex_dlosses_rows.
  - exact ex_saved_safe.
  - destruct (Hrow 0%nat eq_refl) as (Ha & Hb & Hc).
    exists l1, s1, l2, s2, buf'.
    split; [exact H1|]. split; [exact H2|]. split; [exact H3|].
    split; [exact Ha|]. split; [exact Hb|]. exact Hc.
Defined.
